(** * Vagrantfile configuration core: a shallow embedding of
      [internal/core/vagrantfile.go]

    The Go file keeps one [Vagrantfile] struct per configuration scope.  It
    merges the unfinalized trees of its sources through the config plugins,
    finalizes the merged tree into [root], answers path lookups over [root]
    and derives per-target instances that it caches by key.

    Conventions of the embedding:
    - Go values of type [interface{}] are the inductive [value]; a
      [map[string]interface{}] and the [Data] of a [*component.ConfigData] are
      [gmap string value] (a nil map reads like the empty one);
    - pointers to [Vagrantfile] and [source] structs are addresses into a
      store, so that aliasing between an instance and its clones is kept; an
      address with nothing behind it behaves as the nil pointer;
    - a Go call either returns a value, returns an error, or panics: [go];
    - calls that leave the process (plugins, mapping service, Ruby runtime,
      origin scope) are fields of [Services] and every call is recorded in
      the [trace] of the [world];
    - Go does not fix the order in which [range] walks a map: the order is the
      [range_keys] field of [Services], any permutation of the keys;
    - logging and the mutex are left out: they do not change any result. *)

From stdpp Require Import base option strings gmap sets list.

Set Default Proof Using "Type".

(** ** Opaque tokens of the collaborators *)

(** [*plugin.Plugin], identified by its name. *)
Definition plugin := string.
(** A [core.Config] client handed out by a plugin. *)
Definition component := nat.
(** [*vagrant_plugin_sdk.Args_Hash], a wire message. *)
Definition wire_hash := nat.
(** [*vagrant_plugin_sdk.Config_RawRubyValue]. *)
Definition raw_ruby := nat.
(** A non-nil [originScope] (a basis, a project or a target). *)
Definition originScope := nat.
(** Addresses of heap-allocated structs. *)
Definition addr := nat.

(** ** Load locations *)

Inductive LoadLocation : Type :=
| VAGRANTFILE_BOX
| VAGRANTFILE_BASIS
| VAGRANTFILE_PROJECT
| VAGRANTFILE_TARGET
| VAGRANTFILE_PROVIDER.

Definition LoadLocation_to_nat (l : LoadLocation) : nat :=
  match l with
  | VAGRANTFILE_BOX => 0
  | VAGRANTFILE_BASIS => 1
  | VAGRANTFILE_PROJECT => 2
  | VAGRANTFILE_TARGET => 3
  | VAGRANTFILE_PROVIDER => 4
  end.

Definition LoadLocation_of_nat (n : nat) : option LoadLocation :=
  match n with
  | 0 => Some VAGRANTFILE_BOX
  | 1 => Some VAGRANTFILE_BASIS
  | 2 => Some VAGRANTFILE_PROJECT
  | 3 => Some VAGRANTFILE_TARGET
  | 4 => Some VAGRANTFILE_PROVIDER
  | _ => None
  end.

#[global] Instance LoadLocation_eq_dec : EqDecision LoadLocation.
Proof. solve_decision. Defined.

#[global] Program Instance LoadLocation_countable : Countable LoadLocation :=
  inj_countable LoadLocation_to_nat LoadLocation_of_nat _.
Next Obligation. by intros []. Qed.

(** [for i := VAGRANTFILE_BOX; i <= VAGRANTFILE_PROVIDER; i++] *)
Definition all_locations : list LoadLocation :=
  [VAGRANTFILE_BOX; VAGRANTFILE_BASIS; VAGRANTFILE_PROJECT;
   VAGRANTFILE_TARGET; VAGRANTFILE_PROVIDER].

Definition ValidRootLocations : gset LoadLocation :=
  {[ VAGRANTFILE_BASIS; VAGRANTFILE_PROJECT; VAGRANTFILE_TARGET ]}.

(** ** Values behind [interface{}] *)

#[warnings="-register-all"]
Inductive value : Type :=
| VNil                                   (* the nil interface *)
| VString (s : string)                   (* string *)
| VSymbol (s : string)                   (* types.Symbol *)
| VRaw (r : raw_ruby)                    (* *Config_RawRubyValue *)
| VList (l : list value)                 (* []interface{} *)
| VMap (m : gmap string value)           (* map[string]interface{} *)
| VConfigData (d : gmap string value)    (* *component.ConfigData *)
| VIMap (m : list (value * value))       (* map[interface{}]interface{},
                                            listed in iteration order *)
| VOther (ty : string).                  (* any other type, by its %T *)

(** The [Data] of a [component.ConfigData]. *)
Abbreviation cfg := (gmap string value).

(** What [%T] prints. *)
Definition type_name (x : value) : string :=
  match x with
  | VNil => "<nil>"
  | VString _ => "string"
  | VSymbol _ => "types.Symbol"
  | VRaw _ => "*vagrant_plugin_sdk.Config_RawRubyValue"
  | VList _ => "[]interface {}"
  | VMap _ => "map[string]interface {}"
  | VConfigData _ => "*component.ConfigData"
  | VIMap _ => "map[interface {}]interface {}"
  | VOther ty => ty
  end.

(** [x == nil] on an interface value. *)
Definition is_nil (x : value) : bool :=
  match x with VNil => true | _ => false end.

(** ** Errors and panics *)

Inductive error : Type :=
| ErrNoConfig (namespace : string)
    (* "no config defined for requested namespace (%s)" *)
| ErrInvalidNamespace (namespace : string)
    (* "invalid data type for requested namespace (%s)" *)
| ErrNoLookupPath
    (* "no lookup path provided" *)
| ErrLookup (path : list string)
    (* "failed to locate value at given path (%#v)" *)
| ErrEmptyTarget
    (* "empty value found for requested target" *)
| ErrNoPlugin (namespace : string)
    (* "no plugin set for config namespace '%s'" *)
| ErrInvalidConfig (k ty : string)
    (* "config for %s is invalid type %T" *)
| ErrBadMergeType (ty : string)
    (* "bad value type for merge %T" *)
| ErrWrap (msg : string) (e : error)
    (* fmt.Errorf(msg + ": %w", e) *)
| ErrExternal (code : nat).
    (* an error made by a collaborator *)

Inductive panic : Type :=
| NilDereference
| IndexOutOfRange (index len : nat)
| TypeAssertion (ty : string).

Inductive go (A : Type) : Type :=
| Ok (a : A)
| Err (e : error)
| Panic (p : panic).
Arguments Ok {A} a.
Arguments Err {A} e.
Arguments Panic {A} p.

(** ** Structs *)

Record subregistration : Type := Subregistration {
  scope : string;
  plugins : list plugin;
}.

Record registration : Type := Registration {
  identifier : string;
  reg_plugin : option plugin;
  set : bool;
  subregistrations : gmap string subregistration;
}.

(** [*vagrant_server.Vagrantfile] *)
Record vagrantfile_proto : Type := VagrantfileProto {
  Unfinalized : option wire_hash;
  Finalized : option wire_hash;
}.

Record source : Type := Source_ {
  base : vagrantfile_proto;
  finalized : option cfg;
  unfinalized : option cfg;
}.

Record Vagrantfile : Type := Vagrantfile_ {
  cache : gmap string addr;                  (* cacher.Cache of target configs *)
  origin : option originScope;
  registrations : gmap string registration;
  root : option cfg;
  sources : gmap LoadLocation addr;          (* map[LoadLocation]*source *)
  internal : option originScope;             (* plugin.NewInternal over an origin *)
}.

(** ** Calls that leave the process *)

Inductive event : Type :=
| EvComponent (p : plugin)
| EvMerge (namespace : string) (c : component) (a b : cfg)
| EvFinalize (namespace : string) (c : component) (a : cfg)
| EvDecode (h : option wire_hash)
| EvEncode (d : cfg)
| EvParseSubvm (r : raw_ruby)
| EvParseProvider (provider : string) (r : raw_ruby)
| EvNewInternal (o : originScope)
| EvCloser (o : originScope) (a : addr).

Record Services : Type := {
  plugin_component : plugin → error + component;
  config_merge : component → cfg → cfg → error + cfg;
  config_finalize : component → cfg → error + cfg;
  map_decode : option wire_hash → error + cfg;
  map_encode : cfg → error + wire_hash;
  parse_subvm : raw_ruby → error + wire_hash;
  parse_provider : string → raw_ruby → error + wire_hash;
  range_keys : gset string → list string;
  range_keys_perm : ∀ X, range_keys X ≡ₚ elements X;
}.

(** ** The store and the monad of Go calls *)

Record world : Type := World {
  vfiles : gmap addr Vagrantfile;
  srcs : gmap addr source;
  trace : list event;
}.

Definition M (A : Type) : Type := world → go A * world.

Definition ret {A} (a : A) : M A := λ w, (Ok a, w).
Definition fail {A} (e : error) : M A := λ w, (Err e, w).
Definition crash {A} (p : panic) : M A := λ w, (Panic p, w).
Definition bind {A B} (m : M A) (k : A → M B) : M B := λ w,
  match m w with
  | (Ok a, w') => k a w'
  | (Err e, w') => (Err e, w')
  | (Panic p, w') => (Panic p, w')
  end.

Notation "x <- m ;; k" := (bind m (λ x, k))
  (at level 100, m at next level, right associativity,
   format "'[v' x  <-  m  ;;  '/' k ']'").
Notation "m ;;; k" := (bind m (λ _, k))
  (at level 100, right associativity).

Definition lift {A} (r : go A) : M A := λ w, (r, w).

Definition emit (ev : event) : M unit := λ w,
  (Ok (), World (vfiles w) (srcs w) (trace w ++ [ev])).

(** An external call: recorded, then its answer is returned. *)
Definition call {A} (ev : event) (r : error + A) : M A :=
  emit ev ;;; match r with inl e => fail e | inr a => ret a end.

(** [(v, err) := m]: the error is caught as a value. *)
Definition catch {A} (m : M A) : M (error + A) := λ w,
  match m w with
  | (Ok a, w') => (Ok (inr a), w')
  | (Err e, w') => (Ok (inl e), w')
  | (Panic p, w') => (Panic p, w')
  end.

Definition wrap {A} (msg : string) (m : M A) : M A := λ w,
  match m w with
  | (Err e, w') => (Err (ErrWrap msg e), w')
  | r => r
  end.

Definition get_vf (a : addr) : M Vagrantfile := λ w,
  match vfiles w !! a with
  | Some v => (Ok v, w)
  | None => (Panic NilDereference, w)
  end.

Definition put_vf (a : addr) (v : Vagrantfile) : M unit := λ w,
  (Ok (), World (<[a := v]> (vfiles w)) (srcs w) (trace w)).

Definition alloc_vf (v : Vagrantfile) : M addr := λ w,
  let a := fresh (dom (vfiles w)) in
  (Ok a, World (<[a := v]> (vfiles w)) (srcs w) (trace w)).

Definition get_src (a : addr) : M source := λ w,
  match srcs w !! a with
  | Some s => (Ok s, w)
  | None => (Panic NilDereference, w)
  end.

Definition put_src (a : addr) (s : source) : M unit := λ w,
  (Ok (), World (vfiles w) (<[a := s]> (srcs w)) (trace w)).

Definition alloc_src (s : source) : M addr := λ w,
  let a := fresh (dom (srcs w)) in
  (Ok a, World (vfiles w) (<[a := s]> (srcs w)) (trace w)).

Definition set_root (r : option cfg) (v : Vagrantfile) : Vagrantfile :=
  Vagrantfile_ (cache v) (origin v) (registrations v) r (sources v) (internal v).

Definition set_sources (m : gmap LoadLocation addr) (v : Vagrantfile)
  : Vagrantfile :=
  Vagrantfile_ (cache v) (origin v) (registrations v) (root v) m (internal v).

Definition set_cache (c : gmap string addr) (v : Vagrantfile) : Vagrantfile :=
  Vagrantfile_ c (origin v) (registrations v) (root v) (sources v) (internal v).

Definition set_internal (i : option originScope) (v : Vagrantfile)
  : Vagrantfile :=
  Vagrantfile_ (cache v) (origin v) (registrations v) (root v) (sources v) i.

Definition set_finalized (f : option cfg) (s : source) : source :=
  Source_ (base s) f (unfinalized s).

Definition set_base_Finalized (h : option wire_hash) (s : source) : source :=
  Source_ (VagrantfileProto (Unfinalized (base s)) h) (finalized s)
    (unfinalized s).

(** [v.f = x] through the pointer [a]. *)
Definition modify_vf (a : addr) (f : Vagrantfile → Vagrantfile) : M unit :=
  v <- get_vf a ;; put_vf a (f v).

Definition modify_src (a : addr) (f : source → source) : M unit :=
  s <- get_src a ;; put_src a (f s).

(** ** The operations of [vagrantfile.go] *)

Section Core.

Variable sv : Services.

(** *** Reads over [root] *)

(** [v.root.Data]: a nil [root] cannot be dereferenced. *)
Definition root_Data (v : Vagrantfile) : go cfg :=
  match root v with
  | Some d => Ok d
  | None => Panic NilDereference
  end.

Definition GetConfig (v : Vagrantfile) (namespace : string) : go cfg :=
  match root_Data v with
  | Ok d =>
      match d !! namespace with
      | None => Err (ErrNoConfig namespace)
      | Some (VConfigData c) => Ok c
      | Some _ => Err (ErrInvalidNamespace namespace)
      end
  | Err e => Err e
  | Panic p => Panic p
  end.

(** The result is a [map[string]interface{}]; [None] is the nil map. *)
Definition getNamespace (v : Vagrantfile) (n : string) : go (option cfg) :=
  match root_Data v with
  | Ok d =>
      match d !! n with
      | Some (VConfigData c) => Ok (Some c)
      | _ => Ok None
      end
  | Err e => Err e
  | Panic p => Panic p
  end.

(** [result = v.getNamespace(path[0])] stores a map in an [interface{}]
    variable: the interface then holds the map type, and a nil map inside it
    reads like the empty map. *)
Definition iface_of_map (m : option cfg) : value := VMap (default ∅ m).

(** The loop over a [map[interface{}]interface{}]: the first entry, in
    iteration order, whose key is the string or the symbol [p]. *)
Fixpoint imap_find (p : string) (im : list (value * value)) : option value :=
  match im with
  | [] => None
  | (key, val) :: im' =>
      match key with
      | VString strKey =>
          if decide (strKey = p) then Some val else imap_find p im'
      | VSymbol symKey =>
          if decide (symKey = p) then Some val else imap_find p im'
      | _ => imap_find p im'
      end
  end.

(** The three type assertions of the loop of [GetValue]. *)
Definition as_string_map (x : value) : option cfg :=
  match x with VMap sm => Some sm | _ => None end.

Definition as_config_data (x : value) : option cfg :=
  match x with VConfigData cd => Some cd | _ => None end.

Definition as_iface_map (x : value) : option (list (value * value)) :=
  match x with VIMap im => Some im | _ => None end.

(** The loop [for i := 1; i < len(path); i++], over the segments still to
    walk; [path] is the whole path, kept for the error. *)
Fixpoint GetValue_loop (path rest : list string) (result : value) : go value :=
  match rest with
  | [] => Ok result
  | p :: rest' =>
      match as_string_map result with
      | Some sm =>
          match sm !! p with
          | Some r => GetValue_loop path rest' r
          | None => Err (ErrLookup path)
          end
      | None =>
          match as_config_data result with
          | Some cd =>
              match cd !! p with
              | Some r => GetValue_loop path rest' r
              | None => Err (ErrLookup path)
              end
          | None =>
              match as_iface_map result with
              | Some im =>
                  match imap_find p im with
                  | Some r => GetValue_loop path rest' r
                  | None => Err (ErrLookup path)
                  end
              | None => Err (ErrLookup path)
              end
          end
      end
  end.

Definition GetValue (v : Vagrantfile) (path : list string) : go value :=
  match path with
  | [] => Err ErrNoLookupPath
  | p0 :: rest =>
      match getNamespace v p0 with
      | Ok ns =>
          let result := iface_of_map ns in
          if is_nil result then Err (ErrLookup path)
          else GetValue_loop path rest result
      | Err e => Err e
      | Panic p => Panic p
      end
  end.

(** The symbols of a [[]interface{}], other elements skipped. *)
Fixpoint symbols (vmsList : list value) : list string :=
  match vmsList with
  | [] => []
  | VSymbol sym :: l => sym :: symbols l
  | _ :: l => symbols l
  end.

Definition TargetNames (v : Vagrantfile) : go (list string) :=
  match getNamespace v "vm" with
  | Ok None => Ok []
  | Ok (Some vm) =>
      match vm !! "__defined_vm_keys" with
      | None => Ok []
      | Some (VList vmsList) =>
          let list := symbols vmsList in
          if decide (length list = 0) then Ok (list ++ ["default"])
          else Ok list
      | Some _ => Ok []
      end
  | Err e => Err e
  | Panic p => Panic p
  end.

Definition PrimaryTargetName (v : Vagrantfile) : go string :=
  match TargetNames v with
  | Ok list =>
      match list with
      | n :: _ => Ok n
      | [] => Panic (IndexOutOfRange 0 (length list))
      end
  | Err e => Err e
  | Panic p => Panic p
  end.

(** *** Components, merge and finalize *)

Definition componentForKey (v : Vagrantfile) (namespace : string)
  : M component :=
  match registrations v !! namespace with
  | None => fail (ErrNoPlugin namespace)
  | Some reg =>
      match reg_plugin reg with
      | None => fail (ErrNoPlugin namespace)
      | Some p => call (EvComponent p) (plugin_component sv p)
      end
  end.

(** The body of [for k := range keys] in [merge], over the keys still to
    visit. *)
Fixpoint merge_loop (v : Vagrantfile) (base toMerge : cfg)
    (keys : list string) (result : cfg) : M cfg :=
  match keys with
  | [] => ret result
  | k :: keys' =>
      c <- componentForKey v k ;;
      match base !! k, toMerge !! k with
      | Some rawBase, None =>
          merge_loop v base toMerge keys' (<[k := rawBase]> result)
      | None, Some rawToMerge =>
          merge_loop v base toMerge keys' (<[k := rawToMerge]> result)
      | ok1, ok2 =>
          let rawBase := default VNil ok1 in
          let rawToMerge := default VNil ok2 in
          match rawBase with
          | VConfigData valBase =>
              match rawToMerge with
              | VConfigData valToMerge =>
                  r <- call (EvMerge k c valBase valToMerge)
                         (config_merge sv c valBase valToMerge) ;;
                  merge_loop v base toMerge keys' (<[k := VConfigData r]> result)
              | _ => fail (ErrBadMergeType (type_name rawToMerge))
              end
          | _ => fail (ErrBadMergeType (type_name rawBase))
          end
      end
  end.

(** [base] and [toMerge] are pointers: [None] is nil. *)
Definition merge (v : Vagrantfile) (base toMerge : option cfg) : M cfg :=
  match base with
  | None => crash NilDereference
  | Some b =>
      match toMerge with
      | None => crash NilDereference
      | Some t => merge_loop v b t (range_keys sv (dom b ∪ dom t)) ∅
      end
  end.

(** The body of [for k, val := range conf.Data] in [finalize].  The function
    has named results [(result, err)]: a bare [return] hands back the
    [result] built so far next to the error. *)
Fixpoint finalize_loop (v : Vagrantfile) (conf : cfg) (keys : list string)
    (result : cfg) : M (option cfg * option error) :=
  match keys with
  | [] => ret (Some result, None)
  | k :: keys' =>
      let val := default VNil (conf !! k) in
      c <- catch (componentForKey v k) ;;
      match c with
      | inl err => ret (Some result, Some err)
      | inr c =>
          match val with
          | VConfigData data =>
              r <- catch (call (EvFinalize k c data)
                            (config_finalize sv c data)) ;;
              match r with
              | inl err => ret (Some result, Some err)
              | inr r =>
                  finalize_loop v conf keys' (<[k := VConfigData r]> result)
              end
          | _ => ret (None, Some (ErrInvalidConfig k (type_name val)))
          end
      end
  end.

Definition finalize (v : Vagrantfile) (conf : option cfg)
  : M (option cfg * option error) :=
  match conf with
  | None => crash NilDereference
  | Some d => finalize_loop v d (range_keys sv (dom d)) ∅
  end.

(** *** Sources *)

Definition generateConfig (value : option wire_hash) : M cfg :=
  call (EvDecode value) (map_decode sv value).

(** [newSource] has named results [(s, err)]; [Source] only looks at [s]
    when [err] is nil. *)
Definition newSource (f : vagrantfile_proto) : M source :=
  u <- generateConfig (Unfinalized f) ;;
  match Finalized f with
  | Some h =>
      fin <- generateConfig (Some h) ;;
      ret (Source_ f (Some fin) (Some u))
  | None => ret (Source_ f None (Some u))
  end.

Definition Source (self : addr) (vf : option vagrantfile_proto)
    (l : LoadLocation) : M unit :=
  _ <- get_vf self ;;
  match vf with
  | None => ret ()
  | Some f =>
      s <- newSource f ;;
      sa <- alloc_src s ;;
      modify_vf self (λ v, set_sources (<[l := sa]> (sources v)) v)
  end.

(** [s.finalized = f], then the encoded form goes to [s.base.Finalized]. *)
Definition setFinalized (s : addr) (f : option cfg) : M unit :=
  modify_src s (set_finalized f) ;;;
  match f with
  | None => crash NilDereference
  | Some d =>
      raw <- call (EvEncode d) (map_encode sv d) ;;
      modify_src s (set_base_Finalized (Some raw))
  end.

(** [v.sources[l]] followed by a field access: a missing entry is the nil
    pointer. *)
Definition source_at (v : Vagrantfile) (l : LoadLocation) : M source :=
  match sources v !! l with
  | Some sa => get_src sa
  | None => crash NilDereference
  end.

Fixpoint generate_loop (v : Vagrantfile) (locs : list LoadLocation)
    (c : option cfg) : M (option cfg) :=
  match locs with
  | [] => ret c
  | i :: locs' =>
      match sources v !! i with
      | None => generate_loop v locs' c
      | Some sa =>
          match c with
          | None =>
              s <- get_src sa ;;
              generate_loop v locs' (unfinalized s)
          | Some _ =>
              s <- get_src sa ;;
              r <- merge v c (unfinalized s) ;;
              generate_loop v locs' (Some r)
          end
      end
  end.

Definition generate (v : Vagrantfile) (locs : list LoadLocation)
  : M (option cfg) :=
  match locs with
  | [] => ret (Some ∅)
  | l0 :: locs' =>
      s <- source_at v l0 ;;
      generate_loop v locs' (unfinalized s)
  end.

(** *** Init *)

(** The locations with a source, in ascending order. *)
Definition locations_of (v : Vagrantfile) : list LoadLocation :=
  filter (λ i, is_Some (sources v !! i)) all_locations.

(** The part of [Init] after the fast path: [s] is the source of the final
    location when that is a valid root location, nil otherwise. *)
Definition Init_generate (self : addr) (v : Vagrantfile)
    (locations : list LoadLocation) (s : option addr) : M unit :=
  c <- generate v locations ;;
  r <- finalize v c ;;
  modify_vf self (set_root r.1) ;;;
  match r.2 with
  | Some err => fail err
  | None =>
      match s with
      | Some sa => setFinalized sa r.1
      | None => ret ()
      end
  end.

Definition Init (self : addr) : M unit :=
  v <- get_vf self ;;
  let locations := locations_of v in
  match last locations with
  | Some final =>
      if decide (final ∈ ValidRootLocations) then
        match sources v !! final with
        | Some sa =>
            s <- get_src sa ;;
            match finalized s with
            | Some f => modify_vf self (set_root (Some f))
            | None => Init_generate self v locations (Some sa)
            end
        | None => crash NilDereference
        end
      else Init_generate self v locations None
  | None => Init_generate self v locations None
  end.

(** *** Clones and target configurations *)

Definition clone (self : addr) (name : string) (o : option originScope)
  : M addr :=
  v <- get_vf self ;;
  newV <- alloc_vf (Vagrantfile_ ∅ o (registrations v) None (sources v)
                     None) ;;
  match o with
  | Some origin =>
      emit (EvNewInternal origin) ;;;
      modify_vf newV (set_internal (Some origin))
  | None => modify_vf newV (set_internal (internal v))
  end ;;;
  match o with
  | Some origin => emit (EvCloser origin newV) ;;; ret newV
  | None => crash NilDereference
  end.

Definition cache_key (name provider : string) : string :=
  name +:+ "+" +:+ provider.

Definition TargetConfig (self : addr) (name provider : string)
    (validateProvider : bool) : M addr :=
  v <- get_vf self ;;
  let cid := cache_key name provider in
  match cache v !! cid with
  | Some cv => ret cv
  | None =>
      subvm <- lift (GetValue v ["vm"; "__defined_vms"; name]) ;;
      if is_nil subvm then fail ErrEmptyTarget
      else
        raw <- match subvm with
               | VRaw r => ret r
               | _ => crash (TypeAssertion (type_name subvm))
               end ;;
        resp <- call (EvParseSubvm raw) (parse_subvm sv raw) ;;
        newV <- clone self name (origin v) ;;
        wrap "failed to add target config source"
          (Source newV (Some (VagrantfileProto (Some resp) None))
             VAGRANTFILE_TARGET) ;;;
        (if decide (provider = EmptyString) then ret ()
         else
           resp <- call (EvParseProvider provider raw)
                     (parse_provider sv provider raw) ;;
           wrap "failed to add provider config source"
             (Source newV (Some (VagrantfileProto (Some resp) None))
                VAGRANTFILE_PROVIDER)) ;;;
        wrap "failed to init target config vagrantfile" (Init newV) ;;;
        modify_vf self (λ v, set_cache (<[cid := newV]> (cache v)) v) ;;;
        ret newV
  end.

End Core.

(** ** Vocabulary of the statements *)

(** The component that [componentForKey] hands out for a namespace, when it
    hands one out. *)
Definition component_of (sv : Services) (v : Vagrantfile) (k : string)
  : option component :=
  reg ← registrations v !! k;
  p ← reg_plugin reg;
  match plugin_component sv p with
  | inr c => Some c
  | inl _ => None
  end.

(** The events a run appended to the trace. *)
Definition appended (w w' : world) (evs : list event) : Prop :=
  trace w' = trace w ++ evs.

Definition is_merge_of (k : string) (ev : event) : Prop :=
  match ev with
  | EvMerge k' _ _ _ => k' = k
  | _ => False
  end.

Definition is_component_call (ev : event) : Prop :=
  match ev with EvComponent _ => True | _ => False end.

Definition is_parse (ev : event) : Prop :=
  match ev with
  | EvParseSubvm _ | EvParseProvider _ _ => True
  | _ => False
  end.

(** The root of the instance at [a], nil when there is none. *)
Definition root_at (w : world) (a : addr) : option cfg :=
  v ← vfiles w !! a; root v.

Definition cache_at (w : world) (a : addr) (cid : string) : option addr :=
  v ← vfiles w !! a; cache v !! cid.

(** A computation that leaves every instance as it is. *)
Definition keeps_vfiles {A} (m : M A) : Prop :=
  ∀ w r w', m w = (r, w') → vfiles w' = vfiles w.

(** Every cache reads the same in both stores. *)
Definition cache_same (w w' : world) : Prop :=
  ∀ a cid, cache_at w' a cid = cache_at w a cid.


Definition keeps_cache {A} (m : M A) : Prop :=
  ∀ w r w', m w = (r, w') → cache_same w w'.

(** [l] is the highest location that has a source. *)
Definition highest_present (v : Vagrantfile) (l : LoadLocation) : Prop :=
  is_Some (sources v !! l) ∧
  ∀ l', is_Some (sources v !! l') →
        LoadLocation_to_nat l' ≤ LoadLocation_to_nat l.

(** The root gives no list of target keys: the "vm" namespace is absent or
    not a tree, or its "__defined_vm_keys" entry is absent or not a list. *)
Definition no_target_keys (d : cfg) : Prop :=
  match d !! "vm" with
  | Some (VConfigData vm) =>
      match vm !! "__defined_vm_keys" with
      | Some (VList _) => False
      | _ => True
      end
  | _ => True
  end.

(** The mapping [getNamespace] unwraps for [n]. *)
Definition namespace_of (d : cfg) (n : string) : option cfg :=
  d !! n ≫= as_config_data.

(** What [merge] is expected to leave under namespace [k]. *)
Definition merged_value (sv : Services) (v : Vagrantfile) (b t : cfg)
    (k : string) : option value :=
  match b !! k, t !! k with
  | Some x, None => Some x
  | None, Some y => Some y
  | Some (VConfigData vb), Some (VConfigData vt) =>
      c ← component_of sv v k;
      match config_merge sv c vb vt with
      | inr m => Some (VConfigData m)
      | inl _ => None
      end
  | _, _ => None
  end.

(** A namespace that both sides define, one of them not with a tree. *)
Definition mistyped_pair (b t : cfg) (k : string) : Prop :=
  ∃ x y, b !! k = Some x ∧ t !! k = Some y ∧
         (as_config_data x = None ∨ as_config_data y = None).




(** *** The lookup of [GetValue], following the words of the specification *)

(** The text of a key of a heterogeneous mapping: plain strings and symbols
    have one, other keys do not. *)
Definition key_text (k : value) : option string :=
  match k with
  | VString s => Some s
  | VSymbol s => Some s
  | _ => None
  end.

(** (a) a string-keyed mapping, (b) a tree wrapper unwrapped to its inner
    mapping, (c) a heterogeneous-keyed mapping: the first representation
    that contains the segment wins. *)
Definition spec_segment (x : value) (p : string) : option value :=
  match as_string_map x ≫= (λ sm, sm !! p) with
  | Some r => Some r
  | None =>
      match as_config_data x ≫= (λ cd, cd !! p) with
      | Some r => Some r
      | None =>
          as_iface_map x ≫= (λ im,
            snd <$> List.find (λ kv, bool_decide (key_text kv.1 = Some p)) im)
      end
  end.

Fixpoint spec_walk (path rest : list string) (x : value) : go value :=
  match rest with
  | [] => Ok x
  | p :: rest' =>
      match spec_segment x p with
      | Some r => spec_walk path rest' r
      | None => Err (ErrLookup path)
      end
  end.

(** The segment at which a lookup gives up: the last segment of the shortest
    prefix of the path on which [GetValue] already fails. *)
Fixpoint offending_from (v : Vagrantfile) (seen rest : list string)
  : option string :=
  match rest with
  | [] => None
  | p :: rest' =>
      match GetValue v (seen ++ [p]) with
      | Err _ => Some p
      | _ => offending_from v (seen ++ [p]) rest'
      end
  end.

Definition offending (v : Vagrantfile) (path : list string) : option string :=
  offending_from v [] path.

(** ** Concrete collaborators and stores, for the examples *)

Definition demo_decode (h : option wire_hash) : error + cfg :=
  match h with
  | None => inr ∅
  | Some 0 => inl (ErrExternal 4)
  | Some 1 => inr {[ "vm" := VConfigData {[ "box" := VString "web" ]} ]}
  | Some 2 => inr {[ "vm" := VConfigData {[ "memory" := VString "2G" ]} ]}
  | Some 3 => inr {[ "ssh" := VConfigData {[ "user" := VString "root" ]} ]}
  | Some 4 => inr {[ "vm" := VString "oops" ]}
  | Some _ => inr ∅
  end.

Program Definition demo : Services := {|
  plugin_component p :=
    if decide (p = "broken") then inl (ErrExternal 1) else inr (String.length p);
  config_merge c a b :=
    if decide (is_Some (b !! "conflict")) then inl (ErrExternal 2)
    else inr (b ∪ a);
  config_finalize c a :=
    if decide (is_Some (a !! "invalid")) then inl (ErrExternal 3)
    else inr (<["finalized" := VString "yes"]> a);
  map_decode := demo_decode;
  map_encode d :=
    if decide (is_Some (d !! "ssh")) then inl (ErrExternal 5) else inr 9;
  parse_subvm r := if decide (r = 0) then inl (ErrExternal 6) else inr r;
  parse_provider p r := inr 2;
  range_keys := elements;
|}.
Next Obligation. done. Qed.

Definition reg_of (n : string) (p : plugin) : registration :=
  Registration n (Some p) false ∅.

Definition demo_regs : gmap string registration :=
  {[ "vm" := reg_of "vm" "kernel_v2"; "ssh" := reg_of "ssh" "kernel_v2" ]}.

(** An instance that was never initialized. *)
Definition vf_fresh : Vagrantfile :=
  Vagrantfile_ ∅ (Some 0) demo_regs None ∅ (Some 0).

Definition vf_rooted (d : cfg) : Vagrantfile :=
  Vagrantfile_ ∅ (Some 0) demo_regs (Some d) ∅ (Some 0).

Definition vm_tree : cfg :=
  {[ "vm" := VConfigData {[ "__defined_vms" := VMap {[ "web" := VRaw 1 ]} ]} ]}.

Definition src_of (u : cfg) : source :=
  Source_ (VagrantfileProto (Some 1) None) None (Some u).

Definition w_memoized : world :=
  World {[ 1 := Vagrantfile_ ∅ (Some 0) demo_regs None
                  {[ VAGRANTFILE_BOX := 5; VAGRANTFILE_PROJECT := 6 ]}
                  (Some 0) ]}
        {[ 5 := src_of {[ "vm" := VConfigData ∅ ]};
           6 := Source_ (VagrantfileProto (Some 1) (Some 2))
                  (Some {[ "vm" := VConfigData {[ "box" := VString "web" ]} ]})
                  (Some ∅) ]}
        [].

Definition ssh_tree : cfg :=
  {[ "ssh" := VConfigData {[ "user" := VString "root" ]} ]}.

(** One project source whose finalized form the mapping service cannot
    encode. *)
Definition w_unencodable : world :=
  World {[ 1 := Vagrantfile_ ∅ (Some 0) demo_regs None
                  {[ VAGRANTFILE_PROJECT := 6 ]} (Some 0) ]}
        {[ 6 := Source_ (VagrantfileProto (Some 3) None) None (Some ssh_tree) ]}
        [].

Definition w_target : world :=
  World {[ 1 := vf_rooted vm_tree ]} ∅ [].

(** A root that defines the target "a+b", and the instance without an
    origin. *)
Definition w_plus : world :=
  World {[ 1 := vf_rooted
                  {[ "vm" := VConfigData
                       {[ "__defined_vms" := VMap {[ "a+b" := VRaw 1 ]} ]} ]} ]}
        ∅ [].

Definition vf_orphan : Vagrantfile :=
  Vagrantfile_ ∅ None demo_regs (Some vm_tree) ∅ None.

Definition w_orphan : world := World {[ 1 := vf_orphan ]} ∅ [].

Definition box_tree : cfg :=
  {[ "vm" := VConfigData {[ "box" := VString "web" ]} ]}.

Definition web_only : cfg := {[ "web" := VConfigData ∅ ]}.

Definition w_empty : world := World {[ 1 := vf_fresh ]} ∅ [].

(** ** The registry, [GetSource] and [NewVagrantfile] *)

(** A call whose errors are not among [error]. *)
Inductive outcome (E A : Type) : Type :=
| Returned (a : A)
| Failed (e : E)
| Panicked (msg : string).
Arguments Returned {E A} a.
Arguments Failed {E A} e.
Arguments Panicked {E A} msg.

Inductive registry_error : Type :=
| ErrAlreadyRegistered (n : string) (by_plugin : string)
    (* "namespace %s is already registered by plugin %s" *)
| ErrRegistrationsNil.
    (* "registrations are nil" *)

Inductive source_error : Type :=
| ErrNoSource (l : LoadLocation).
    (* "no vagrantfile source for given location (%s)" *)

(** [*component.ConfigRegistration] *)
Record ConfigRegistration : Type := ConfigRegistration_ {
  Identifier : string;
  Scope : string;
}.

(** [registration.sub]: the registration after the call (it returns nil
    always).  The registration structs are held by value: what a clone
    shares with its parent through the pointers is not followed. *)
Definition registration_sub (r : registration) (sc : string) (p : plugin)
  : registration :=
  match subregistrations r !! sc with
  | None =>
      Registration (identifier r) (reg_plugin r) (set r)
        (<[sc := Subregistration sc [p]]> (subregistrations r))
  | Some s =>
      Registration (identifier r) (reg_plugin r) (set r)
        (<[sc := Subregistration (scope s) (plugins s ++ [p])]>
           (subregistrations r))
  end.

(** [registrations.init]: the map after the call and the entry returned. *)
Definition registrations_init (r : gmap string registration) (n : string)
  : gmap string registration * registration :=
  match r !! n with
  | Some v => (r, v)
  | None =>
      let reg := Registration n None false ∅ in
      (<[n := reg]> r, reg)
  end.

(** [registrations.register] *)
Definition registrations_register (r : gmap string registration) (n : string)
    (p : plugin) : registry_error + gmap string registration :=
  match r !! n with
  | Some _ => inl (ErrAlreadyRegistered n p)
  | None => inr (<[n := Registration n (Some p) false ∅]> r)
  end.

(** [Vagrantfile.Register] on the [registrations] field; [None] is the nil
    map, which no instance made by [NewVagrantfile] or [clone] has. *)
Definition Register (regs : option (gmap string registration))
    (info : ConfigRegistration) (p : plugin)
  : outcome registry_error (gmap string registration) :=
  if decide (Scope info = EmptyString) then
    match regs with
    | None => Failed ErrRegistrationsNil
    | Some r =>
        match registrations_register r (Identifier info) p with
        | inl e => Failed e
        | inr r' => Returned r'
        end
    end
  else
    match regs with
    | None => Panicked "assignment to entry in nil map"
    | Some r =>
        let ri := registrations_init r (Identifier info) in
        Returned (<[Identifier info := registration_sub ri.2 (Scope info) p]>
                    ri.1)
    end.

Definition set_registrations (r : gmap string registration) (v : Vagrantfile)
  : Vagrantfile :=
  Vagrantfile_ (cache v) (origin v) r (root v) (sources v) (internal v).

(** [Register] on an instance: the instance after the call when it returns
    nil. *)
Definition Register_vf (v : Vagrantfile) (info : ConfigRegistration)
    (p : plugin) : outcome registry_error Vagrantfile :=
  match Register (Some (registrations v)) info p with
  | Returned r => Returned (set_registrations r v)
  | Failed e => Failed e
  | Panicked msg => Panicked msg
  end.

Definition GetSource (w : world) (v : Vagrantfile) (l : LoadLocation)
  : outcome source_error vagrantfile_proto :=
  match sources v !! l with
  | None => Failed (ErrNoSource l)
  | Some sa =>
      match srcs w !! sa with
      | Some s => Returned (base s)
      | None => Panicked "nil pointer dereference"
      end
  end.

(** The [mappers] slice of [NewVagrantfile]: [all] is [protomappers.All],
    [new_func] is [argmapper.NewFunc], [m] the mappers of the caller.  A slot
    of the slice is a pointer: [None] is nil. *)
Definition NewVagrantfile_mappers {F Fn : Type} (new_func : F → error + Fn)
    (all : list F) (m : list Fn) : outcome error (list (option Fn)) :=
  let mappers := replicate (length all + length m) None in
  let mappers :=
    foldl (λ acc ifn,
             match new_func ifn.2 with
             | inl _ => acc
             | inr pfn => <[ifn.1 := Some pfn]> acc
             end)
          mappers (imap (λ i fn, (i, fn)) all) in
  match length all with
  | 0 => Panicked "slice bounds out of range [-1:]"
  | S low =>
      (* copy(mappers[low : len(all)+len(m)], m) *)
      Returned (list_inserts low (Some <$> take (length m + 1) m) mappers)
  end.

(** [NewVagrantfile], without the fields the embedding leaves out. *)
Definition NewVagrantfile (o : option originScope) : M addr :=
  a <- alloc_vf (Vagrantfile_ ∅ o ∅ None ∅ None) ;;
  match o with
  | None => crash NilDereference
  | Some origin =>
      emit (EvNewInternal origin) ;;;
      modify_vf a (set_internal (Some origin)) ;;;
      ret a
  end.

(** ** More vocabulary *)

(** A computation that only appends to the trace. *)
Definition only_trace {A} (m : M A) : Prop :=
  ∀ w r w', m w = (r, w') →
    vfiles w' = vfiles w ∧ srcs w' = srcs w ∧ ∃ evs, trace w' = trace w ++ evs.

(** What [finalize] is expected to leave under namespace [k]. *)
Definition finalized_value (sv : Services) (v : Vagrantfile) (conf : cfg)
    (k : string) : option value :=
  match conf !! k with
  | Some (VConfigData a) =>
      c ← component_of sv v k;
      match config_finalize sv c a with
      | inr m => Some (VConfigData m)
      | inl _ => None
      end
  | _ => None
  end.

Definition is_finalize_or_component (ev : event) : Prop :=
  match ev with
  | EvFinalize _ _ _ | EvComponent _ => True
  | _ => False
  end.

(** The world differs from the one before by structs put behind addresses
    that were free, and by nothing behind the addresses in [V] and [S]. *)
Definition untouched (V S : gset addr) (w w' : world) : Prop :=
  (∀ b, b ∈ V → vfiles w' !! b = vfiles w !! b) ∧
  (∀ x, x ∈ S → srcs w' !! x = srcs w !! x).

(** The plugins registered for scope [sc] of namespace [n], in order. *)
Definition sub_plugins (r : gmap string registration) (n sc : string)
  : list plugin :=
  default [] (plugins <$> (r !! n ≫= λ reg, subregistrations reg !! sc)).

(** The plugin that owns namespace [n]. *)
Definition owner (r : gmap string registration) (n : string) : option plugin :=
  r !! n ≫= reg_plugin.

Definition top_level (n : string) : ConfigRegistration :=
  ConfigRegistration_ n EmptyString.

(** A project source with the tree of "vm", not finalized yet. *)
Definition w_project : world :=
  World {[ 1 := Vagrantfile_ ∅ (Some 0) demo_regs None
                  {[ VAGRANTFILE_PROJECT := 6 ]} (Some 0) ]}
        {[ 6 := src_of box_tree ]}
        [].

Definition vf_project : Vagrantfile :=
  Vagrantfile_ ∅ (Some 0) demo_regs None {[ VAGRANTFILE_PROJECT := 6 ]}
    (Some 0).

Definition targets_tree : cfg :=
  {[ "vm" := VConfigData
       {[ "__defined_vm_keys" :=
            VList [VSymbol "web"; VString "cache"; VSymbol "db"] ]} ]}.

#[global] Instance is_parse_dec (ev : event) : Decision (is_parse ev).
Proof. destruct ev; simpl; apply _. Defined.

(** A computation that does not call the Ruby parser. *)
Definition no_parse {A} (m : M A) : Prop :=
  ∀ w r w', m w = (r, w') →
    ∃ evs, trace w' = trace w ++ evs ∧ Forall (λ ev, ¬ is_parse ev) evs.

(** The calls to the Ruby parser that one derivation makes. *)
Definition parser_calls (provider : string) (raw : raw_ruby) : list event :=
  EvParseSubvm raw ::
  (if decide (provider = EmptyString) then []
   else [EvParseProvider provider raw]).

(** The slot [argmapper.NewFunc] fills for one built-in mapper: nil when it
    returned an error. *)
Definition converted {F Fn : Type} (new_func : F → error + Fn) (fn : F)
  : option Fn :=
  match new_func fn with
  | inr pfn => Some pfn
  | inl _ => None
  end.

(** A box source and a project source, both with a tree under "vm". *)
Definition vf_two : Vagrantfile :=
  Vagrantfile_ ∅ (Some 0) demo_regs None
    {[ VAGRANTFILE_BOX := 5; VAGRANTFILE_PROJECT := 6 ]} (Some 0).

Definition w_two : world :=
  World {[ 1 := vf_two ]}
        {[ 5 := src_of box_tree;
           6 := src_of {[ "vm" := VConfigData {[ "memory" := VString "2G" ]} ]} ]}
        [].

(** ** Init past the fast path *)

(** The pointer [s] of [Init]: the source of the final location when that
    is a valid root location, nil otherwise. *)
Definition final_source (v : Vagrantfile) : option addr :=
  match last (locations_of v) with
  | Some final =>
      if decide (final ∈ ValidRootLocations) then sources v !! final else None
  | None => None
  end.

(** [Init] gets to [generate]: the final source, if there is one, has no
    finalized tree. *)
Definition reaches_generate (v : Vagrantfile) (w : world) : Prop :=
  match final_source v with
  | Some sa => ∃ s, srcs w !! sa = Some s ∧ finalized s = None
  | None => True
  end.

(** ** The iteration order of interface maps *)

(** Go picks the order of a [range] over a map anew each time the loop
    runs.  An [order] holds the choices of one lookup: the order in which
    the loop of step [i] visits the entries it is given. *)
Definition order : Type := nat → list (value * value) → list (value * value).

Definition fair (o : order) : Prop := ∀ i im, o i im ≡ₚ im.

Definition stored : order := λ _ im, im.

Definition reversed : order := λ _ im, reverse im.

(** [GetValue] with the iteration order of each [range] made explicit. *)
Fixpoint GetValue_loop_in (o : order) (i : nat) (path rest : list string)
    (result : value) : go value :=
  match rest with
  | [] => Ok result
  | p :: rest' =>
      match as_string_map result with
      | Some sm =>
          match sm !! p with
          | Some r => GetValue_loop_in o (S i) path rest' r
          | None => Err (ErrLookup path)
          end
      | None =>
          match as_config_data result with
          | Some cd =>
              match cd !! p with
              | Some r => GetValue_loop_in o (S i) path rest' r
              | None => Err (ErrLookup path)
              end
          | None =>
              match as_iface_map result with
              | Some im =>
                  match imap_find p (o i im) with
                  | Some r => GetValue_loop_in o (S i) path rest' r
                  | None => Err (ErrLookup path)
                  end
              | None => Err (ErrLookup path)
              end
          end
      end
  end.

Definition GetValue_in (o : order) (v : Vagrantfile) (path : list string)
  : go value :=
  match path with
  | [] => Err ErrNoLookupPath
  | p0 :: rest =>
      match getNamespace v p0 with
      | Ok ns =>
          let result := iface_of_map ns in
          if is_nil result then Err (ErrLookup path)
          else GetValue_loop_in o 1 path rest result
      | Err e => Err e
      | Panic p => Panic p
      end
  end.

(** The test of the loop over an interface map: the key is the string or
    the symbol [p]. *)
Definition matches (p : string) (key : value) : bool :=
  match key with
  | VString strKey => bool_decide (strKey = p)
  | VSymbol symKey => bool_decide (symKey = p)
  | _ => false
  end.

(** At most one key of the map passes the test for [p]. *)
Definition one_match (p : string) (im : list (value * value)) : Prop :=
  length (filter (λ kv, matches p kv.1) im) ≤ 1.

(** Every interface map met on the walk of [rest] from [result] has at most
    one key for the segment looked up in it. *)
Fixpoint unambiguous (rest : list string) (result : value) : Prop :=
  match rest with
  | [] => True
  | p :: rest' =>
      match as_string_map result with
      | Some sm => from_option (unambiguous rest') True (sm !! p)
      | None =>
          match as_config_data result with
          | Some cd => from_option (unambiguous rest') True (cd !! p)
          | None =>
              match as_iface_map result with
              | Some im =>
                  one_match p im ∧
                  from_option (unambiguous rest') True (imap_find p im)
              | None => True
              end
          end
      end
  end.

Definition unambiguous_path (v : Vagrantfile) (path : list string) : Prop :=
  match path with
  | [] => True
  | p0 :: rest =>
      match getNamespace v p0 with
      | Ok ns => unambiguous rest (iface_of_map ns)
      | _ => True
      end
  end.

(** A box whose "name" is held twice, under the string and under the
    symbol, and whose "version" is held once. *)
Definition twin_tree : cfg :=
  {[ "vm" := VConfigData
       {[ "box" := VIMap [ (VString "name", VString "plain");
                           (VSymbol "name", VString "symbol");
                           (VSymbol "version", VMap {[ "major" := VString "2" ]}) ]
       ]} ]}.

(** ** Reads *)

Lemma getNamespace_rooted (v : Vagrantfile) (d : cfg) (n : string) :
  root v = Some d → getNamespace v n = Ok (namespace_of d n).
Proof.
  intros Hr. unfold getNamespace, root_Data, namespace_of. rewrite Hr.
  destruct (d !! n) as [[]|]; reflexivity.
Qed.

(** C2, as the code has it: on an instance whose root is nil, [GetConfig],
    [getNamespace] and [GetValue] on a non-empty path dereference the nil
    root and panic; only [GetValue] on the empty path returns an error, and
    that error is the missing-path one.  No accessor has a "not initialized"
    error. *)
Theorem uninitialized_reads_panic (v : Vagrantfile) :
  root v = None →
  (∀ namespace, GetConfig v namespace = Panic NilDereference) ∧
  (∀ n, getNamespace v n = Panic NilDereference) ∧
  (∀ p rest, GetValue v (p :: rest) = Panic NilDereference) ∧
  GetValue v [] = Err ErrNoLookupPath ∧
  TargetNames v = Panic NilDereference ∧
  PrimaryTargetName v = Panic NilDereference.
Proof.
  intros Hr.
  assert (Hns : ∀ n, getNamespace v n = Panic NilDereference).
  { intros n. unfold getNamespace, root_Data. by rewrite Hr. }
  repeat split.
  - intros ns. unfold GetConfig, root_Data. by rewrite Hr.
  - exact Hns.
  - intros p rest. unfold GetValue. by rewrite Hns.
  - unfold TargetNames. by rewrite Hns.
  - unfold PrimaryTargetName, TargetNames. by rewrite Hns.
Qed.

Lemma uninitialized_reads_panic_witness :
  root vf_fresh = None ∧ GetConfig vf_fresh "vm" = Panic NilDereference.
Proof.
  split; [reflexivity|].
  apply (uninitialized_reads_panic vf_fresh). reflexivity.
Defined.

(** C2, as stated, fails: the root of [vf_fresh] is nil, and none of the
    three accessors returns an error value there. *)
Lemma uninitialized_read_returns_no_error :
  root vf_fresh = None ∧
  (∀ e, GetConfig vf_fresh "vm" ≠ Err e) ∧
  (∀ e, getNamespace vf_fresh "vm" ≠ Err e) ∧
  (∀ e, GetValue vf_fresh ["vm"; "box"] ≠ Err e).
Proof. repeat split; intros e; vm_compute; discriminate. Qed.

(** C5, the code at a root without a "vm" namespace: [TargetNames] returns
    the empty list, not the list holding "default". *)
Theorem TargetNames_without_vm :
  TargetNames (vf_rooted ∅) = Ok [] ∧
  TargetNames (vf_rooted ∅) ≠ Ok ["default"].
Proof. split; [reflexivity | discriminate]. Qed.

(** The default name is only reached past the list assertion. *)
Lemma TargetNames_listed (v : Vagrantfile) (d vm : cfg) (l : list value) :
  root v = Some d →
  d !! "vm" = Some (VConfigData vm) →
  vm !! "__defined_vm_keys" = Some (VList l) →
  TargetNames v = Ok (if decide (symbols l = []) then ["default"] else symbols l).
Proof.
  intros Hr Hvm Hl. unfold TargetNames.
  rewrite (getNamespace_rooted _ _ _ Hr). unfold namespace_of.
  rewrite Hvm. simpl. rewrite Hl.
  destruct (symbols l) as [|s ss] eqn:Hs; reflexivity.
Qed.

(** C8: when the root has no usable list of target keys, [TargetNames]
    returns the empty list and the [list[0]] of [PrimaryTargetName] is out of
    range: the call panics instead of returning a name or an error. *)
Theorem PrimaryTargetName_out_of_range (v : Vagrantfile) (d : cfg) :
  root v = Some d →
  no_target_keys d →
  TargetNames v = Ok [] ∧
  PrimaryTargetName v = Panic (IndexOutOfRange 0 0).
Proof.
  intros Hr Hno.
  assert (Ht : TargetNames v = Ok []).
  { unfold TargetNames. rewrite (getNamespace_rooted _ _ _ Hr).
    unfold namespace_of, no_target_keys in *.
    destruct (d !! "vm") as [[]|]; simpl; try reflexivity.
    destruct (d0 !! "__defined_vm_keys") as [[]|]; try reflexivity.
    contradiction. }
  split; [exact Ht|]. unfold PrimaryTargetName. by rewrite Ht.
Qed.

Lemma PrimaryTargetName_out_of_range_witness :
  TargetNames (vf_rooted ∅) = Ok [] ∧
  PrimaryTargetName (vf_rooted ∅) = Panic (IndexOutOfRange 0 0).
Proof.
  apply (PrimaryTargetName_out_of_range (vf_rooted ∅) ∅);
    [reflexivity | vm_compute; exact I].
Defined.

(** ** The three representations of [GetValue] *)

Lemma imap_find_first (p : string) (im : list (value * value)) :
  imap_find p im =
  snd <$> List.find (λ kv, bool_decide (key_text kv.1 = Some p)) im.
Proof.
  induction im as [|[key val] im IH]; [reflexivity|].
  simpl. destruct key; simpl; try exact IH.
  - destruct (decide (s = p)) as [->|Hne].
    + by rewrite bool_decide_eq_true_2.
    + rewrite bool_decide_eq_false_2; [exact IH | congruence].
  - destruct (decide (s = p)) as [->|Hne].
    + by rewrite bool_decide_eq_true_2.
    + rewrite bool_decide_eq_false_2; [exact IH | congruence].
Qed.

Lemma GetValue_loop_walk (path rest : list string) (x : value) :
  GetValue_loop path rest x = spec_walk path rest x.
Proof.
  revert x. induction rest as [|p rest IH]; intros x; [reflexivity|].
  simpl. unfold spec_segment.
  destruct x; simpl; try reflexivity.
  - destruct (m !! p); [apply IH | reflexivity].
  - destruct (d !! p); [apply IH | reflexivity].
  - rewrite <- imap_find_first.
    destruct (imap_find p m); [apply IH | reflexivity].
Qed.

Lemma spec_walk_error (path rest : list string) (x : value) (e : error) :
  spec_walk path rest x = Err e → e = ErrLookup path.
Proof.
  revert x. induction rest as [|p rest IH]; intros x; simpl; [discriminate|].
  destruct (spec_segment x p); [apply IH | congruence].
Qed.

(** C6, as the code has it: on an initialized instance, the segments after
    the first are looked up, one after the other, in (a) a string-keyed
    mapping, (b) a tree wrapper, (c) a heterogeneous mapping whose string and
    symbol keys are compared by their text, the first representation holding
    the segment giving the next value; and a failed lookup returns the error
    made from the whole path alone, whichever segment was missing. *)
Theorem GetValue_representations (v : Vagrantfile) (d : cfg) (p0 : string)
    (rest : list string) :
  root v = Some d →
  GetValue v (p0 :: rest)
  = spec_walk (p0 :: rest) rest (VMap (default ∅ (namespace_of d p0))) ∧
  ∀ e, GetValue v (p0 :: rest) = Err e → e = ErrLookup (p0 :: rest).
Proof.
  intros Hr.
  assert (Heq : GetValue v (p0 :: rest)
    = spec_walk (p0 :: rest) rest (VMap (default ∅ (namespace_of d p0)))).
  { unfold GetValue. rewrite (getNamespace_rooted _ _ _ Hr).
    unfold iface_of_map. simpl. apply GetValue_loop_walk. }
  split; [exact Heq|].
  intros e He. rewrite Heq in He. by apply spec_walk_error in He.
Qed.

Lemma GetValue_representations_witness :
  GetValue (vf_rooted vm_tree) ["vm"; "__defined_vms"; "web"] = Ok (VRaw 1).
Proof.
  rewrite (proj1 (GetValue_representations (vf_rooted vm_tree) vm_tree "vm"
                    ["__defined_vms"; "web"] eq_refl)).
  reflexivity.
Defined.

(** C6, as stated, fails: no reading of the returned error gives the
    offending segment, since the same error comes back when "box" is missing
    and when "name" is missing under the same path. *)
Lemma lookup_error_does_not_name_segment :
  ¬ ∃ names : error → string,
      ∀ (v : Vagrantfile) (path : list string) (seg : string) (e : error),
        offending v path = Some seg →
        GetValue v path = Err e →
        names e = seg.
Proof.
  intros [names H].
  pose (v1 := vf_rooted {[ "vm" := VConfigData ∅ ]}).
  pose (v2 := vf_rooted {[ "vm" := VConfigData {[ "box" := VMap ∅ ]} ]}).
  pose (path := ["vm"; "box"; "name"]).
  assert (H1 : names (ErrLookup path) = "box").
  { apply (H v1 path); reflexivity. }
  assert (H2 : names (ErrLookup path) = "name").
  { apply (H v2 path); reflexivity. }
  rewrite H1 in H2. discriminate.
Qed.


(** ** Init: the fast path *)

Lemma locations_of_last (v : Vagrantfile) (l : LoadLocation) :
  highest_present v l → last (locations_of v) = Some l.
Proof.
  intros [Hl Hmax]. unfold locations_of, all_locations.
  rewrite !filter_cons, filter_nil.
  pose proof (Hmax VAGRANTFILE_PROVIDER) as M4.
  pose proof (Hmax VAGRANTFILE_TARGET) as M3.
  pose proof (Hmax VAGRANTFILE_PROJECT) as M2.
  pose proof (Hmax VAGRANTFILE_BASIS) as M1.
  pose proof (Hmax VAGRANTFILE_BOX) as M0.
  destruct (decide (is_Some (sources v !! VAGRANTFILE_PROVIDER))) as [H4|H4];
  destruct (decide (is_Some (sources v !! VAGRANTFILE_TARGET))) as [H3|H3];
  destruct (decide (is_Some (sources v !! VAGRANTFILE_PROJECT))) as [H2|H2];
  destruct (decide (is_Some (sources v !! VAGRANTFILE_BASIS))) as [H1|H1];
  destruct (decide (is_Some (sources v !! VAGRANTFILE_BOX))) as [H0|H0];
  try specialize (M4 H4); try specialize (M3 H3); try specialize (M2 H2);
  try specialize (M1 H1); try specialize (M0 H0);
  destruct l; simpl in *; first [reflexivity | lia | contradiction].
Qed.

(** C3: when the highest location that has a source is a valid root location
    and its source holds a finalized tree [f], [Init] returns no error, the
    root of the instance is [f] itself, and nothing else happened: no call
    left the process (the trace is the one before the call, so no component
    merged or finalized anything) and the sources are untouched. *)
Theorem Init_fast_path (sv : Services) (self : addr) (v : Vagrantfile)
    (w : world) (final : LoadLocation) (sa : addr) (s : source) (f : cfg) :
  vfiles w !! self = Some v →
  highest_present v final →
  final ∈ ValidRootLocations →
  sources v !! final = Some sa →
  srcs w !! sa = Some s →
  finalized s = Some f →
  ∃ w', Init sv self w = (Ok (), w') ∧
        root_at w' self = Some f ∧
        trace w' = trace w ∧
        srcs w' = srcs w ∧
        vfiles w' = <[self := set_root (Some f) v]> (vfiles w).
Proof.
  intros Hv Hhi Hvalid Hsa Hs Hf.
  eexists. split.
  - unfold Init, bind, get_vf. rewrite Hv.
    rewrite (locations_of_last _ _ Hhi).
    rewrite decide_True by exact Hvalid.
    rewrite Hsa. unfold bind, get_src. rewrite Hs. rewrite Hf.
    unfold modify_vf, bind, get_vf. rewrite Hv. unfold put_vf. reflexivity.
  - simpl. repeat split; try reflexivity.
    unfold root_at. simpl. rewrite lookup_insert_eq. reflexivity.
Qed.

Lemma Init_fast_path_witness :
  ∃ w', Init demo 1 w_memoized = (Ok (), w') ∧
        root_at w' 1
        = Some {[ "vm" := VConfigData {[ "box" := VString "web" ]} ]} ∧
        trace w' = [] ∧
        srcs w' = srcs w_memoized ∧
        vfiles w' = <[1 := set_root
                        (Some {[ "vm" := VConfigData {[ "box" := VString "web" ]} ]})
                        (Vagrantfile_ ∅ (Some 0) demo_regs None
                           {[ VAGRANTFILE_BOX := 5; VAGRANTFILE_PROJECT := 6 ]}
                           (Some 0))]> (vfiles w_memoized).
Proof.
  apply (Init_fast_path demo 1 _ w_memoized VAGRANTFILE_PROJECT 6
           (Source_ (VagrantfileProto (Some 1) (Some 2))
              (Some {[ "vm" := VConfigData {[ "box" := VString "web" ]} ]})
              (Some ∅))).
  - reflexivity.
  - split; [by eexists|].
    intros l' [x Hx]. destruct l'; simpl; try lia; vm_compute in Hx; discriminate.
  - set_solver.
  - reflexivity.
  - reflexivity.
  - reflexivity.
Defined.

(** ** Merge *)

Section Merge.

Variable sv : Services.
Variable v : Vagrantfile.

Lemma componentForKey_cases (k : string) (w : world) :
  ∃ r evs,
    componentForKey sv v k w = (r, World (vfiles w) (srcs w) (trace w ++ evs)) ∧
    Forall is_component_call evs ∧
    match r with
    | Ok c => component_of sv v k = Some c
    | Err _ => component_of sv v k = None
    | Panic _ => False
    end.
Proof.
  unfold componentForKey, component_of.
  destruct (registrations v !! k) as [reg|]; simpl.
  - destruct (reg_plugin reg) as [p|]; simpl.
    + unfold call, bind, emit. simpl.
      destruct (plugin_component sv p) as [e|c].
      * exists (Err e), [EvComponent p]. repeat split; repeat constructor.
      * exists (Ok c), [EvComponent p]. repeat split; repeat constructor.
    + exists (Err (ErrNoPlugin k)), []. rewrite app_nil_r.
      unfold fail. destruct w. repeat split; constructor.
  - exists (Err (ErrNoPlugin k)), []. rewrite app_nil_r.
    unfold fail. destruct w. repeat split; constructor.
Qed.

Variables b t : cfg.

(** What a run of the loop of [merge] that ends well has done. *)
Lemma merge_loop_Ok (ks : list string) :
  NoDup ks →
  ∀ (acc : cfg) (w : world) (r : cfg) (w' : world),
    merge_loop sv v b t ks acc w = (Ok r, w') →
    vfiles w' = vfiles w ∧ srcs w' = srcs w ∧
    (∀ k, r !! k = if decide (k ∈ ks) then merged_value sv v b t k
                   else acc !! k) ∧
    (∀ k, k ∈ ks → is_Some (merged_value sv v b t k)) ∧
    ∃ evs, trace w' = trace w ++ evs ∧
      ∀ k c x y, EvMerge k c x y ∈ evs →
        b !! k = Some (VConfigData x) ∧ t !! k = Some (VConfigData y).
Proof.
  induction ks as [|k ks IH]; intros Hnd acc w r w' Hrun.
  - simpl in Hrun. unfold ret in Hrun. simplify_eq.
    repeat split; try done.
    + intros k Hk. by apply elem_of_nil in Hk.
    + exists []. rewrite app_nil_r. split; [done|].
      intros ???? Hin. by apply elem_of_nil in Hin.
  - apply NoDup_cons in Hnd as [Hk Hnd].
    simpl in Hrun. unfold bind in Hrun at 1.
    destruct (componentForKey_cases k w) as (rc & evc & Hc & Hevc & Hres).
    rewrite Hc in Hrun.
    destruct rc as [c|e|p]; [|discriminate|discriminate].
    assert (Hstep : ∀ val w1 evs1,
      merged_value sv v b t k = Some val →
      vfiles w1 = vfiles w → srcs w1 = srcs w →
      trace w1 = trace w ++ evs1 →
      (∀ k' c' x y, EvMerge k' c' x y ∈ evs1 →
         b !! k' = Some (VConfigData x) ∧ t !! k' = Some (VConfigData y)) →
      merge_loop sv v b t ks (<[k := val]> acc) w1 = (Ok r, w') →
      vfiles w' = vfiles w ∧ srcs w' = srcs w ∧
      (∀ k0, r !! k0 = if decide (k0 ∈ k :: ks)
                       then merged_value sv v b t k0 else acc !! k0) ∧
      (∀ k0, k0 ∈ k :: ks → is_Some (merged_value sv v b t k0)) ∧
      ∃ evs, trace w' = trace w ++ evs ∧
        ∀ k' c' x y, EvMerge k' c' x y ∈ evs →
          b !! k' = Some (VConfigData x) ∧ t !! k' = Some (VConfigData y)).
    { intros val w1 evs1 Hval Hvf Hsr Htr Hev1 Hrest.
      destruct (IH Hnd _ _ _ _ Hrest) as (Hvf' & Hsr' & Hr & Hall & evs & Htr' & Hev).
      split; [congruence|]. split; [congruence|]. split; [|split].
      - intros k0. rewrite Hr.
        destruct (decide (k0 = k)) as [->|Hne].
        + rewrite decide_False by done.
          rewrite decide_True by (apply elem_of_cons; by left).
          by rewrite lookup_insert_eq.
        + rewrite lookup_insert_ne by done.
          destruct (decide (k0 ∈ ks)).
          * rewrite decide_True by (apply elem_of_cons; by right). done.
          * rewrite decide_False; [done|].
            intros [?|?]%elem_of_cons; contradiction.
      - intros k0 [->|Hin]%elem_of_cons; [by rewrite Hval | by apply Hall].
      - exists (evs1 ++ evs). split.
        + rewrite Htr', Htr. by rewrite app_assoc.
        + intros k' c' x y [Hin|Hin]%elem_of_app; [exact (Hev1 _ _ _ _ Hin) | exact (Hev _ _ _ _ Hin)]. }
    assert (Hnomerge : ∀ k' c' x y, EvMerge k' c' x y ∈ evc → False).
    { intros k' c' x y Hin. rewrite Forall_forall in Hevc.
      exact (Hevc _ Hin). }
    destruct (b !! k) as [x|] eqn:Hb; destruct (t !! k) as [y|] eqn:Ht;
      simpl in Hrun.
    + destruct x; try (by unfold fail in Hrun; discriminate).
      destruct y; try (by unfold fail in Hrun; discriminate).
      unfold bind, call, emit in Hrun. simpl in Hrun.
      destruct (config_merge sv c d d0) as [e|m] eqn:Hm;
        [by unfold fail in Hrun; discriminate|].
      unfold ret in Hrun.
      eapply (Hstep (VConfigData m) _ (evc ++ [EvMerge k c d d0]));
        [ | | | | | exact Hrun]; simpl; try done.
      * unfold merged_value. rewrite Hb, Ht, Hres. simpl. by rewrite Hm.
      * by rewrite app_assoc.
      * intros k' c' x y [Hin|Hin]%elem_of_app; [by exfalso; eauto|].
        apply list_elem_of_singleton in Hin. by simplify_eq.
    + eapply (Hstep x _ evc); [ | | | | | exact Hrun]; simpl; try done.
      * unfold merged_value. rewrite Hb, Ht. by destruct x.
      * intros. exfalso; eauto.
    + eapply (Hstep y _ evc); [ | | | | | exact Hrun]; simpl; try done.
      * unfold merged_value. by rewrite Hb, Ht.
      * intros. exfalso; eauto.
    + unfold fail in Hrun. discriminate.
Qed.

(** A run that ends well found a component for every key it visited. *)
Lemma merge_loop_Ok_components (ks : list string) :
  ∀ (acc : cfg) (w : world) (r : cfg) (w' : world),
    merge_loop sv v b t ks acc w = (Ok r, w') →
    ∀ k, k ∈ ks → is_Some (component_of sv v k).
Proof.
  induction ks as [|k ks IH]; intros acc w r w' Hrun k0 Hin.
  - by apply elem_of_nil in Hin.
  - simpl in Hrun. unfold bind in Hrun at 1.
    destruct (componentForKey_cases k w) as (rc & evc & Hc & _ & Hres).
    rewrite Hc in Hrun.
    destruct rc as [c|e|p]; [|discriminate|discriminate].
    apply elem_of_cons in Hin as [->|Hin]; [by eexists|].
    destruct (b !! k) as [x|]; destruct (t !! k) as [y|]; simpl in Hrun.
    + destruct x; try (by unfold fail in Hrun; discriminate).
      destruct y; try (by unfold fail in Hrun; discriminate).
      unfold bind, call, emit in Hrun. simpl in Hrun.
      destruct (config_merge sv c d d0);
        [by unfold fail in Hrun; discriminate|].
      unfold ret in Hrun. exact (IH _ _ _ _ Hrun _ Hin).
    + exact (IH _ _ _ _ Hrun _ Hin).
    + exact (IH _ _ _ _ Hrun _ Hin).
    + unfold fail in Hrun. discriminate.
Qed.

(** The loop ends well when every namespace has a component and a merged
    value. *)
Lemma merge_loop_total (ks : list string) :
  (∀ k, k ∈ ks → is_Some (component_of sv v k) ∧
                 is_Some (merged_value sv v b t k)) →
  ∀ (acc : cfg) (w : world),
    ∃ r w', merge_loop sv v b t ks acc w = (Ok r, w').
Proof.
  induction ks as [|k ks IH]; intros Hall acc w.
  - simpl. unfold ret. eauto.
  - destruct (Hall k) as [[c Hc] [val Hval]]; [by left|].
    assert (Hrest : ∀ k', k' ∈ ks → is_Some (component_of sv v k') ∧
                                    is_Some (merged_value sv v b t k')).
    { intros k' Hin. apply Hall. by right. }
    simpl. unfold bind at 1.
    destruct (componentForKey_cases k w) as (rc & evc & Hrun & _ & Hres).
    rewrite Hrun. destruct rc as [c'|e|p]; [|congruence|done].
    assert (c' = c) as -> by congruence.
    unfold merged_value in Hval. rewrite Hc in Hval. simpl in Hval.
    destruct (b !! k) as [x|]; destruct (t !! k) as [y|]; simpl.
    + destruct x; try discriminate. destruct y; try discriminate.
      unfold bind, call, emit. simpl.
      destruct (config_merge sv c d d0); [discriminate|].
      unfold ret. apply IH, Hrest.
    + apply IH, Hrest.
    + apply IH, Hrest.
    + discriminate.
Qed.

(** With a mistyped pair among the keys, and nothing else in the way, the
    loop ends on the type error. *)
Lemma merge_loop_mistyped (ks : list string) :
  (∀ k, k ∈ ks → is_Some (component_of sv v k)) →
  (∀ k c vb vt, b !! k = Some (VConfigData vb) → t !! k = Some (VConfigData vt) →
                component_of sv v k = Some c →
                ∃ m, config_merge sv c vb vt = inr m) →
  (∃ k, k ∈ ks ∧ mistyped_pair b t k) →
  ∀ (acc : cfg) (w : world),
    ∃ ty w', merge_loop sv v b t ks acc w = (Err (ErrBadMergeType ty), w').
Proof.
  intros Hcomp Hmerge.
  induction ks as [|k ks IH]; intros (kb & Hin & Hbad) acc w.
  - by apply elem_of_nil in Hin.
  - destruct (Hcomp k) as [c Hc]; [by left|].
    simpl. unfold bind at 1.
    destruct (componentForKey_cases k w) as (rc & evc & Hrun & _ & Hres).
    rewrite Hrun. destruct rc as [c'|e|p]; [|congruence|done].
    assert (c' = c) as -> by congruence.
    assert (Hnext : kb ≠ k → ∀ acc' w1,
      ∃ ty w', merge_loop sv v b t ks acc' w1 = (Err (ErrBadMergeType ty), w')).
    { intros Hne acc' w1. apply IH.
      - intros k' Hk'. apply Hcomp. by right.
      - exists kb. split; [|done].
        apply elem_of_cons in Hin as [?|?]; [contradiction|done]. }
    destruct Hbad as (xb & yb & Hxb & Hyb & Hty).
    destruct (b !! k) as [x|] eqn:Hb; destruct (t !! k) as [y|] eqn:Ht; simpl.
    + destruct x; try (unfold fail; by eauto).
      destruct y; try (unfold fail; by eauto).
      destruct (Hmerge k c d d0 Hb Ht Hc) as [m Hm].
      unfold bind, call, emit. simpl. rewrite Hm. unfold ret.
      apply Hnext. intros ->. rewrite Hb in Hxb. rewrite Ht in Hyb.
      simplify_eq. destruct Hty; discriminate.
    + apply Hnext. intros ->. congruence.
    + apply Hnext. intros ->. congruence.
    + unfold fail. eauto.
Qed.

End Merge.

Lemma range_keys_elem (sv : Services) (X : gset string) (k : string) :
  k ∈ range_keys sv X ↔ k ∈ X.
Proof. rewrite (range_keys_perm sv X). apply elem_of_elements. Qed.

Lemma range_keys_NoDup (sv : Services) (X : gset string) :
  NoDup (range_keys sv X).
Proof. rewrite (range_keys_perm sv X). apply NoDup_elements. Qed.

(** C4, as the code has it.  Whenever [merge] returns a tree, its namespaces
    are those of the two sides together; a namespace defined on one side only
    holds that side's value unchanged and no component merged anything for
    it; a namespace defined on both sides holds what its component's merge
    made of the two trees.
    [merge] does return a tree when every namespace of either side has a
    component and every namespace defined on both sides holds trees that its
    component merges.  A namespace defined on both sides, one of them not
    with a tree, makes [merge] fail, and with the type error when the
    components are there and the other merges go through.  A namespace
    without a component makes [merge] fail, also when one side only defines
    it. *)
Theorem merge_union_passthrough (sv : Services) (v : Vagrantfile)
    (b t : cfg) (w : world) :
  (∀ r w', merge sv v (Some b) (Some t) w = (Ok r, w') →
     dom r = dom b ∪ dom t ∧
     (∀ k x, b !! k = Some x → t !! k = None → r !! k = Some x) ∧
     (∀ k y, b !! k = None → t !! k = Some y → r !! k = Some y) ∧
     (∀ k x y, b !! k = Some x → t !! k = Some y →
        ∃ c vb vt m,
          component_of sv v k = Some c ∧
          x = VConfigData vb ∧ y = VConfigData vt ∧
          config_merge sv c vb vt = inr m ∧
          r !! k = Some (VConfigData m)) ∧
     ∃ evs, appended w w' evs ∧
       ∀ k, b !! k = None ∨ t !! k = None →
            Forall (λ ev, ¬ is_merge_of k ev) evs) ∧
  ((∀ k, k ∈ dom b ∪ dom t → is_Some (component_of sv v k) ∧
                             is_Some (merged_value sv v b t k)) →
   ∃ r w', merge sv v (Some b) (Some t) w = (Ok r, w')) ∧
  (∀ k, mistyped_pair b t k →
     (∀ r w', merge sv v (Some b) (Some t) w ≠ (Ok r, w')) ∧
     ((∀ k, k ∈ dom b ∪ dom t → is_Some (component_of sv v k)) →
      (∀ k c vb vt, b !! k = Some (VConfigData vb) →
                    t !! k = Some (VConfigData vt) →
                    component_of sv v k = Some c →
                    ∃ m, config_merge sv c vb vt = inr m) →
      ∃ ty w', merge sv v (Some b) (Some t) w
               = (Err (ErrBadMergeType ty), w'))) ∧
  (∀ k, k ∈ dom b ∪ dom t → component_of sv v k = None →
        ∀ r w', merge sv v (Some b) (Some t) w ≠ (Ok r, w')).
Proof.
  unfold merge.
  assert (HOk : ∀ r w',
    merge_loop sv v b t (range_keys sv (dom b ∪ dom t)) ∅ w = (Ok r, w') →
    (∀ k, r !! k = if decide (k ∈ dom b ∪ dom t)
                   then merged_value sv v b t k else None) ∧
    ∃ evs, trace w' = trace w ++ evs ∧
      ∀ k c x y, EvMerge k c x y ∈ evs →
        b !! k = Some (VConfigData x) ∧ t !! k = Some (VConfigData y)).
  { intros r w' Hrun.
    destruct (merge_loop_Ok sv v b t _ (range_keys_NoDup sv _) _ _ _ _ Hrun)
      as (_ & _ & Hr & _ & Hev).
    split; [|exact Hev].
    intros k. rewrite Hr. rewrite lookup_empty.
    destruct (decide (k ∈ range_keys sv (dom b ∪ dom t))) as [Hin|Hin];
      rewrite range_keys_elem in Hin.
    - by rewrite decide_True.
    - by rewrite decide_False. }
  split; [|split; [|split]].
  - intros r w' Hrun. destruct (HOk r w' Hrun) as (Hr & evs & Htr & Hev).
    destruct (merge_loop_Ok sv v b t _ (range_keys_NoDup sv _) _ _ _ _ Hrun)
      as (_ & _ & _ & Hall & _).
    assert (Hin : ∀ k x, b !! k = Some x ∨ t !! k = Some x → k ∈ dom b ∪ dom t).
    { intros k x [H|H]; apply elem_of_union; [left|right];
        apply elem_of_dom; eauto. }
    split; [|split; [|split; [|split]]].
    + apply set_eq. intros k. rewrite elem_of_dom, Hr.
      destruct (decide (k ∈ dom b ∪ dom t)) as [Hk|Hk].
      * split; [done|]. intros _. apply Hall. by apply range_keys_elem.
      * split; [by intros [? ?] | done].
    + intros k x Hb Ht. rewrite Hr, decide_True by eauto.
      unfold merged_value. rewrite Hb, Ht. by destruct x.
    + intros k y Hb Ht. rewrite Hr, decide_True by eauto.
      unfold merged_value. by rewrite Hb, Ht.
    + intros k x y Hb Ht.
      destruct (Hall k) as [val Hval]; [apply range_keys_elem; eauto|].
      rewrite Hr, decide_True by eauto. rewrite Hval.
      unfold merged_value in Hval. rewrite Hb, Ht in Hval.
      destruct x; try discriminate. destruct y; try discriminate.
      destruct (component_of sv v k) as [c|]; [|discriminate]. simpl in Hval.
      destruct (config_merge sv c d d0) as [e|m] eqn:Hm; [discriminate|].
      exists c, d, d0, m. by simplify_eq.
    + exists evs. split; [exact Htr|].
      intros k Hone. apply Forall_forall. intros ev Hin' Hm.
      destruct ev; simpl in Hm; try contradiction. subst.
      destruct (Hev _ _ _ _ Hin') as [Hb Ht].
      destruct Hone; congruence.
  - intros Hval. apply merge_loop_total.
    intros k Hk%range_keys_elem. by apply Hval.
  - intros k Hbad. split.
    + intros r w' Hrun.
      destruct (merge_loop_Ok sv v b t _ (range_keys_NoDup sv _) _ _ _ _ Hrun)
        as (_ & _ & _ & Hall & _).
      destruct Hbad as (x & y & Hb & Ht & Hty).
      destruct (Hall k) as [val Hval].
      { apply range_keys_elem, elem_of_union. left. apply elem_of_dom. eauto. }
      unfold merged_value in Hval. rewrite Hb, Ht in Hval.
      destruct x; try discriminate. destruct y; try discriminate.
      destruct Hty; discriminate.
    + intros Hcomp Hmerge. apply merge_loop_mistyped; [|exact Hmerge|].
      * intros k' Hk'%range_keys_elem. by apply Hcomp.
      * exists k. split; [|exact Hbad].
        destruct Hbad as (x & y & Hb & _).
        apply range_keys_elem, elem_of_union. left. apply elem_of_dom. eauto.
  - intros k Hk Hnone r w' Hrun.
    destruct (merge_loop_Ok_components sv v b t _ _ _ _ _ Hrun k) as [c Hc].
    + by apply range_keys_elem.
    + congruence.
Qed.

(** ** Frames: what a computation leaves alone *)

Section Frames.

Context {A B : Type}.

Lemma keeps_vfiles_ret (a : A) : keeps_vfiles (ret a).
Proof. intros w r w' H. unfold ret in H. by simplify_eq. Qed.

Lemma keeps_vfiles_fail (e : error) : keeps_vfiles (@fail A e).
Proof. intros w r w' H. unfold fail in H. by simplify_eq. Qed.

Lemma keeps_vfiles_crash (p : panic) : keeps_vfiles (@crash A p).
Proof. intros w r w' H. unfold crash in H. by simplify_eq. Qed.

Lemma keeps_vfiles_lift (x : go A) : keeps_vfiles (lift x).
Proof. intros w r w' H. unfold lift in H. by simplify_eq. Qed.

Lemma keeps_vfiles_bind (m : M A) (k : A → M B) :
  keeps_vfiles m → (∀ a, keeps_vfiles (k a)) → keeps_vfiles (bind m k).
Proof.
  intros Hm Hk w r w' H. unfold bind in H.
  destruct (m w) as [[a|e|p] w1] eqn:Hmw.
  - rewrite (Hk a _ _ _ H). exact (Hm _ _ _ Hmw).
  - simplify_eq. exact (Hm _ _ _ Hmw).
  - simplify_eq. exact (Hm _ _ _ Hmw).
Qed.

Lemma keeps_vfiles_catch (m : M A) : keeps_vfiles m → keeps_vfiles (catch m).
Proof.
  intros Hm w r w' H. unfold catch in H.
  destruct (m w) as [[a|e|p] w1] eqn:Hmw; simplify_eq; exact (Hm _ _ _ Hmw).
Qed.

Lemma keeps_vfiles_wrap (msg : string) (m : M A) :
  keeps_vfiles m → keeps_vfiles (wrap msg m).
Proof.
  intros Hm w r w' H. unfold wrap in H.
  destruct (m w) as [[a|e|p] w1] eqn:Hmw; simplify_eq; exact (Hm _ _ _ Hmw).
Qed.

Lemma keeps_cache_of_vfiles (m : M A) : keeps_vfiles m → keeps_cache m.
Proof.
  intros Hm w r w' H a cid. unfold cache_at. by rewrite (Hm _ _ _ H).
Qed.

Lemma keeps_cache_bind (m : M A) (k : A → M B) :
  keeps_cache m → (∀ a, keeps_cache (k a)) → keeps_cache (bind m k).
Proof.
  intros Hm Hk w r w' H a cid. unfold bind in H.
  destruct (m w) as [[x|e|p] w1] eqn:Hmw.
  - rewrite (Hk x _ _ _ H). exact (Hm _ _ _ Hmw a cid).
  - simplify_eq. exact (Hm _ _ _ Hmw a cid).
  - simplify_eq. exact (Hm _ _ _ Hmw a cid).
Qed.

Lemma keeps_cache_wrap (msg : string) (m : M A) :
  keeps_cache m → keeps_cache (wrap msg m).
Proof.
  intros Hm w r w' H. unfold wrap in H.
  destruct (m w) as [[a|e|p] w1] eqn:Hmw; simplify_eq; exact (Hm _ _ _ Hmw).
Qed.

End Frames.

Lemma keeps_vfiles_emit (ev : event) : keeps_vfiles (emit ev).
Proof. intros w r w' H. unfold emit in H. by simplify_eq. Qed.

Lemma keeps_vfiles_call {A} (ev : event) (x : error + A) :
  keeps_vfiles (call ev x).
Proof.
  unfold call. apply keeps_vfiles_bind; [apply keeps_vfiles_emit|].
  intros _. destruct x; [apply keeps_vfiles_fail | apply keeps_vfiles_ret].
Qed.

Lemma keeps_vfiles_get_vf (a : addr) : keeps_vfiles (get_vf a).
Proof.
  intros w r w' H. unfold get_vf in H.
  destruct (vfiles w !! a); by simplify_eq.
Qed.

Lemma keeps_vfiles_get_src (a : addr) : keeps_vfiles (get_src a).
Proof.
  intros w r w' H. unfold get_src in H.
  destruct (srcs w !! a); by simplify_eq.
Qed.

Lemma keeps_vfiles_put_src (a : addr) (s : source) : keeps_vfiles (put_src a s).
Proof. intros w r w' H. unfold put_src in H. by simplify_eq. Qed.

Lemma keeps_vfiles_alloc_src (s : source) : keeps_vfiles (alloc_src s).
Proof. intros w r w' H. unfold alloc_src in H. by simplify_eq. Qed.

Lemma keeps_vfiles_modify_src (a : addr) (f : source → source) :
  keeps_vfiles (modify_src a f).
Proof.
  unfold modify_src. apply keeps_vfiles_bind; [apply keeps_vfiles_get_src|].
  intros s. apply keeps_vfiles_put_src.
Qed.

Create HintDb frame.

#[local] Hint Resolve keeps_vfiles_ret keeps_vfiles_fail keeps_vfiles_crash
  keeps_vfiles_lift keeps_vfiles_emit keeps_vfiles_call keeps_vfiles_get_vf
  keeps_vfiles_get_src keeps_vfiles_put_src keeps_vfiles_alloc_src
  keeps_vfiles_modify_src keeps_vfiles_catch keeps_vfiles_wrap : frame.

Lemma keeps_vfiles_componentForKey (sv : Services) (v : Vagrantfile)
    (k : string) : keeps_vfiles (componentForKey sv v k).
Proof.
  unfold componentForKey.
  destruct (registrations v !! k) as [reg|]; [|auto with frame].
  destruct (reg_plugin reg); auto with frame.
Qed.

#[local] Hint Resolve keeps_vfiles_componentForKey : frame.

Lemma keeps_vfiles_merge_loop (sv : Services) (v : Vagrantfile) (b t : cfg)
    (ks : list string) (acc : cfg) : keeps_vfiles (merge_loop sv v b t ks acc).
Proof.
  revert acc. induction ks as [|k ks IH]; intros acc; simpl; [auto with frame|].
  apply keeps_vfiles_bind; [auto with frame|]. intros c.
  destruct (b !! k) as [x|]; destruct (t !! k) as [y|]; simpl;
    auto with frame.
  destruct x; auto with frame. destruct y; auto with frame.
  apply keeps_vfiles_bind; auto with frame.
Qed.

Lemma keeps_vfiles_merge (sv : Services) (v : Vagrantfile)
    (b t : option cfg) : keeps_vfiles (merge sv v b t).
Proof.
  unfold merge. destruct b; [|auto with frame]. destruct t; [|auto with frame].
  apply keeps_vfiles_merge_loop.
Qed.

Lemma keeps_vfiles_finalize_loop (sv : Services) (v : Vagrantfile)
    (conf : cfg) (ks : list string) (acc : cfg) :
  keeps_vfiles (finalize_loop sv v conf ks acc).
Proof.
  revert acc. induction ks as [|k ks IH]; intros acc; simpl; [auto with frame|].
  apply keeps_vfiles_bind; [auto with frame|]. intros [e|c]; [auto with frame|].
  destruct (default VNil (conf !! k)); auto with frame.
  apply keeps_vfiles_bind; [auto with frame|].
  intros [e|r]; auto with frame.
Qed.

Lemma keeps_vfiles_finalize (sv : Services) (v : Vagrantfile)
    (conf : option cfg) : keeps_vfiles (finalize sv v conf).
Proof.
  unfold finalize. destruct conf; [|auto with frame].
  apply keeps_vfiles_finalize_loop.
Qed.

#[local] Hint Resolve keeps_vfiles_merge keeps_vfiles_finalize : frame.

Lemma keeps_vfiles_generate_loop (sv : Services) (v : Vagrantfile)
    (locs : list LoadLocation) (c : option cfg) :
  keeps_vfiles (generate_loop sv v locs c).
Proof.
  revert c. induction locs as [|i locs IH]; intros c; simpl; [auto with frame|].
  destruct (sources v !! i) as [sa|]; [|apply IH].
  destruct c.
  - apply keeps_vfiles_bind; [auto with frame|]. intros s.
    apply keeps_vfiles_bind; [auto with frame|]. intros r. apply IH.
  - apply keeps_vfiles_bind; [auto with frame|]. intros s. apply IH.
Qed.

Lemma keeps_vfiles_generate (sv : Services) (v : Vagrantfile)
    (locs : list LoadLocation) : keeps_vfiles (generate sv v locs).
Proof.
  unfold generate. destruct locs as [|l0 locs]; [auto with frame|].
  apply keeps_vfiles_bind.
  - unfold source_at. destruct (sources v !! l0); auto with frame.
  - intros s. apply keeps_vfiles_generate_loop.
Qed.

Lemma keeps_vfiles_setFinalized (sv : Services) (s : addr) (f : option cfg) :
  keeps_vfiles (setFinalized sv s f).
Proof.
  unfold setFinalized. apply keeps_vfiles_bind; [auto with frame|]. intros _.
  destruct f; [|auto with frame].
  apply keeps_vfiles_bind; auto with frame.
Qed.

Lemma keeps_vfiles_newSource (sv : Services) (f : vagrantfile_proto) :
  keeps_vfiles (newSource sv f).
Proof.
  unfold newSource, generateConfig.
  apply keeps_vfiles_bind; [auto with frame|]. intros u.
  destruct (Finalized f); [|auto with frame].
  apply keeps_vfiles_bind; auto with frame.
Qed.

#[local] Hint Resolve keeps_vfiles_generate keeps_vfiles_setFinalized
  keeps_vfiles_newSource : frame.

(** ** Running the primitives *)

Lemma modify_vf_run (a : addr) (f : Vagrantfile → Vagrantfile) (w : world)
    (v : Vagrantfile) :
  vfiles w !! a = Some v →
  modify_vf a f w = (Ok (), World (<[a := f v]> (vfiles w)) (srcs w) (trace w)).
Proof. intros H. unfold modify_vf, bind, get_vf. by rewrite H. Qed.

Lemma modify_vf_miss (a : addr) (f : Vagrantfile → Vagrantfile) (w : world) :
  vfiles w !! a = None → modify_vf a f w = (Panic NilDereference, w).
Proof. intros H. unfold modify_vf, bind, get_vf. by rewrite H. Qed.

Lemma modify_src_run (a : addr) (f : source → source) (w : world) (s : source) :
  srcs w !! a = Some s →
  modify_src a f w = (Ok (), World (vfiles w) (<[a := f s]> (srcs w)) (trace w)).
Proof. intros H. unfold modify_src, bind, get_src. by rewrite H. Qed.

Lemma modify_src_miss (a : addr) (f : source → source) (w : world) :
  srcs w !! a = None → modify_src a f w = (Panic NilDereference, w).
Proof. intros H. unfold modify_src, bind, get_src. by rewrite H. Qed.

Lemma call_run {A} (ev : event) (x : error + A) (w : world) :
  call ev x w
  = (match x with inl e => Err e | inr a => Ok a end,
     World (vfiles w) (srcs w) (trace w ++ [ev])).
Proof. unfold call, bind, emit. by destruct x. Qed.

(** ** Init: failures *)

Lemma finalize_loop_no_error (sv : Services) (v : Vagrantfile) (conf : cfg)
    (ks : list string) (acc : cfg) (w : world) (e : error) (w' : world) :
  finalize_loop sv v conf ks acc w ≠ (Err e, w').
Proof.
  revert acc w. induction ks as [|k ks IH]; intros acc w; simpl.
  - unfold ret. congruence.
  - unfold bind at 1, catch at 1.
    destruct (componentForKey sv v k w) as [[c|e'|p] w1];
      [|unfold ret; congruence|congruence].
    destruct (default VNil (conf !! k)); try (unfold ret; congruence).
    unfold bind at 1, catch at 1.
    destruct (call _ _ w1) as [[r|e'|p] w2];
      [apply IH|unfold ret; congruence|congruence].
Qed.

Lemma finalize_no_error (sv : Services) (v : Vagrantfile) (conf : option cfg)
    (w : world) (e : error) (w' : world) :
  finalize sv v conf w ≠ (Err e, w').
Proof.
  unfold finalize. destruct conf; [apply finalize_loop_no_error|].
  unfold crash. congruence.
Qed.

(** What a failed run of the part of [Init] after the fast path has done. *)
Lemma Init_generate_Err (sv : Services) (self : addr) (v : Vagrantfile)
    (locs : list LoadLocation) (s : option addr) (w : world) (e : error)
    (w' : world) :
  vfiles w !! self = Some v →
  Init_generate sv self v locs s w = (Err e, w') →
  (generate sv v locs w = (Err e, w') ∧ root_at w' self = root v) ∨
  (∃ c w1 r w2,
      generate sv v locs w = (Ok c, w1) ∧
      finalize sv v c w1 = (Ok (r, Some e), w2) ∧
      root_at w' self = r) ∨
  (∃ c w1 d w2 sa s0,
      generate sv v locs w = (Ok c, w1) ∧
      finalize sv v c w1 = (Ok (Some d, None), w2) ∧
      s = Some sa ∧
      map_encode sv d = inl e ∧
      root_at w' self = Some d ∧
      srcs w' !! sa = Some (set_finalized (Some d) s0)).
Proof.
  intros Hv Hrun. unfold Init_generate in Hrun. unfold bind in Hrun at 1.
  destruct (generate sv v locs w) as [[c|e'|p] w1] eqn:Hgen;
    [|simplify_eq|discriminate].
  2:{ left. split; [done|]. unfold root_at.
      rewrite (keeps_vfiles_generate _ _ _ _ _ _ Hgen), Hv. done. }
  right. unfold bind in Hrun at 1.
  destruct (finalize sv v c w1) as [[[r oe]|e'|p] w2] eqn:Hfin;
    [| by apply finalize_no_error in Hfin | discriminate].
  assert (Hv2 : vfiles w2 !! self = Some v).
  { rewrite (keeps_vfiles_finalize _ _ _ _ _ _ Hfin).
    by rewrite (keeps_vfiles_generate _ _ _ _ _ _ Hgen). }
  unfold bind in Hrun at 1. rewrite (modify_vf_run _ _ _ _ Hv2) in Hrun.
  destruct oe as [err|]; simpl in Hrun.
  - left. unfold fail in Hrun. simplify_eq.
    exists c, w1, r, w2. repeat split; try done.
    unfold root_at. simpl. by rewrite lookup_insert_eq.
  - right. destruct s as [sa|]; [|unfold ret in Hrun; discriminate].
    unfold setFinalized in Hrun. unfold bind in Hrun at 1.
    destruct (srcs w2 !! sa) as [s0|] eqn:Hs0.
    2:{ rewrite modify_src_miss in Hrun by done. discriminate. }
    rewrite (modify_src_run _ _ _ s0) in Hrun by done.
    destruct r as [d|]; [|unfold crash in Hrun; discriminate].
    unfold bind in Hrun. rewrite call_run in Hrun.
    destruct (map_encode sv d) as [e'|raw] eqn:Henc.
    + simplify_eq. exists c, w1, d, w2, sa, s0. repeat split; try done.
      * unfold root_at. simpl. by rewrite lookup_insert_eq.
      * simpl. by rewrite lookup_insert_eq.
    + erewrite modify_src_run in Hrun; [discriminate|].
      simpl. by rewrite lookup_insert_eq.
Qed.

(** The bare [return] of [finalize]: with no component for "web", the error
    comes back next to the result built so far, which is not nil. *)
Remark finalize_returns_result_with_error :
  (finalize demo vf_fresh (Some web_only) w_empty).1
  = Ok (Some ∅, Some (ErrNoPlugin "web")).
Proof. vm_compute. reflexivity. Qed.

(** ** The cache of target configurations *)

Lemma bind_Ok_inv {A B} (m : M A) (k : A → M B) (w : world) (b : B)
    (w' : world) :
  bind m k w = (Ok b, w') →
  ∃ a w1, m w = (Ok a, w1) ∧ k a w1 = (Ok b, w').
Proof.
  unfold bind. destruct (m w) as [[a|e|p] w1]; intros H; try discriminate.
  by exists a, w1.
Qed.

Lemma modify_vf_Ok_inv (a : addr) (f : Vagrantfile → Vagrantfile) (w : world)
    (u : unit) (w' : world) :
  modify_vf a f w = (Ok u, w') →
  ∃ v, vfiles w !! a = Some v ∧
       w' = World (<[a := f v]> (vfiles w)) (srcs w) (trace w).
Proof.
  destruct (vfiles w !! a) as [v|] eqn:Hv; intros H.
  - rewrite (modify_vf_run _ _ _ _ Hv) in H. exists v. split; congruence.
  - rewrite (modify_vf_miss _ _ _ Hv) in H. discriminate.
Qed.

(** A cached key is answered from the cache, and nothing else happens. *)
Lemma TargetConfig_cached (sv : Services) (self : addr)
    (name provider : string) (vp : bool) (w : world) (a : addr) :
  cache_at w self (cache_key name provider) = Some a →
  TargetConfig sv self name provider vp w = (Ok a, w).
Proof.
  unfold cache_at, TargetConfig, bind, get_vf.
  destruct (vfiles w !! self) as [v|]; simpl; [|discriminate].
  intros ->. reflexivity.
Qed.

(** A call that returns an instance leaves it in the cache under its key. *)
Lemma TargetConfig_registers (sv : Services) (self : addr)
    (name provider : string) (vp : bool) (w : world) (a : addr) (w' : world) :
  TargetConfig sv self name provider vp w = (Ok a, w') →
  cache_at w' self (cache_key name provider) = Some a.
Proof.
  intros H. unfold TargetConfig in H.
  apply bind_Ok_inv in H as (v & w0 & Hv & H).
  unfold get_vf in Hv. destruct (vfiles w !! self) eqn:Hself; [|discriminate].
  simplify_eq.
  destruct (cache v !! cache_key name provider) as [cv|] eqn:Hc.
  { unfold ret in H. simplify_eq. unfold cache_at. by rewrite Hself. }
  apply bind_Ok_inv in H as (subvm & w1 & _ & H).
  destruct (is_nil subvm); [unfold fail in H; discriminate|].
  apply bind_Ok_inv in H as (raw & w2 & _ & H).
  apply bind_Ok_inv in H as (resp & w3 & _ & H).
  apply bind_Ok_inv in H as (newV & w4 & _ & H).
  apply bind_Ok_inv in H as (? & w5 & _ & H).
  apply bind_Ok_inv in H as (? & w6 & _ & H).
  apply bind_Ok_inv in H as (? & w7 & _ & H).
  apply bind_Ok_inv in H as (? & w8 & Hmod & H).
  unfold ret in H. simplify_eq.
  apply modify_vf_Ok_inv in Hmod as (v7 & Hv7 & ->).
  unfold cache_at. simpl. rewrite lookup_insert_eq. simpl.
  by rewrite lookup_insert_eq.
Qed.

(** *** No operation drops a cache entry *)

Lemma cache_same_refl (w : world) : cache_same w w.
Proof. by intros a cid. Qed.



Lemma keeps_cache_modify_vf (a : addr) (f : Vagrantfile → Vagrantfile) :
  (∀ v, cache (f v) = cache v) → keeps_cache (modify_vf a f).
Proof.
  intros Hf w r w' H b cid.
  destruct (vfiles w !! a) as [v|] eqn:Hv.
  - rewrite (modify_vf_run _ _ _ _ Hv) in H. simplify_eq.
    unfold cache_at. simpl.
    destruct (decide (b = a)) as [->|Hne].
    + rewrite lookup_insert_eq, Hv. simpl. by rewrite Hf.
    + by rewrite lookup_insert_ne.
  - rewrite (modify_vf_miss _ _ _ Hv) in H. by simplify_eq.
Qed.

Lemma keeps_cache_alloc_vf (v : Vagrantfile) :
  cache v = ∅ → keeps_cache (alloc_vf v).
Proof.
  intros Hv w r w' H b cid. unfold alloc_vf in H. simplify_eq.
  unfold cache_at. simpl.
  destruct (decide (b = fresh (dom (vfiles w)))) as [->|Hne].
  - rewrite lookup_insert_eq. simpl. rewrite Hv, lookup_empty.
    rewrite (proj1 (not_elem_of_dom (vfiles w) _) (is_fresh _)). done.
  - by rewrite lookup_insert_ne.
Qed.

#[local] Hint Resolve keeps_cache_of_vfiles keeps_cache_wrap : frame.

Lemma keeps_cache_Source (sv : Services) (self : addr)
    (vf : option vagrantfile_proto) (l : LoadLocation) :
  keeps_cache (Source sv self vf l).
Proof.
  unfold Source. apply keeps_cache_bind; [auto with frame|]. intros _.
  destruct vf; [|auto with frame].
  apply keeps_cache_bind; [auto with frame|]. intros s.
  apply keeps_cache_bind; [auto with frame|]. intros sa.
  by apply keeps_cache_modify_vf.
Qed.

Lemma keeps_cache_Init_generate (sv : Services) (self : addr)
    (v : Vagrantfile) (locs : list LoadLocation) (s : option addr) :
  keeps_cache (Init_generate sv self v locs s).
Proof.
  unfold Init_generate. apply keeps_cache_bind; [auto with frame|]. intros c.
  apply keeps_cache_bind; [auto with frame|]. intros r.
  apply keeps_cache_bind; [by apply keeps_cache_modify_vf|]. intros _.
  destruct r.2; [auto with frame|]. destruct s; auto with frame.
Qed.

Lemma keeps_cache_Init (sv : Services) (self : addr) :
  keeps_cache (Init sv self).
Proof.
  unfold Init. apply keeps_cache_bind; [auto with frame|]. intros v.
  destruct (last (locations_of v)) as [final|];
    [|apply keeps_cache_Init_generate].
  destruct (decide _); [|apply keeps_cache_Init_generate].
  destruct (sources v !! final); [|auto with frame].
  apply keeps_cache_bind; [auto with frame|]. intros s.
  destruct (finalized s); [by apply keeps_cache_modify_vf|].
  apply keeps_cache_Init_generate.
Qed.

Lemma keeps_cache_clone (self : addr) (name : string)
    (o : option originScope) : keeps_cache (clone self name o).
Proof.
  unfold clone. apply keeps_cache_bind; [auto with frame|]. intros v.
  apply keeps_cache_bind; [by apply keeps_cache_alloc_vf|]. intros newV.
  apply keeps_cache_bind.
  - destruct o.
    + apply keeps_cache_bind; [auto with frame|]. intros _.
      by apply keeps_cache_modify_vf.
    + by apply keeps_cache_modify_vf.
  - intros _. destruct o; [|auto with frame].
    apply keeps_cache_bind; auto with frame.
Qed.







(** C10: the cache key [name + "+" + provider] does not tell the pairs
    ("a+b", "c") and ("a", "b+c") apart; and whenever two pairs have the same
    key, a call for the second pair after a call for the first one returned
    an instance returns that same instance, with nothing derived. *)
Theorem cache_key_collision :
  ("a+b", "c") ≠ ("a", "b+c") ∧
  cache_key "a+b" "c" = cache_key "a" "b+c" ∧
  ∀ (sv : Services) (self : addr) (n1 p1 n2 p2 : string) (vp vp' : bool)
    (w : world) (a : addr) (w1 : world),
    cache_key n1 p1 = cache_key n2 p2 →
    TargetConfig sv self n1 p1 vp w = (Ok a, w1) →
    TargetConfig sv self n2 p2 vp' w1 = (Ok a, w1).
Proof.
  split; [discriminate|]. split; [reflexivity|].
  intros sv self n1 p1 n2 p2 vp vp' w a w1 Hkey H.
  apply TargetConfig_registers in H. rewrite Hkey in H.
  by apply TargetConfig_cached.
Qed.

Lemma cache_key_collision_witness :
  TargetConfig demo 1 "a" "b+c" false
    (TargetConfig demo 1 "a+b" "c" false w_plus).2
  = (Ok 2, (TargetConfig demo 1 "a+b" "c" false w_plus).2).
Proof.
  apply (proj2 (proj2 cache_key_collision) demo 1 "a+b" "c" "a" "b+c"
           false false w_plus 2).
  - reflexivity.
  - apply injective_projections; [vm_compute; reflexivity | reflexivity].
Defined.

(** ** Clone *)

Lemma clone_None (self : addr) (name : string) (w : world) :
  (clone self name None w).1 = Panic NilDereference.
Proof.
  unfold clone, bind, get_vf, alloc_vf, crash.
  destruct (vfiles w !! self) as [v|]; [|reflexivity].
  erewrite modify_vf_run; [reflexivity|].
  simpl. by rewrite lookup_insert_eq.
Qed.

(** C9: [clone] with a nil origin scope never returns: past the branch that
    keeps the parent's internal instance, [origin.Closer] is called on the nil
    interface.  [TargetConfig] gets there with the nil origin of its own
    instance once the target is found and parsed. *)
Theorem clone_nil_origin_panics :
  (∀ (self : addr) (name : string) (w : world),
     (clone self name None w).1 = Panic NilDereference) ∧
  (∀ (sv : Services) (self : addr) (name provider : string) (vp : bool)
     (w : world) (v : Vagrantfile) (raw : raw_ruby) (resp : wire_hash),
     vfiles w !! self = Some v →
     origin v = None →
     cache v !! cache_key name provider = None →
     GetValue v ["vm"; "__defined_vms"; name] = Ok (VRaw raw) →
     parse_subvm sv raw = inr resp →
     (TargetConfig sv self name provider vp w).1 = Panic NilDereference).
Proof.
  split; [exact clone_None|].
  intros sv self name provider vp w v raw resp Hv Ho Hc Hget Hparse.
  unfold TargetConfig. unfold bind at 1, get_vf. rewrite Hv, Hc.
  unfold bind at 1, lift. rewrite Hget. simpl.
  unfold bind at 1, ret. unfold bind at 1. rewrite call_run, Hparse.
  unfold bind at 1. rewrite Ho.
  pose proof (clone_None self name
    (World (vfiles w) (srcs w) (trace w ++ [EvParseSubvm raw]))) as Hcl.
  destruct (clone self name None _) as [r w']. simpl in Hcl. by subst r.
Qed.

Lemma clone_nil_origin_panics_witness :
  (TargetConfig demo 1 "web" EmptyString false w_orphan).1 = Panic NilDereference.
Proof.
  apply (proj2 clone_nil_origin_panics demo 1 "web" EmptyString false w_orphan
           vf_orphan 1 1); reflexivity.
Defined.

(** ** Merge, on concrete trees *)

Lemma merge_union_passthrough_witness :
  ∃ r w', merge demo vf_fresh (Some box_tree) (Some ssh_tree) w_empty
          = (Ok r, w').
Proof.
  apply (proj1 (proj2 (merge_union_passthrough demo vf_fresh box_tree ssh_tree
                         w_empty))).
  intros k Hk.
  assert (Hcases : k = "vm" ∨ k = "ssh").
  { apply elem_of_union in Hk as [Hk|Hk]; apply elem_of_dom in Hk as [x Hx].
    - left. destruct (decide (k = "vm")) as [|Hne]; [done|].
      unfold box_tree in Hx. rewrite lookup_singleton_ne in Hx by done.
      discriminate.
    - right. destruct (decide (k = "ssh")) as [|Hne]; [done|].
      unfold ssh_tree in Hx. rewrite lookup_singleton_ne in Hx by done.
      discriminate. }
  destruct Hcases as [->| ->]; split; vm_compute; eauto.
Defined.

(** C4, as stated, fails: "web" is defined by the base only, and [merge]
    does not pass it through: without a component for "web" it returns the
    missing-plugin error and no tree. *)
Lemma merge_refuses_unregistered_namespace :
  web_only !! "web" = Some (VConfigData ∅) ∧
  (∅ : cfg) !! "web" = None ∧
  (merge demo vf_fresh (Some web_only) (Some ∅) w_empty).1
  = Err (ErrNoPlugin "web").
Proof. repeat split; vm_compute; reflexivity. Qed.

(** ** The registry *)

Lemma registration_sub_plugins (reg : registration) (sc sc' : string)
    (p : plugin) :
  subregistrations (registration_sub reg sc p) !! sc'
  = if decide (sc' = sc)
    then Some (Subregistration
                 (default sc (scope <$> subregistrations reg !! sc))
                 (default [] (plugins <$> subregistrations reg !! sc) ++ [p]))
    else subregistrations reg !! sc'.
Proof.
  unfold registration_sub.
  destruct (subregistrations reg !! sc) as [s|] eqn:Hs; simpl;
    destruct (decide (sc' = sc)) as [->|Hne];
    rewrite ?lookup_insert_eq, ?lookup_insert_ne by done; done.
Qed.

Lemma registration_sub_plugin (reg : registration) (sc : string) (p : plugin) :
  reg_plugin (registration_sub reg sc p) = reg_plugin reg.
Proof. unfold registration_sub. by destruct (subregistrations reg !! sc). Qed.

#[local] Arguments registration_sub : simpl never.

(** X1: a top-level registration of a namespace without an entry makes
    the plugin the owner of the namespace: [componentForKey] then asks that
    plugin, and the owner and the component of every other namespace are
    what they were.  A second top-level registration of the namespace is
    refused and the owner stays; the error names the plugin that was
    refused, not the owner. *)
Theorem Register_then_lookup (sv : Services) (v : Vagrantfile) (n : string)
    (p : plugin) :
  registrations v !! n = None →
  ∃ v', Register_vf v (top_level n) p = Returned v' ∧
        owner (registrations v') n = Some p ∧
        (∀ w, componentForKey sv v' n w
              = call (EvComponent p) (plugin_component sv p) w) ∧
        (∀ k, k ≠ n → registrations v' !! k = registrations v !! k) ∧
        (∀ k, k ≠ n → component_of sv v' k = component_of sv v k) ∧
        (∀ q, Register_vf v' (top_level n) q
              = Failed (ErrAlreadyRegistered n q)).
Proof.
  intros Hn. unfold Register_vf at 1, Register, top_level. simpl.
  unfold registrations_register. rewrite Hn.
  eexists. split; [reflexivity|]. simpl. repeat split.
  - unfold owner. by rewrite lookup_insert_eq.
  - intros w. unfold componentForKey. simpl. by rewrite lookup_insert_eq.
  - intros k Hk. by rewrite lookup_insert_ne.
  - intros k Hk. unfold component_of. simpl. by rewrite lookup_insert_ne.
  - intros q. unfold Register_vf, Register. simpl.
    unfold registrations_register. by rewrite lookup_insert_eq.
Qed.

Lemma Register_then_lookup_witness :
  ∃ v', Register_vf vf_fresh (top_level "web") "docker" = Returned v' ∧
        owner (registrations v') "web" = Some "docker" ∧
        (∀ w, componentForKey demo v' "web" w
              = call (EvComponent "docker") (plugin_component demo "docker") w) ∧
        (∀ k, k ≠ "web" → registrations v' !! k = registrations vf_fresh !! k) ∧
        (∀ k, k ≠ "web" → component_of demo v' k = component_of demo vf_fresh k) ∧
        (∀ q, Register_vf v' (top_level "web") q
              = Failed (ErrAlreadyRegistered "web" q)).
Proof. apply (Register_then_lookup demo vf_fresh "web" "docker"). reflexivity. Defined.

(** X2: a sub-scope registration never fails; it appends the plugin to
    the list of its scope, after the plugins registered before, and changes
    no owner, no other scope and no other namespace. *)
Theorem Register_sub_appends (r : gmap string registration)
    (info : ConfigRegistration) (p : plugin) :
  Scope info ≠ EmptyString →
  ∃ r', Register (Some r) info p = Returned r' ∧
        sub_plugins r' (Identifier info) (Scope info)
        = sub_plugins r (Identifier info) (Scope info) ++ [p] ∧
        (∀ n, owner r' n = owner r n) ∧
        (∀ n sc, (n, sc) ≠ (Identifier info, Scope info) →
                 sub_plugins r' n sc = sub_plugins r n sc) ∧
        (∀ n, n ≠ Identifier info → r' !! n = r !! n).
Proof.
  intros Hsc. destruct info as [n sc]. simpl in *.
  unfold Register. simpl. rewrite decide_False by done.
  eexists. split; [reflexivity|].
  unfold registrations_init.
  destruct (r !! n) as [reg|] eqn:Hreg; simpl.
  - repeat split.
    + unfold sub_plugins. rewrite lookup_insert_eq, Hreg. simpl.
      rewrite registration_sub_plugins, decide_True by done. simpl.
      by destruct (subregistrations reg !! sc).
    + intros n'. unfold owner. destruct (decide (n' = n)) as [->|Hne].
      * rewrite lookup_insert_eq, Hreg. simpl. apply registration_sub_plugin.
      * by rewrite lookup_insert_ne.
    + intros n' sc' Hne. unfold sub_plugins.
      destruct (decide (n' = n)) as [->|Hn].
      * rewrite lookup_insert_eq, Hreg. simpl.
        rewrite registration_sub_plugins, decide_False; [done|congruence].
      * by rewrite lookup_insert_ne.
    + intros n' Hne. by rewrite lookup_insert_ne.
  - repeat split.
    + unfold sub_plugins. rewrite lookup_insert_eq, Hreg. simpl.
      rewrite registration_sub_plugins, decide_True by done. simpl.
      by rewrite lookup_empty.
    + intros n'. unfold owner. destruct (decide (n' = n)) as [->|Hne].
      * rewrite lookup_insert_eq, Hreg. simpl.
        by rewrite registration_sub_plugin.
      * by rewrite !lookup_insert_ne.
    + intros n' sc' Hne. unfold sub_plugins.
      destruct (decide (n' = n)) as [->|Hn].
      * rewrite lookup_insert_eq, Hreg. simpl.
        rewrite registration_sub_plugins, decide_False by congruence.
        simpl. by rewrite lookup_empty.
      * by rewrite !lookup_insert_ne.
    + intros n' Hne. by rewrite !lookup_insert_ne.
Qed.

Lemma Register_sub_appends_witness :
  ∃ r', Register (Some demo_regs) (ConfigRegistration_ "vm" "provider") "vbox"
        = Returned r' ∧
        sub_plugins r' "vm" "provider" = [] ++ ["vbox"].
Proof.
  destruct (Register_sub_appends demo_regs
              (ConfigRegistration_ "vm" "provider") "vbox")
    as (r' & H1 & H2 & _); [discriminate|].
  exists r'. split; [exact H1|]. exact H2.
Defined.

(** X3: a sub-scope registration made before the namespace has an owner
    leaves an entry without a plugin behind, and that entry shuts the
    namespace: every later top-level registration of it is refused, and
    [componentForKey] finds no plugin for it, without asking anybody. *)
Theorem Register_sub_first_blocks_owner (sv : Services) (v : Vagrantfile)
    (info : ConfigRegistration) (p : plugin) :
  Scope info ≠ EmptyString →
  registrations v !! Identifier info = None →
  ∃ v', Register_vf v info p = Returned v' ∧
        owner (registrations v') (Identifier info) = None ∧
        (∀ q, Register_vf v' (top_level (Identifier info)) q
              = Failed (ErrAlreadyRegistered (Identifier info) q)) ∧
        (∀ w, componentForKey sv v' (Identifier info) w
              = (Err (ErrNoPlugin (Identifier info)), w)).
Proof.
  intros Hsc Hn. destruct info as [n sc]. simpl in *.
  unfold Register_vf at 1, Register. simpl. rewrite decide_False by done.
  unfold registrations_init. rewrite Hn. simpl.
  eexists. split; [reflexivity|]. repeat split.
  - unfold owner. simpl. rewrite lookup_insert_eq. simpl.
    by rewrite registration_sub_plugin.
  - intros q. unfold Register_vf, Register, top_level. simpl.
    unfold registrations_register. by rewrite lookup_insert_eq.
  - intros w. unfold componentForKey. simpl. rewrite lookup_insert_eq.
    by rewrite registration_sub_plugin.
Qed.

Lemma Register_sub_first_blocks_owner_witness :
  ∃ v', Register_vf vf_fresh (ConfigRegistration_ "web" "provider") "vbox"
        = Returned v' ∧
        owner (registrations v') "web" = None ∧
        (∀ q, Register_vf v' (top_level "web") q
              = Failed (ErrAlreadyRegistered "web" q)) ∧
        (∀ w, componentForKey demo v' "web" w = (Err (ErrNoPlugin "web"), w)).
Proof.
  apply (Register_sub_first_blocks_owner demo vf_fresh
           (ConfigRegistration_ "web" "provider") "vbox");
    [discriminate | reflexivity].
Defined.

(** ** Computations that only append to the trace *)

Section OnlyTrace.

Context {A B : Type}.

Lemma only_trace_ret (a : A) : only_trace (ret a).
Proof.
  intros w r w' H. unfold ret in H. simplify_eq.
  repeat split. exists []. by rewrite app_nil_r.
Qed.

Lemma only_trace_fail (e : error) : only_trace (@fail A e).
Proof.
  intros w r w' H. unfold fail in H. simplify_eq.
  repeat split. exists []. by rewrite app_nil_r.
Qed.

Lemma only_trace_crash (p : panic) : only_trace (@crash A p).
Proof.
  intros w r w' H. unfold crash in H. simplify_eq.
  repeat split. exists []. by rewrite app_nil_r.
Qed.

Lemma only_trace_bind (m : M A) (k : A → M B) :
  only_trace m → (∀ a, only_trace (k a)) → only_trace (bind m k).
Proof.
  intros Hm Hk w r w' H. unfold bind in H.
  destruct (m w) as [[a|e|p] w1] eqn:Hmw;
    destruct (Hm _ _ _ Hmw) as (Hv & Hs & evs & Ht).
  - destruct (Hk a _ _ _ H) as (Hv' & Hs' & evs' & Ht').
    split; [congruence|]. split; [congruence|].
    exists (evs ++ evs'). by rewrite Ht', Ht, app_assoc.
  - simplify_eq. eauto.
  - simplify_eq. eauto.
Qed.

Lemma only_trace_catch (m : M A) : only_trace m → only_trace (catch m).
Proof.
  intros Hm w r w' H. unfold catch in H.
  destruct (m w) as [[a|e|p] w1] eqn:Hmw; simplify_eq; exact (Hm _ _ _ Hmw).
Qed.

End OnlyTrace.

Lemma only_trace_call {A} (ev : event) (x : error + A) : only_trace (call ev x).
Proof.
  intros w r w' H. rewrite call_run in H. simplify_eq. simpl.
  repeat split. by exists [ev].
Qed.

Lemma only_trace_get_src (a : addr) : only_trace (get_src a).
Proof.
  intros w r w' H. unfold get_src in H.
  destruct (srcs w !! a); simplify_eq; repeat split; exists [];
    by rewrite app_nil_r.
Qed.

#[local] Hint Resolve only_trace_ret only_trace_fail only_trace_crash
  only_trace_catch only_trace_call only_trace_get_src : frame.

Lemma only_trace_componentForKey (sv : Services) (v : Vagrantfile)
    (k : string) : only_trace (componentForKey sv v k).
Proof.
  unfold componentForKey.
  destruct (registrations v !! k) as [reg|]; [|auto with frame].
  destruct (reg_plugin reg); auto with frame.
Qed.

#[local] Hint Resolve only_trace_componentForKey : frame.

Lemma only_trace_merge_loop (sv : Services) (v : Vagrantfile) (b t : cfg)
    (ks : list string) (acc : cfg) : only_trace (merge_loop sv v b t ks acc).
Proof.
  revert acc. induction ks as [|k ks IH]; intros acc; simpl; [auto with frame|].
  apply only_trace_bind; [auto with frame|]. intros c.
  destruct (b !! k) as [x|]; destruct (t !! k) as [y|]; simpl;
    auto with frame.
  destruct x; auto with frame. destruct y; auto with frame.
  apply only_trace_bind; auto with frame.
Qed.

Lemma only_trace_merge (sv : Services) (v : Vagrantfile) (b t : option cfg) :
  only_trace (merge sv v b t).
Proof.
  unfold merge. destruct b; [|auto with frame]. destruct t; [|auto with frame].
  apply only_trace_merge_loop.
Qed.

Lemma only_trace_finalize_loop (sv : Services) (v : Vagrantfile)
    (conf : cfg) (ks : list string) (acc : cfg) :
  only_trace (finalize_loop sv v conf ks acc).
Proof.
  revert acc. induction ks as [|k ks IH]; intros acc; simpl; [auto with frame|].
  apply only_trace_bind; [auto with frame|]. intros [e|c]; [auto with frame|].
  destruct (default VNil (conf !! k)); auto with frame.
  apply only_trace_bind; [auto with frame|].
  intros [e|r]; auto with frame.
Qed.

Lemma only_trace_finalize (sv : Services) (v : Vagrantfile)
    (conf : option cfg) : only_trace (finalize sv v conf).
Proof.
  unfold finalize. destruct conf; [|auto with frame].
  apply only_trace_finalize_loop.
Qed.

#[local] Hint Resolve only_trace_merge only_trace_finalize : frame.

Lemma only_trace_generate_loop (sv : Services) (v : Vagrantfile)
    (locs : list LoadLocation) (c : option cfg) :
  only_trace (generate_loop sv v locs c).
Proof.
  revert c. induction locs as [|i locs IH]; intros c; simpl; [auto with frame|].
  destruct (sources v !! i) as [sa|]; [|apply IH].
  destruct c.
  - apply only_trace_bind; [auto with frame|]. intros s.
    apply only_trace_bind; [auto with frame|]. intros r. apply IH.
  - apply only_trace_bind; [auto with frame|]. intros s. apply IH.
Qed.

Lemma only_trace_generate (sv : Services) (v : Vagrantfile)
    (locs : list LoadLocation) : only_trace (generate sv v locs).
Proof.
  unfold generate. destruct locs as [|l0 locs]; [auto with frame|].
  apply only_trace_bind.
  - unfold source_at. destruct (sources v !! l0); auto with frame.
  - intros s. apply only_trace_generate_loop.
Qed.

(** ** Sources *)

Lemma newSource_run (sv : Services) (f : vagrantfile_proto) (w : world) :
  newSource sv f w
  = (match map_decode sv (Unfinalized f) with
     | inl e => Err e
     | inr u =>
         match Finalized f with
         | None => Ok (Source_ f None (Some u))
         | Some h =>
             match map_decode sv (Some h) with
             | inl e => Err e
             | inr fin => Ok (Source_ f (Some fin) (Some u))
             end
         end
     end,
     World (vfiles w) (srcs w)
       (trace w ++ EvDecode (Unfinalized f) ::
          match map_decode sv (Unfinalized f), Finalized f with
          | inr _, Some h => [EvDecode (Some h)]
          | _, _ => []
          end)).
Proof.
  unfold newSource, generateConfig. unfold bind at 1. rewrite call_run.
  destruct (map_decode sv (Unfinalized f)) as [e|u]; [reflexivity|].
  destruct (Finalized f) as [h|]; [|reflexivity].
  unfold bind. rewrite call_run. simpl.
  destruct (map_decode sv (Some h)); simpl; by rewrite <- app_assoc.
Qed.

(** What [Source] does with a fragment, by the answer of the decoder. *)
Lemma Source_run (sv : Services) (self : addr) (v : Vagrantfile)
    (f : vagrantfile_proto) (l : LoadLocation) (w : world) :
  vfiles w !! self = Some v →
  Source sv self (Some f) l w
  = match newSource sv f w with
    | (Ok s, w1) =>
        (Ok (),
         World (<[self := set_sources (<[l := fresh (dom (srcs w))]> (sources v))
                            v]> (vfiles w))
               (<[fresh (dom (srcs w)) := s]> (srcs w))
               (trace w1))
    | (Err e, w1) => (Err e, w1)
    | (Panic p, w1) => (Panic p, w1)
    end.
Proof.
  intros Hv. unfold Source. unfold bind at 1, get_vf. rewrite Hv.
  unfold bind at 1. rewrite newSource_run.
  destruct (map_decode sv (Unfinalized f)) as [e|u]; [reflexivity|].
  destruct (Finalized f) as [h|].
  - destruct (map_decode sv (Some h)) as [e|fin]; [reflexivity|].
    unfold bind, alloc_src. simpl. erewrite modify_vf_run by exact Hv.
    reflexivity.
  - unfold bind, alloc_src. simpl. erewrite modify_vf_run by exact Hv.
    reflexivity.
Qed.

(** ** Init: a failing step, both ways *)

Lemma last_locations_source (v : Vagrantfile) (final : LoadLocation) :
  last (locations_of v) = Some final → is_Some (sources v !! final).
Proof.
  intros H. apply last_Some_elem_of in H.
  unfold locations_of in H. by apply list_elem_of_filter in H as [H _].
Qed.

Lemma Init_slow_path (sv : Services) (self : addr) (v : Vagrantfile)
    (w : world) :
  vfiles w !! self = Some v →
  reaches_generate v w →
  Init sv self w
  = Init_generate sv self v (locations_of v) (final_source v) w.
Proof.
  intros Hv Hreach. unfold Init, bind, get_vf. rewrite Hv.
  unfold reaches_generate, final_source in *.
  destruct (last (locations_of v)) as [final|] eqn:Hlast; [|done].
  destruct (decide (final ∈ ValidRootLocations)); [|done].
  destruct (last_locations_source _ _ Hlast) as [sa Hsa].
  rewrite Hsa in *. destruct Hreach as (s & Hs & Hfin).
  unfold bind, get_src. by rewrite Hs, Hfin.
Qed.

(** C1, as the code has it.  On an instance whose [Init] gets past the fast
    path, a failing step makes [Init] return that step's error: when the
    merge of step 3 fails, the root is what it was before the call, unset on
    an instance that was never initialized; when finalize fails, the root has
    already been assigned what finalize handed back next to its error; when
    the storage of step 5 fails, the root holds the finalized tree, and the
    source keeps it as its finalized form.  And the other way round: every
    error that [Init] returns is the error of one of these three steps. *)
Theorem Init_failure (sv : Services) (self : addr) (v : Vagrantfile)
    (w : world) (e : error) :
  vfiles w !! self = Some v →
  (reaches_generate v w →
   (∀ w1, generate sv v (locations_of v) w = (Err e, w1) →
      Init sv self w = (Err e, w1) ∧ root_at w1 self = root v) ∧
   (∀ c w1 r w2,
      generate sv v (locations_of v) w = (Ok c, w1) →
      finalize sv v c w1 = (Ok (r, Some e), w2) →
      ∃ w', Init sv self w = (Err e, w') ∧ root_at w' self = r) ∧
   (∀ c w1 d w2 sa,
      generate sv v (locations_of v) w = (Ok c, w1) →
      finalize sv v c w1 = (Ok (Some d, None), w2) →
      final_source v = Some sa →
      map_encode sv d = inl e →
      ∃ w' s0, Init sv self w = (Err e, w') ∧
               root_at w' self = Some d ∧
               srcs w !! sa = Some s0 ∧
               srcs w' !! sa = Some (set_finalized (Some d) s0))) ∧
  (∀ w', Init sv self w = (Err e, w') →
   (generate sv v (locations_of v) w = (Err e, w') ∧
    root_at w' self = root v) ∨
   (∃ c w1 r w2,
       generate sv v (locations_of v) w = (Ok c, w1) ∧
       finalize sv v c w1 = (Ok (r, Some e), w2) ∧
       root_at w' self = r) ∨
   (∃ c w1 d w2 sa s0,
       generate sv v (locations_of v) w = (Ok c, w1) ∧
       finalize sv v c w1 = (Ok (Some d, None), w2) ∧
       (∃ final, last (locations_of v) = Some final ∧
                 final ∈ ValidRootLocations ∧
                 sources v !! final = Some sa) ∧
       map_encode sv d = inl e ∧
       root_at w' self = Some d ∧
       srcs w' !! sa = Some (set_finalized (Some d) s0))).
Proof.
  intros Hv. split.
  - intros Hreach. rewrite (Init_slow_path _ _ _ _ Hv Hreach).
    split; [|split].
    + intros w1 Hgen. unfold Init_generate, bind. rewrite Hgen.
      split; [done|]. unfold root_at.
      by rewrite (keeps_vfiles_generate _ _ _ _ _ _ Hgen), Hv.
    + intros c w1 r w2 Hgen Hfin.
      assert (Hv2 : vfiles w2 !! self = Some v).
      { rewrite (keeps_vfiles_finalize _ _ _ _ _ _ Hfin).
        by rewrite (keeps_vfiles_generate _ _ _ _ _ _ Hgen). }
      unfold Init_generate. unfold bind at 1. rewrite Hgen.
      unfold bind at 1. rewrite Hfin.
      unfold bind at 1. rewrite (modify_vf_run _ _ _ _ Hv2). simpl.
      eexists. split; [reflexivity|].
      unfold root_at. simpl. by rewrite lookup_insert_eq.
    + intros c w1 d w2 sa Hgen Hfin Hsa Henc.
      unfold reaches_generate in Hreach. rewrite Hsa in *.
      destruct Hreach as (s0 & Hs0 & _).
      destruct (only_trace_generate _ _ _ _ _ _ Hgen) as (Hv1 & Hs1 & _).
      destruct (only_trace_finalize _ _ _ _ _ _ Hfin) as (Hv2 & Hs2 & _).
      assert (Hself : vfiles w2 !! self = Some v) by (rewrite Hv2, Hv1; done).
      unfold Init_generate. unfold bind at 1. rewrite Hgen.
      unfold bind at 1. rewrite Hfin.
      unfold bind at 1. rewrite (modify_vf_run _ _ _ _ Hself). simpl.
      unfold setFinalized. unfold bind at 1.
      erewrite modify_src_run by (simpl; rewrite Hs2, Hs1; exact Hs0).
      unfold bind at 1. rewrite call_run, Henc.
      eexists _, s0. split; [reflexivity|].
      split; [unfold root_at; simpl; by rewrite lookup_insert_eq|].
      split; [done|]. simpl. by rewrite lookup_insert_eq.
  - intros w' Hrun. unfold Init, bind, get_vf in Hrun. rewrite Hv in Hrun.
    assert (Hnone :
      Init_generate sv self v (locations_of v) None w = (Err e, w') →
      (generate sv v (locations_of v) w = (Err e, w') ∧
       root_at w' self = root v) ∨
      (∃ c w1 r w2,
          generate sv v (locations_of v) w = (Ok c, w1) ∧
          finalize sv v c w1 = (Ok (r, Some e), w2) ∧
          root_at w' self = r) ∨
      (∃ c w1 d w2 sa s0,
          generate sv v (locations_of v) w = (Ok c, w1) ∧
          finalize sv v c w1 = (Ok (Some d, None), w2) ∧
          (∃ final, last (locations_of v) = Some final ∧
                    final ∈ ValidRootLocations ∧
                    sources v !! final = Some sa) ∧
          map_encode sv d = inl e ∧
          root_at w' self = Some d ∧
          srcs w' !! sa = Some (set_finalized (Some d) s0))).
    { intros H.
      destruct (Init_generate_Err _ _ _ _ _ _ _ _ Hv H)
        as [?|[?|(c & w1 & d & w2 & sa & s0 & _ & _ & Hs & _)]]; auto.
      discriminate. }
    destruct (last (locations_of v)) as [final|] eqn:Hlast; [|by apply Hnone].
    destruct (decide (final ∈ ValidRootLocations)) as [Hvalid|];
      [|by apply Hnone].
    destruct (sources v !! final) as [sa|] eqn:Hsa;
      [|unfold crash in Hrun; discriminate].
    unfold bind, get_src in Hrun.
    destruct (srcs w !! sa) as [s|]; [|discriminate].
    destruct (finalized s).
    { rewrite (modify_vf_run _ _ _ _ Hv) in Hrun. discriminate. }
    destruct (Init_generate_Err _ _ _ _ _ _ _ _ Hv Hrun)
      as [?|[?|(c & w1 & d & w2 & sa' & s0 & Hg & Hf & Hs & Henc & Hr & Hsrc)]];
      auto.
    right. right. simplify_eq.
    exists c, w1, d, w2, sa', s0. repeat split; try done. by exists final.
Qed.

Lemma Init_failure_witness :
  ∃ w', Init demo 1 w_unencodable = (Err (ErrExternal 5), w') ∧
        root_at w' 1 ≠ None.
Proof.
  destruct (Init_failure demo 1 _ w_unencodable (ErrExternal 5) eq_refl)
    as [Hforward _].
  destruct Hforward as (_ & _ & Hstore).
  { vm_compute. eexists. split; reflexivity. }
  edestruct Hstore as (w' & s0 & Hrun & Hroot & _).
  - vm_compute. reflexivity.
  - vm_compute. reflexivity.
  - vm_compute. reflexivity.
  - vm_compute. reflexivity.
  - exists w'. split; [exact Hrun|]. rewrite Hroot. discriminate.
Defined.

(** C1, as stated, fails: the storage of step 5 returns an error, [Init]
    returns it, and the root of the instance, unset before the call, is the
    finalized tree. *)
Lemma failed_Init_leaves_root_set :
  root_at w_unencodable 1 = None ∧
  (Init demo 1 w_unencodable).1 = Err (ErrExternal 5) ∧
  root_at (Init demo 1 w_unencodable).2 1
  = Some {[ "ssh" := VConfigData {[ "user" := VString "root";
                                    "finalized" := VString "yes" ]} ]}.
Proof. repeat split; vm_compute; reflexivity. Qed.

Lemma Source_frame (sv : Services) (a : addr) (vf : option vagrantfile_proto)
    (l : LoadLocation) (w : world) (r : go unit) (w' : world) :
  Source sv a vf l w = (r, w') →
  (∀ b, b ≠ a → vfiles w' !! b = vfiles w !! b) ∧
  (∀ x, x ∈ dom (srcs w) → srcs w' !! x = srcs w !! x).
Proof.
  intros H. destruct (vfiles w !! a) as [v|] eqn:Hv.
  - destruct vf as [f|].
    + rewrite (Source_run _ _ _ _ _ _ Hv), newSource_run in H.
      destruct (map_decode sv (Unfinalized f)) as [e|u]; [by simplify_eq|].
      assert (Hfresh : ∀ x, x ∈ dom (srcs w) → x ≠ fresh (dom (srcs w))).
      { intros x Hx ->. by apply is_fresh in Hx. }
      destruct (Finalized f) as [h|];
        [destruct (map_decode sv (Some h)) as [e|fin]; [by simplify_eq|]|];
        simplify_eq; simpl; split.
      * intros b Hb. by rewrite lookup_insert_ne.
      * intros x Hx. rewrite lookup_insert_ne; [done|]. by apply not_eq_sym, Hfresh.
      * intros b Hb. by rewrite lookup_insert_ne.
      * intros x Hx. rewrite lookup_insert_ne; [done|]. by apply not_eq_sym, Hfresh.
    + unfold Source, bind, get_vf in H. rewrite Hv in H. unfold ret in H.
      by simplify_eq.
  - unfold Source, bind, get_vf in H. rewrite Hv in H. by simplify_eq.
Qed.

(** X4: when the decoder accepts a fragment, [Source] returns nil and the
    location holds a new source struct made from it: [GetSource] gives the
    fragment back, the struct holds the decoded unfinalized tree, and the
    decoded finalized tree exactly when the fragment carries one.  The other
    locations, the root, the cache and the registry of the instance, every
    other instance and every source struct that existed are as before (a
    source replaced at the location is dropped from the map, not changed). *)
Theorem Source_then_GetSource (sv : Services) (self : addr) (v : Vagrantfile)
    (f : vagrantfile_proto) (l : LoadLocation) (w : world) (u : cfg)
    (fin : option cfg) :
  vfiles w !! self = Some v →
  map_decode sv (Unfinalized f) = inr u →
  match Finalized f with
  | Some h => ∃ t, map_decode sv (Some h) = inr t ∧ fin = Some t
  | None => fin = None
  end →
  ∃ w' v' sa,
    Source sv self (Some f) l w = (Ok (), w') ∧
    vfiles w' !! self = Some v' ∧
    GetSource w' v' l = Returned f ∧
    sources v' !! l = Some sa ∧ (sa ∉ dom (srcs w)) ∧
    srcs w' !! sa = Some (Source_ f fin (Some u)) ∧
    (∀ l', l' ≠ l → sources v' !! l' = sources v !! l') ∧
    root v' = root v ∧ cache v' = cache v ∧
    registrations v' = registrations v ∧
    untouched (dom (vfiles w) ∖ {[self]}) (dom (srcs w)) w w'.
Proof.
  intros Hv Hu Hfin.
  destruct (Source sv self (Some f) l w) as [r w'] eqn:Hrun.
  pose proof (Source_frame _ _ _ _ _ _ _ Hrun) as [Hfv Hfs].
  rewrite (Source_run _ _ _ _ _ _ Hv), newSource_run, Hu in Hrun.
  assert (Hs : match Finalized f with
               | Some h =>
                   match map_decode sv (Some h) with
                   | inl e => Err e
                   | inr t => Ok (Source_ f (Some t) (Some u))
                   end
               | None => Ok (Source_ f None (Some u))
               end = Ok (Source_ f fin (Some u))).
  { destruct (Finalized f) as [h|]; [|by subst].
    destruct Hfin as (t & -> & ->). done. }
  rewrite Hs in Hrun. simplify_eq.
  eexists _, _, (fresh (dom (srcs w))). split; [reflexivity|]. simpl.
  split; [by rewrite lookup_insert_eq|].
  split.
  { unfold GetSource. simpl. rewrite !lookup_insert_eq. done. }
  split; [simpl; by rewrite lookup_insert_eq|].
  split; [apply is_fresh|].
  split; [by rewrite lookup_insert_eq|].
  split; [intros l' Hl'; simpl; by rewrite lookup_insert_ne|].
  repeat split; try done.
  intros b [_ Hb]%elem_of_difference. apply Hfv. intros ->.
  apply Hb. by apply elem_of_singleton.
Qed.

Lemma Source_then_GetSource_witness :
  ∃ w' v' sa,
    Source demo 1 (Some (VagrantfileProto (Some 1) None)) VAGRANTFILE_PROJECT
      w_empty = (Ok (), w') ∧
    vfiles w' !! 1 = Some v' ∧
    GetSource w' v' VAGRANTFILE_PROJECT
    = Returned (VagrantfileProto (Some 1) None) ∧
    sources v' !! VAGRANTFILE_PROJECT = Some sa ∧ (sa ∉ dom (srcs w_empty)) ∧
    srcs w' !! sa
    = Some (Source_ (VagrantfileProto (Some 1) None) None (Some box_tree)) ∧
    (∀ l', l' ≠ VAGRANTFILE_PROJECT →
           sources v' !! l' = sources vf_fresh !! l') ∧
    root v' = root vf_fresh ∧ cache v' = cache vf_fresh ∧
    registrations v' = registrations vf_fresh ∧
    untouched (dom (vfiles w_empty) ∖ {[1]}) (dom (srcs w_empty)) w_empty w'.
Proof.
  apply (Source_then_GetSource demo 1 vf_fresh
           (VagrantfileProto (Some 1) None) VAGRANTFILE_PROJECT w_empty
           box_tree None); reflexivity.
Defined.

(** X5: [Source] returns an error exactly when the decoder refuses the
    unfinalized payload, or accepts it and refuses the finalized payload the
    fragment carries; the error is the decoder's, and the instance and the
    source structs are what they were: a source already at the location
    stays. *)
Theorem Source_decode_error (sv : Services) (self : addr) (v : Vagrantfile)
    (f : vagrantfile_proto) (l : LoadLocation) (w : world) (e : error) :
  vfiles w !! self = Some v →
  (map_decode sv (Unfinalized f) = inl e ∨
   ∃ u h, map_decode sv (Unfinalized f) = inr u ∧ Finalized f = Some h ∧
          map_decode sv (Some h) = inl e)
  ↔ ∃ w', Source sv self (Some f) l w = (Err e, w') ∧
          vfiles w' = vfiles w ∧ srcs w' = srcs w.
Proof.
  intros Hv. rewrite (Source_run _ _ _ _ _ _ Hv), newSource_run. split.
  - intros [He|(u & h & Hu & Hf & He)].
    + rewrite He. eauto.
    + rewrite Hu, Hf, He. eauto.
  - intros (w' & H & _).
    destruct (map_decode sv (Unfinalized f)) as [e'|u];
      [left; congruence|].
    destruct (Finalized f) as [h|]; [|discriminate].
    destruct (map_decode sv (Some h)) as [e'|fin] eqn:Hd; [|discriminate].
    right. exists u, h. repeat split. congruence.
Qed.

Lemma Source_decode_error_witness :
  ∃ w', Source demo 1 (Some (VagrantfileProto (Some 0) None))
          VAGRANTFILE_PROJECT w_memoized = (Err (ErrExternal 4), w') ∧
        vfiles w' = vfiles w_memoized ∧ srcs w' = srcs w_memoized.
Proof.
  apply (Source_decode_error demo 1 _ (VagrantfileProto (Some 0) None)
           VAGRANTFILE_PROJECT w_memoized (ErrExternal 4) eq_refl).
  left. reflexivity.
Defined.

(** ** Clones *)

Lemma clone_run (self : addr) (name : string) (o : originScope)
    (v : Vagrantfile) (w : world) :
  vfiles w !! self = Some v →
  clone self name (Some o) w
  = (Ok (fresh (dom (vfiles w))),
     World (<[fresh (dom (vfiles w)) :=
               Vagrantfile_ ∅ (Some o) (registrations v) None (sources v)
                 (Some o)]> (vfiles w))
           (srcs w)
           (trace w ++ [EvNewInternal o; EvCloser o (fresh (dom (vfiles w)))])).
Proof.
  intros Hv. unfold clone. unfold bind at 1, get_vf. rewrite Hv.
  unfold bind at 1, alloc_vf. unfold bind at 1. unfold bind at 1, emit.
  erewrite modify_vf_run by (simpl; apply lookup_insert_eq).
  unfold bind, emit, ret. simpl.
  rewrite insert_insert_eq. by rewrite <- app_assoc.
Qed.

(** X6: a clone made for an origin scope is a new instance with the
    registry and the source map of its parent (the same source structs), an
    empty cache and no root; the parent is as before.  From then on the two
    source maps are apart: whatever [Source] does on the clone leaves the
    parent as it is, and the other way round. *)
Theorem clone_isolation (sv : Services) (self : addr) (name : string)
    (o : originScope) (v : Vagrantfile) (w : world) :
  vfiles w !! self = Some v →
  ∃ n w1 nv,
    clone self name (Some o) w = (Ok n, w1) ∧
    (n ∉ dom (vfiles w)) ∧ n ≠ self ∧
    vfiles w1 !! n = Some nv ∧ vfiles w1 !! self = Some v ∧
    sources nv = sources v ∧ registrations nv = registrations v ∧
    root nv = None ∧ cache nv = ∅ ∧ origin nv = Some o ∧
    srcs w1 = srcs w ∧
    (∀ f l r w2, Source sv n f l w1 = (r, w2) → vfiles w2 !! self = Some v) ∧
    (∀ f l r w2, Source sv self f l w1 = (r, w2) → vfiles w2 !! n = Some nv).
Proof.
  intros Hv. rewrite (clone_run _ _ _ _ _ Hv).
  assert (Hfresh : fresh (dom (vfiles w)) ∉ dom (vfiles w)) by apply is_fresh.
  assert (Hne : fresh (dom (vfiles w)) ≠ self).
  { intros Heq. rewrite Heq in Hfresh. apply Hfresh, elem_of_dom. eauto. }
  eexists _, _, _. split; [reflexivity|]. simpl.
  split; [done|]. split; [done|].
  split; [by rewrite lookup_insert_eq|].
  split; [by rewrite lookup_insert_ne|].
  repeat split.
  - intros f l r w2 H. destruct (Source_frame _ _ _ _ _ _ _ H) as [Hf _].
    rewrite Hf by done. simpl. by rewrite lookup_insert_ne.
  - intros f l r w2 H. destruct (Source_frame _ _ _ _ _ _ _ H) as [Hf _].
    rewrite Hf by done. simpl. by rewrite lookup_insert_eq.
Qed.

Lemma clone_isolation_witness :
  ∃ n w1 nv,
    clone 1 "web" (Some 0) w_memoized = (Ok n, w1) ∧
    (n ∉ dom (vfiles w_memoized)) ∧ n ≠ 1 ∧
    vfiles w1 !! n = Some nv ∧
    vfiles w1 !! 1 = vfiles w_memoized !! 1.
Proof.
  destruct (clone_isolation demo 1 "web" 0 _ w_memoized eq_refl)
    as (n & w1 & nv & H1 & H2 & H3 & H4 & H5 & _).
  exists n, w1, nv. repeat split; try done.
Defined.

(** ** Init: what a run that ends well has done *)

Lemma last_locations_highest (v : Vagrantfile) (l : LoadLocation) :
  last (locations_of v) = Some l → highest_present v l.
Proof.
  unfold locations_of, all_locations, highest_present.
  rewrite !filter_cons, filter_nil.
  destruct (decide (is_Some (sources v !! VAGRANTFILE_PROVIDER))) as [H4|H4];
  destruct (decide (is_Some (sources v !! VAGRANTFILE_TARGET))) as [H3|H3];
  destruct (decide (is_Some (sources v !! VAGRANTFILE_PROJECT))) as [H2|H2];
  destruct (decide (is_Some (sources v !! VAGRANTFILE_BASIS))) as [H1|H1];
  destruct (decide (is_Some (sources v !! VAGRANTFILE_BOX))) as [H0|H0];
  simpl; intros Hl; simplify_eq; (split; [done|]);
  intros [] Hp; simpl; first [lia | contradiction].
Qed.

Lemma finalize_loop_Ok_Some (sv : Services) (v : Vagrantfile) (conf : cfg)
    (ks : list string) (acc : cfg) (w : world) (r : option cfg) (w' : world) :
  finalize_loop sv v conf ks acc w = (Ok (r, None), w') → is_Some r.
Proof.
  revert acc w. induction ks as [|k ks IH]; intros acc w; simpl.
  - unfold ret. intros H. simplify_eq. by eexists.
  - unfold bind at 1, catch at 1.
    destruct (componentForKey sv v k w) as [[c|e'|p] w1];
      [|unfold ret; congruence|congruence].
    destruct (default VNil (conf !! k)); try (unfold ret; congruence).
    unfold bind at 1, catch at 1.
    destruct (call _ _ w1) as [[r'|e'|p] w2];
      [apply IH|unfold ret; congruence|congruence].
Qed.

Lemma finalize_Ok_Some (sv : Services) (v : Vagrantfile) (conf : option cfg)
    (w : world) (r : option cfg) (w' : world) :
  finalize sv v conf w = (Ok (r, None), w') → is_Some r.
Proof.
  unfold finalize. destruct conf; [apply finalize_loop_Ok_Some|].
  unfold crash. congruence.
Qed.

Lemma Init_generate_Ok (sv : Services) (self : addr) (v : Vagrantfile)
    (locs : list LoadLocation) (s : option addr) (w w' : world) :
  vfiles w !! self = Some v →
  Init_generate sv self v locs s w = (Ok (), w') →
  ∃ c w1 d w2,
    generate sv v locs w = (Ok c, w1) ∧
    finalize sv v c w1 = (Ok (Some d, None), w2) ∧
    vfiles w' = <[self := set_root (Some d) v]> (vfiles w) ∧
    match s with
    | None => srcs w' = srcs w ∧ trace w' = trace w2
    | Some sa =>
        ∃ s0 raw,
          srcs w !! sa = Some s0 ∧ map_encode sv d = inr raw ∧
          srcs w' = <[sa := set_base_Finalized (Some raw)
                               (set_finalized (Some d) s0)]> (srcs w) ∧
          trace w' = trace w2 ++ [EvEncode d]
    end.
Proof.
  intros Hv Hrun. unfold Init_generate in Hrun.
  apply bind_Ok_inv in Hrun as (c & w1 & Hgen & Hrun).
  apply bind_Ok_inv in Hrun as ([r oe] & w2 & Hfin & Hrun).
  destruct (only_trace_generate _ _ _ _ _ _ Hgen) as (Hv1 & Hs1 & _).
  destruct (only_trace_finalize _ _ _ _ _ _ Hfin) as (Hv2 & Hs2 & _).
  assert (Hself : vfiles w2 !! self = Some v) by (rewrite Hv2, Hv1; done).
  unfold bind in Hrun at 1. rewrite (modify_vf_run _ _ _ _ Hself) in Hrun.
  simpl in Hrun. destruct oe as [err|]; [unfold fail in Hrun; discriminate|].
  destruct (finalize_Ok_Some _ _ _ _ _ _ Hfin) as [d ->].
  exists c, w1, d, w2. split; [done|]. split; [done|].
  destruct s as [sa|].
  - unfold setFinalized in Hrun. unfold bind in Hrun at 1.
    destruct (srcs w2 !! sa) as [s0|] eqn:Hs0.
    2:{ rewrite modify_src_miss in Hrun by done. discriminate. }
    rewrite (modify_src_run _ _ _ s0) in Hrun by done.
    unfold bind in Hrun. rewrite call_run in Hrun.
    destruct (map_encode sv d) as [e'|raw] eqn:Henc; [discriminate|].
    erewrite modify_src_run in Hrun by (simpl; apply lookup_insert_eq).
    simplify_eq. simpl. split; [congruence|].
    exists s0, raw. rewrite insert_insert_eq.
    repeat split; try congruence.
  - unfold ret in Hrun. simplify_eq. simpl.
    split; [congruence|]. split; congruence.
Qed.

Lemma Init_memoized (sv : Services) (self : addr) (v : Vagrantfile)
    (w : world) (final : LoadLocation) (sa : addr) (s : source) (f : cfg) :
  vfiles w !! self = Some v →
  last (locations_of v) = Some final →
  final ∈ ValidRootLocations →
  sources v !! final = Some sa →
  srcs w !! sa = Some s →
  finalized s = Some f →
  Init sv self w
  = (Ok (), World (<[self := set_root (Some f) v]> (vfiles w)) (srcs w)
              (trace w)).
Proof.
  intros Hv Hlast Hvalid Hsa Hs Hf.
  unfold Init, bind, get_vf. rewrite Hv, Hlast.
  rewrite decide_True by exact Hvalid.
  rewrite Hsa. unfold bind, get_src. rewrite Hs, Hf.
  by rewrite (modify_vf_run _ _ _ _ Hv).
Qed.

(** A run of [Init] that ends well: the root is set, the source of a final
    root location holds the root as its finalized tree, and no other source
    struct changed. *)
Lemma Init_Ok_inv (sv : Services) (self : addr) (v : Vagrantfile)
    (w w' : world) :
  vfiles w !! self = Some v →
  Init sv self w = (Ok (), w') →
  ∃ d,
    vfiles w' = <[self := set_root (Some d) v]> (vfiles w) ∧
    (∀ final sa, last (locations_of v) = Some final →
                 final ∈ ValidRootLocations →
                 sources v !! final = Some sa →
                 ∃ s', srcs w' !! sa = Some s' ∧ finalized s' = Some d) ∧
    (∀ x, (∀ final, last (locations_of v) = Some final →
                    final ∈ ValidRootLocations →
                    sources v !! final ≠ Some x) →
          srcs w' !! x = srcs w !! x).
Proof.
  intros Hv Hrun.
  assert (Hnone : Init_generate sv self v (locations_of v) None w = (Ok (), w') →
    (∀ final, last (locations_of v) = Some final →
              final ∉ ValidRootLocations) →
    ∃ d,
      vfiles w' = <[self := set_root (Some d) v]> (vfiles w) ∧
      (∀ final sa, last (locations_of v) = Some final →
                   final ∈ ValidRootLocations →
                   sources v !! final = Some sa →
                   ∃ s', srcs w' !! sa = Some s' ∧ finalized s' = Some d) ∧
      (∀ x, (∀ final, last (locations_of v) = Some final →
                      final ∈ ValidRootLocations →
                      sources v !! final ≠ Some x) →
            srcs w' !! x = srcs w !! x)).
  { intros H Hinv.
    destruct (Init_generate_Ok _ _ _ _ _ _ _ Hv H)
      as (c & w1 & d & w2 & _ & _ & Hvf & Hsr & _).
    exists d. split; [done|]. split.
    - intros final sa Hl Hval. by destruct (Hinv _ Hl).
    - intros x _. by rewrite Hsr. }
  unfold Init in Hrun. unfold bind at 1, get_vf in Hrun. rewrite Hv in Hrun.
  destruct (last (locations_of v)) as [final|] eqn:Hlast;
    [|by apply Hnone].
  destruct (decide (final ∈ ValidRootLocations)) as [Hvalid|Hinvalid].
  2:{ apply Hnone; [done|]. intros ? [= <-]. done. }
  destruct (sources v !! final) as [sa|] eqn:Hsa;
    [|unfold crash in Hrun; discriminate].
  unfold bind, get_src in Hrun.
  destruct (srcs w !! sa) as [s|] eqn:Hs; [|discriminate].
  destruct (finalized s) as [f|] eqn:Hf.
  - rewrite (modify_vf_run _ _ _ _ Hv) in Hrun. simplify_eq.
    exists f. simpl. split; [done|]. split.
    + intros final' sa' [= <-] _ Hsa'. exists s. split; congruence.
    + done.
  - destruct (Init_generate_Ok _ _ _ _ _ _ _ Hv Hrun)
      as (c & w1 & d & w2 & _ & _ & Hvf & s0 & raw & Hs0 & _ & Hsr & _).
    exists d. split; [done|]. split.
    + intros final' sa' [= <-] _ Hsa'. assert (sa' = sa) as -> by congruence.
      rewrite Hsr, lookup_insert_eq. eexists. split; [done|]. done.
    + intros x Hx. rewrite Hsr, lookup_insert_ne; [done|].
      intros ->. by apply (Hx final).
Qed.

Ltac highest :=
  split; [by eexists
         | intros l' [x Hx]; destruct l'; simpl; try lia;
           vm_compute in Hx; discriminate].

Ltac computed_run :=
  apply injective_projections; [vm_compute; reflexivity | reflexivity].

Lemma GetValue_loop_no_panic (path rest : list string) (x : value) (p : panic) :
  GetValue_loop path rest x ≠ Panic p.
Proof.
  revert x. induction rest as [|seg rest IH]; intros x; simpl; [done|].
  destruct (as_string_map x) as [sm|].
  { destruct (sm !! seg); [apply IH | done]. }
  destruct (as_config_data x) as [cd|].
  { destruct (cd !! seg); [apply IH | done]. }
  destruct (as_iface_map x) as [im|]; [|done].
  destruct (imap_find seg im); [apply IH | done].
Qed.

(** X7: a run of [Init] that returns nil leaves the instance with a root,
    and from then on no read dereferences nil: [GetConfig], [getNamespace],
    [GetValue] on any path and [TargetNames] return a value or an error. *)
Theorem Init_makes_reads_safe (sv : Services) (self : addr) (w w' : world) :
  Init sv self w = (Ok (), w') →
  ∃ v' d,
    vfiles w' !! self = Some v' ∧ root v' = Some d ∧
    (∀ namespace p, GetConfig v' namespace ≠ Panic p) ∧
    (∀ n p, getNamespace v' n ≠ Panic p) ∧
    (∀ path p, GetValue v' path ≠ Panic p) ∧
    (∀ p, TargetNames v' ≠ Panic p).
Proof.
  intros Hrun.
  destruct (vfiles w !! self) as [v|] eqn:Hv.
  2:{ unfold Init, bind, get_vf in Hrun. rewrite Hv in Hrun. discriminate. }
  destruct (Init_Ok_inv _ _ _ _ _ Hv Hrun) as (d & Hvf & _).
  exists (set_root (Some d) v), d.
  split; [by rewrite Hvf, lookup_insert_eq|]. split; [done|].
  assert (Hns : ∀ n, getNamespace (set_root (Some d) v) n
                     = Ok (namespace_of d n)).
  { intros n. by apply getNamespace_rooted. }
  repeat split.
  - intros ns p. unfold GetConfig, root_Data. simpl.
    destruct (d !! ns) as [[]|]; discriminate.
  - intros n p. rewrite Hns. discriminate.
  - intros path p. unfold GetValue. destruct path as [|p0 rest]; [done|].
    rewrite Hns. simpl. apply GetValue_loop_no_panic.
  - intros p. unfold TargetNames. rewrite Hns.
    destruct (namespace_of d "vm") as [vm|]; [|done].
    destruct (vm !! "__defined_vm_keys") as [[]|]; try done.
    by destruct (decide _).
Qed.

Lemma Init_makes_reads_safe_witness :
  ∃ v' d,
    vfiles (Init demo 1 w_project).2 !! 1 = Some v' ∧ root v' = Some d ∧
    (∀ namespace p, GetConfig v' namespace ≠ Panic p) ∧
    (∀ n p, getNamespace v' n ≠ Panic p) ∧
    (∀ path p, GetValue v' path ≠ Panic p) ∧
    (∀ p, TargetNames v' ≠ Panic p).
Proof. apply (Init_makes_reads_safe demo 1 w_project). computed_run. Defined.

Lemma range_keys_empty (sv : Services) : range_keys sv ∅ = [].
Proof.
  apply Permutation_nil_r. rewrite (range_keys_perm sv ∅).
  by rewrite elements_empty.
Qed.

Lemma Init_no_sources_run (sv : Services) (self : addr) (v : Vagrantfile)
    (w : world) :
  vfiles w !! self = Some v →
  sources v = ∅ →
  Init sv self w
  = (Ok (), World (<[self := set_root (Some ∅) v]> (vfiles w)) (srcs w)
              (trace w)).
Proof.
  intros Hv Hs. unfold Init, bind, get_vf. rewrite Hv.
  assert (Hl : locations_of v = []).
  { unfold locations_of. rewrite Hs. reflexivity. }
  rewrite Hl. simpl. unfold Init_generate, generate.
  unfold bind at 1, ret. unfold bind at 1, finalize.
  rewrite dom_empty_L, range_keys_empty. simpl. unfold ret.
  unfold bind. by rewrite (modify_vf_run _ _ _ _ Hv).
Qed.

(** X8: [Init] on an instance without any source returns nil and makes
    the empty tree the root, without a call to a plugin or to the mapping
    service. *)
Theorem Init_without_sources (sv : Services) (self : addr) (v : Vagrantfile)
    (w : world) :
  vfiles w !! self = Some v →
  sources v = ∅ →
  Init sv self w
  = (Ok (), World (<[self := set_root (Some ∅) v]> (vfiles w)) (srcs w)
              (trace w)).
Proof. apply Init_no_sources_run. Qed.

Lemma Init_without_sources_witness :
  Init demo 1 w_empty
  = (Ok (), World (<[1 := set_root (Some ∅) vf_fresh]> (vfiles w_empty))
              (srcs w_empty) (trace w_empty)).
Proof. apply Init_without_sources; reflexivity. Defined.

(** X9: when the highest location with a source is a valid root
    location, [Init] is idempotent: after a run that returned nil, a second
    run returns nil and changes nothing, not even the trace (it takes the
    finalized tree the first run left in the source). *)
Theorem Init_twice (sv : Services) (self : addr) (v : Vagrantfile)
    (final : LoadLocation) (w w' : world) :
  vfiles w !! self = Some v →
  highest_present v final →
  final ∈ ValidRootLocations →
  Init sv self w = (Ok (), w') →
  Init sv self w' = (Ok (), w').
Proof.
  intros Hv Hhi Hvalid Hrun.
  pose proof (locations_of_last _ _ Hhi) as Hlast.
  destruct Hhi as [[sa Hsa] _].
  destruct (Init_Ok_inv _ _ _ _ _ Hv Hrun) as (d & Hvf & Hmemo & _).
  destruct (Hmemo _ _ Hlast Hvalid Hsa) as (s' & Hs' & Hfin).
  erewrite (Init_memoized sv self (set_root (Some d) v) w' final sa s' d);
    try done.
  - f_equal. destruct w' as [vf sr tr]. simpl in *. f_equal.
    subst vf. by rewrite insert_insert_eq.
  - by rewrite Hvf, lookup_insert_eq.
Qed.

Lemma Init_twice_witness :
  Init demo 1 (Init demo 1 w_project).2 = (Ok (), (Init demo 1 w_project).2).
Proof.
  apply (Init_twice demo 1 vf_project VAGRANTFILE_PROJECT w_project).
  - reflexivity.
  - highest.
  - set_solver.
  - computed_run.
Defined.

Lemma Source_Ok_inv (sv : Services) (self : addr) (v : Vagrantfile)
    (f : vagrantfile_proto) (l : LoadLocation) (w w' : world) :
  vfiles w !! self = Some v →
  Source sv self (Some f) l w = (Ok (), w') →
  ∃ s evs,
    newSource sv f w = (Ok s, World (vfiles w) (srcs w) (trace w ++ evs)) ∧
    (∀ ev, ev ∈ evs → ∃ h, ev = EvDecode h) ∧
    (Finalized f = None → finalized s = None) ∧
    w' = World (<[self := set_sources (<[l := fresh (dom (srcs w))]> (sources v))
                            v]> (vfiles w))
               (<[fresh (dom (srcs w)) := s]> (srcs w))
               (trace w ++ evs).
Proof.
  intros Hv Hrun. rewrite (Source_run _ _ _ _ _ _ Hv) in Hrun.
  rewrite newSource_run in *.
  destruct (map_decode sv (Unfinalized f)) as [e|u]; [discriminate|].
  destruct (Finalized f) as [h|] eqn:Hf.
  - destruct (map_decode sv (Some h)) as [e|fin]; [discriminate|].
    simplify_eq. eexists _, _. split; [reflexivity|]. split; [|done].
    intros ev [->|[->|[]%elem_of_nil]%elem_of_cons]%elem_of_cons; eauto.
  - simplify_eq. eexists _, _. split; [reflexivity|]. split; [|done].
    intros ev [->|[]%elem_of_nil]%elem_of_cons; eauto.
Qed.

(** X10: once a run of [Init] has left its finalized tree in the source
    of the highest location, a valid root location, a source added afterwards
    at a lower location is never looked at: the next [Init] returns nil with
    the same root as before, and asks no plugin. *)
Theorem Init_ignores_lower_source (sv : Services) (self : addr)
    (v : Vagrantfile) (final l : LoadLocation) (f : vagrantfile_proto)
    (w w1 w2 : world) :
  vfiles w !! self = Some v →
  highest_present v final →
  final ∈ ValidRootLocations →
  Init sv self w = (Ok (), w1) →
  LoadLocation_to_nat l < LoadLocation_to_nat final →
  Source sv self (Some f) l w1 = (Ok (), w2) →
  ∃ w3, Init sv self w2 = (Ok (), w3) ∧
        root_at w3 self = root_at w1 self ∧
        trace w3 = trace w2.
Proof.
  intros Hv Hhi Hvalid Hinit Hlt Hsrc.
  pose proof (locations_of_last _ _ Hhi) as Hlast.
  destruct Hhi as [[sa Hsa] Hmax].
  destruct (Init_Ok_inv _ _ _ _ _ Hv Hinit) as (d & Hvf & Hmemo & _).
  destruct (Hmemo _ _ Hlast Hvalid Hsa) as (s' & Hs' & Hfin).
  assert (Hv1 : vfiles w1 !! self = Some (set_root (Some d) v)).
  { by rewrite Hvf, lookup_insert_eq. }
  destruct (Source_Ok_inv _ _ _ _ _ _ _ Hv1 Hsrc) as (s & evs & _ & _ & _ & ->).
  assert (Hne : l ≠ final) by (intros ->; lia).
  eexists. split.
  - eapply (Init_memoized sv self _ _ final sa s' d).
    + simpl. apply lookup_insert_eq.
    + apply locations_of_last. split.
      * simpl. rewrite lookup_insert_ne by done. eauto.
      * intros l' Hl'. simpl in Hl'.
        destruct (decide (l' = l)) as [->|Hl]; [lia|].
        rewrite lookup_insert_ne in Hl' by done. by apply Hmax.
    + done.
    + simpl. by rewrite lookup_insert_ne.
    + simpl. rewrite lookup_insert_ne; [done|].
      intros Heq. pose proof (is_fresh (dom (srcs w1))) as Hfr.
      rewrite Heq in Hfr. apply Hfr, elem_of_dom. eauto.
    + done.
  - split; [|done]. unfold root_at. simpl.
    by rewrite lookup_insert_eq, Hv1.
Qed.

Lemma Init_ignores_lower_source_witness :
  let w1 := (Init demo 1 w_project).2 in
  let w2 := (Source demo 1 (Some (VagrantfileProto (Some 3) None))
               VAGRANTFILE_BOX w1).2 in
  ∃ w3, Init demo 1 w2 = (Ok (), w3) ∧
        root_at w3 1 = root_at w1 1 ∧ trace w3 = trace w2.
Proof.
  apply (Init_ignores_lower_source demo 1 vf_project VAGRANTFILE_PROJECT
           VAGRANTFILE_BOX (VagrantfileProto (Some 3) None) w_project).
  - reflexivity.
  - highest.
  - set_solver.
  - computed_run.
  - simpl. lia.
  - computed_run.
Defined.

(** X11: a fragment that carries a finalized payload, added at a valid
    root location above every other source, makes the next [Init] adopt the
    decoded payload as the root: the only calls of the two operations are the
    two decodes of [Source]; no plugin merges or finalizes, nothing is
    encoded. *)
Theorem Source_finalized_then_Init (sv : Services) (self : addr)
    (v : Vagrantfile) (l : LoadLocation) (f : vagrantfile_proto)
    (h : wire_hash) (u fin : cfg) (w : world) :
  vfiles w !! self = Some v →
  l ∈ ValidRootLocations →
  (∀ l', is_Some (sources v !! l') →
         LoadLocation_to_nat l' ≤ LoadLocation_to_nat l) →
  map_decode sv (Unfinalized f) = inr u →
  Finalized f = Some h →
  map_decode sv (Some h) = inr fin →
  ∃ w1 w2,
    Source sv self (Some f) l w = (Ok (), w1) ∧
    Init sv self w1 = (Ok (), w2) ∧
    root_at w2 self = Some fin ∧
    trace w2 = trace w ++ [EvDecode (Unfinalized f); EvDecode (Some h)].
Proof.
  intros Hv Hvalid Hmax Hu Hf Hfin.
  rewrite (Source_run _ _ _ _ _ _ Hv), newSource_run, Hu, Hf, Hfin.
  eexists _, _. split; [reflexivity|].
  split.
  - eapply (Init_memoized sv self _ _ l (fresh (dom (srcs w))) _ fin).
    + simpl. apply lookup_insert_eq.
    + apply locations_of_last. split.
      * simpl. rewrite lookup_insert_eq. eauto.
      * intros l' Hl'. simpl in Hl'.
        destruct (decide (l' = l)) as [->|Hl]; [lia|].
        rewrite lookup_insert_ne in Hl' by done. by apply Hmax.
    + done.
    + simpl. apply lookup_insert_eq.
    + simpl. apply lookup_insert_eq.
    + done.
  - simpl. split; [|done]. unfold root_at. simpl.
    by rewrite lookup_insert_eq.
Qed.

Lemma Source_finalized_then_Init_witness :
  ∃ w1 w2,
    Source demo 1 (Some (VagrantfileProto (Some 3) (Some 1)))
      VAGRANTFILE_PROJECT w_empty = (Ok (), w1) ∧
    Init demo 1 w1 = (Ok (), w2) ∧
    root_at w2 1 = Some box_tree ∧
    trace w2 = trace w_empty ++ [EvDecode (Some 3); EvDecode (Some 1)].
Proof.
  apply (Source_finalized_then_Init demo 1 vf_fresh VAGRANTFILE_PROJECT
           (VagrantfileProto (Some 3) (Some 1)) 1 ssh_tree box_tree w_empty);
    try reflexivity;
    first [ intros l' [x Hx]; vm_compute in Hx; destruct l'; discriminate
          | set_solver ].
Defined.

(** X12: when the source of the highest location, a valid root location,
    has no finalized tree yet, a run of [Init] that returns nil leaves the
    root in that source and its encoded form in the fragment of the source:
    [GetSource] then returns the fragment with the finalized payload set. *)
Theorem Init_stores_finalized (sv : Services) (self : addr) (v : Vagrantfile)
    (final : LoadLocation) (sa : addr) (s0 : source) (w w' : world) :
  vfiles w !! self = Some v →
  highest_present v final →
  final ∈ ValidRootLocations →
  sources v !! final = Some sa →
  srcs w !! sa = Some s0 →
  finalized s0 = None →
  Init sv self w = (Ok (), w') →
  ∃ v' d raw,
    vfiles w' !! self = Some v' ∧ root v' = Some d ∧
    map_encode sv d = inr raw ∧
    GetSource w' v' final
    = Returned (VagrantfileProto (Unfinalized (base s0)) (Some raw)) ∧
    (finalized <$> srcs w' !! sa) = Some (Some d) ∧
    (unfinalized <$> srcs w' !! sa) = Some (unfinalized s0).
Proof.
  intros Hv Hhi Hvalid Hsa Hs0 Hnone Hrun.
  pose proof (locations_of_last _ _ Hhi) as Hlast.
  unfold Init in Hrun. unfold bind at 1, get_vf in Hrun.
  rewrite Hv, Hlast in Hrun. rewrite decide_True in Hrun by done.
  rewrite Hsa in Hrun. unfold bind at 1, get_src in Hrun.
  rewrite Hs0, Hnone in Hrun.
  destruct (Init_generate_Ok _ _ _ _ _ _ _ Hv Hrun)
    as (c & w1 & d & w2 & _ & _ & Hvf & s1 & raw & Hs1 & Henc & Hsr & _).
  assert (s1 = s0) as -> by congruence.
  exists (set_root (Some d) v), d, raw.
  split; [by rewrite Hvf, lookup_insert_eq|]. split; [done|].
  split; [done|]. split.
  - unfold GetSource. simpl. by rewrite Hsa, Hsr, lookup_insert_eq.
  - by rewrite Hsr, lookup_insert_eq.
Qed.

Lemma Init_stores_finalized_witness :
  ∃ v' d raw,
    vfiles (Init demo 1 w_project).2 !! 1 = Some v' ∧ root v' = Some d ∧
    map_encode demo d = inr raw ∧
    GetSource (Init demo 1 w_project).2 v' VAGRANTFILE_PROJECT
    = Returned (VagrantfileProto (Unfinalized (base (src_of box_tree)))
                  (Some raw)) ∧
    (finalized <$> srcs (Init demo 1 w_project).2 !! 6) = Some (Some d) ∧
    (unfinalized <$> srcs (Init demo 1 w_project).2 !! 6)
    = Some (unfinalized (src_of box_tree)).
Proof.
  apply (Init_stores_finalized demo 1 vf_project VAGRANTFILE_PROJECT 6
           (src_of box_tree) w_project);
    try reflexivity; first [computed_run | highest | set_solver].
Defined.

(** X13: a clone shares the source structs of its parent, and [Init]
    writes through them.  When the highest location with a source is a valid
    root location, a run of [Init] on the clone that returns nil leaves its
    root in the shared source, and the next [Init] of the parent adopts that
    tree without asking any plugin. *)
Theorem clone_Init_feeds_parent (sv : Services) (self : addr) (name : string)
    (o : originScope) (v : Vagrantfile) (final : LoadLocation)
    (w w1 w2 : world) (n : addr) :
  vfiles w !! self = Some v →
  highest_present v final →
  final ∈ ValidRootLocations →
  clone self name (Some o) w = (Ok n, w1) →
  Init sv n w1 = (Ok (), w2) →
  ∃ w3, Init sv self w2 = (Ok (), w3) ∧
        root_at w3 self = root_at w2 n ∧
        is_Some (root_at w2 n) ∧
        trace w3 = trace w2.
Proof.
  intros Hv Hhi Hvalid Hclone Hinit.
  pose proof (locations_of_last _ _ Hhi) as Hlast.
  destruct Hhi as [[sa Hsa] _].
  rewrite (clone_run _ _ _ _ _ Hv) in Hclone.
  assert (Hne : fresh (dom (vfiles w)) ≠ self).
  { intros Heq. pose proof (is_fresh (dom (vfiles w))) as Hfr.
    rewrite Heq in Hfr. apply Hfr, elem_of_dom. eauto. }
  simplify_eq.
  set (n := fresh (dom (vfiles w))) in *.
  set (nv := Vagrantfile_ ∅ (Some o) (registrations v) None (sources v)
               (Some o)) in *.
  assert (Hn : vfiles (World (<[n := nv]> (vfiles w)) (srcs w)
                         (trace w ++ [EvNewInternal o; EvCloser o n])) !! n
               = Some nv) by (simpl; apply lookup_insert_eq).
  destruct (Init_Ok_inv _ _ _ _ _ Hn Hinit) as (d & Hvf & Hmemo & _).
  destruct (Hmemo final sa Hlast Hvalid Hsa) as (s' & Hs' & Hfin).
  assert (Hself : vfiles w2 !! self = Some v).
  { rewrite Hvf. simpl. by rewrite !lookup_insert_ne. }
  eexists. split.
  - by eapply (Init_memoized sv self v w2 final sa s' d).
  - unfold root_at. simpl. rewrite lookup_insert_eq. simpl.
    rewrite Hvf. simpl. rewrite lookup_insert_eq. simpl. eauto.
Qed.

Lemma clone_Init_feeds_parent_witness :
  let w1 := (clone 1 "web" (Some 0) w_project).2 in
  let w2 := (Init demo 2 w1).2 in
  ∃ w3, Init demo 1 w2 = (Ok (), w3) ∧
        root_at w3 1 = root_at w2 2 ∧
        is_Some (root_at w2 2) ∧
        trace w3 = trace w2.
Proof.
  intros w1 w2.
  apply (clone_Init_feeds_parent demo 1 "web" 0 vf_project VAGRANTFILE_PROJECT
           w_project w1 w2 2);
    try reflexivity; first [computed_run | highest | set_solver].
Defined.

(** ** Finalize *)

Section Finalize.

Variable sv : Services.
Variable v : Vagrantfile.
Variable conf : cfg.

Lemma finalize_loop_step (k : string) (ks : list string) (acc : cfg)
    (w : world) (val : value) :
  finalized_value sv v conf k = Some val →
  ∃ evs w1,
    trace w1 = trace w ++ evs ∧ Forall is_finalize_or_component evs ∧
    finalize_loop sv v conf (k :: ks) acc w
    = finalize_loop sv v conf ks (<[k := val]> acc) w1.
Proof.
  intros Hval. simpl. unfold bind at 1. unfold catch at 1.
  destruct (componentForKey_cases sv v k w) as (rc & evc & Hc & Hevc & Hres).
  assert (Hevc' : Forall is_finalize_or_component evc).
  { eapply Forall_impl; [exact Hevc|]. by intros []. }
  rewrite Hc. unfold finalized_value in Hval.
  destruct (conf !! k) as [[]|]; try discriminate.
  destruct rc as [c|e|p]; [|by rewrite Hres in Hval|done].
  rewrite Hres in Hval. simpl in Hval. simpl.
  unfold bind at 1. unfold catch at 1. rewrite call_run.
  destruct (config_finalize sv c d) as [e|m]; [discriminate|].
  simplify_eq.
  exists (evc ++ [EvFinalize k c d]),
    (World (vfiles w) (srcs w) ((trace w ++ evc) ++ [EvFinalize k c d])).
  simpl. split; [by rewrite app_assoc|]. split; [|reflexivity].
  apply Forall_app. split; [done|]. by repeat constructor.
Qed.

Lemma finalize_loop_stop (k : string) (ks : list string) (acc : cfg)
    (w : world) :
  finalized_value sv v conf k = None →
  ∃ r e w1, finalize_loop sv v conf (k :: ks) acc w = (Ok (r, Some e), w1).
Proof.
  intros Hval. simpl. unfold bind at 1. unfold catch at 1.
  destruct (componentForKey_cases sv v k w) as (rc & evc & Hc & Hevc & Hres).
  rewrite Hc. unfold finalized_value in Hval.
  destruct rc as [c|e|p]; [|unfold ret; eauto|done].
  rewrite Hres in Hval.
  destruct (conf !! k) as [x|]; simpl; [|unfold ret; eauto].
  destruct x; try (unfold ret; by eauto).
  simpl in Hval. unfold bind at 1. unfold catch at 1. rewrite call_run.
  destruct (config_finalize sv c d) as [e|m]; [|discriminate].
  unfold ret. eauto.
Qed.

(** What a run of the loop of [finalize] that ends without error has done. *)
Lemma finalize_loop_Ok (ks : list string) :
  NoDup ks →
  ∀ (acc : cfg) (w : world) (r : cfg) (w' : world),
    finalize_loop sv v conf ks acc w = (Ok (Some r, None), w') →
    (∀ k, r !! k = if decide (k ∈ ks) then finalized_value sv v conf k
                   else acc !! k) ∧
    (∀ k, k ∈ ks → is_Some (finalized_value sv v conf k)) ∧
    ∃ evs, trace w' = trace w ++ evs ∧ Forall is_finalize_or_component evs.
Proof.
  induction ks as [|k ks IH]; intros Hnd acc w r w' Hrun.
  - simpl in Hrun. unfold ret in Hrun. simplify_eq. repeat split.
    + intros k Hk. by apply elem_of_nil in Hk.
    + exists []. by rewrite app_nil_r.
  - apply NoDup_cons in Hnd as [Hk Hnd].
    destruct (finalized_value sv v conf k) as [val|] eqn:Hval.
    2:{ destruct (finalize_loop_stop k ks acc w Hval) as (r0 & e & w0 & Hstop).
        congruence. }
    destruct (finalize_loop_step k ks acc w val Hval)
      as (evs1 & w1 & Ht1 & Hev1 & Hstep).
    rewrite Hstep in Hrun.
    destruct (IH Hnd _ _ _ _ Hrun) as (Hr & Hall & evs & Ht & Hev).
    split; [|split].
    + intros k0. rewrite Hr. destruct (decide (k0 = k)) as [->|Hne].
      * rewrite decide_False by done.
        rewrite decide_True by (apply elem_of_cons; by left).
        by rewrite lookup_insert_eq.
      * rewrite lookup_insert_ne by done.
        destruct (decide (k0 ∈ ks)).
        -- rewrite decide_True by (apply elem_of_cons; by right). done.
        -- rewrite decide_False; [done|].
           intros [?|?]%elem_of_cons; contradiction.
    + intros k0 [->|Hin]%elem_of_cons; [by rewrite Hval | by apply Hall].
    + exists (evs1 ++ evs). split; [by rewrite Ht, Ht1, app_assoc|].
      by apply Forall_app.
Qed.

Lemma finalize_loop_total (ks : list string) :
  (∀ k, k ∈ ks → is_Some (finalized_value sv v conf k)) →
  ∀ (acc : cfg) (w : world),
    ∃ r w', finalize_loop sv v conf ks acc w = (Ok (Some r, None), w').
Proof.
  induction ks as [|k ks IH]; intros Hall acc w.
  - simpl. unfold ret. eauto.
  - destruct (Hall k) as [val Hval]; [by left|].
    destruct (finalize_loop_step k ks acc w val Hval) as (evs1 & w1 & _ & _ & ->).
    apply IH. intros k' Hk'. apply Hall. by right.
Qed.

(** The loop always hands back a pair, with or without an error in it. *)
Lemma finalize_loop_returns (ks : list string) (acc : cfg) (w : world) :
  ∃ r oe w', finalize_loop sv v conf ks acc w = (Ok (r, oe), w').
Proof.
  revert acc w. induction ks as [|k ks IH]; intros acc w.
  - simpl. unfold ret. eauto.
  - destruct (finalized_value sv v conf k) as [val|] eqn:Hval.
    + destruct (finalize_loop_step k ks acc w val Hval)
        as (evs1 & w1 & _ & _ & ->).
      apply IH.
    + destruct (finalize_loop_stop k ks acc w Hval) as (r & e & w1 & ->).
      eauto.
Qed.

End Finalize.

(** X14: [finalize] over a tree never panics and never mixes up
    namespaces.  It returns a tree without an error exactly when every
    namespace of the input holds a tree, has a component in the registry and
    that component's finalize accepts the tree; the result then has the
    namespaces of the input, each holding what its own component's finalize
    made of the input under it, and the only calls were component lookups and
    finalize calls.  In every other case an error comes back. *)
Theorem finalize_namespaces (sv : Services) (v : Vagrantfile) (conf : cfg)
    (w : world) :
  (∀ r w', finalize sv v (Some conf) w = (Ok (Some r, None), w') →
     dom r = dom conf ∧
     (∀ k x, conf !! k = Some x →
        ∃ c a m,
          component_of sv v k = Some c ∧ x = VConfigData a ∧
          config_finalize sv c a = inr m ∧ r !! k = Some (VConfigData m)) ∧
     ∃ evs, appended w w' evs ∧ Forall is_finalize_or_component evs) ∧
  ((∀ k, k ∈ dom conf → is_Some (finalized_value sv v conf k))
   ↔ ∃ r w', finalize sv v (Some conf) w = (Ok (Some r, None), w')) ∧
  ((∃ k, k ∈ dom conf ∧ finalized_value sv v conf k = None)
   → ∃ r e w', finalize sv v (Some conf) w = (Ok (r, Some e), w')).
Proof.
  unfold finalize.
  assert (HOk : ∀ r w',
    finalize_loop sv v conf (range_keys sv (dom conf)) ∅ w
    = (Ok (Some r, None), w') →
    (∀ k, r !! k = if decide (k ∈ dom conf) then finalized_value sv v conf k
                   else None) ∧
    (∀ k, k ∈ dom conf → is_Some (finalized_value sv v conf k)) ∧
    ∃ evs, trace w' = trace w ++ evs ∧ Forall is_finalize_or_component evs).
  { intros r w' Hrun.
    destruct (finalize_loop_Ok sv v conf _ (range_keys_NoDup sv _) _ _ _ _ Hrun)
      as (Hr & Hall & Hev).
    split; [|split; [|exact Hev]].
    - intros k. rewrite Hr, lookup_empty.
      destruct (decide (k ∈ range_keys sv (dom conf))) as [Hin|Hin];
        rewrite range_keys_elem in Hin.
      + by rewrite decide_True.
      + by rewrite decide_False.
    - intros k Hk. apply Hall. by apply range_keys_elem. }
  split; [|split].
  - intros r w' Hrun. destruct (HOk r w' Hrun) as (Hr & Hall & Hev).
    split; [|split; [|exact Hev]].
    + apply set_eq. intros k. rewrite elem_of_dom, Hr.
      destruct (decide (k ∈ dom conf)) as [Hk|Hk].
      * split; [done|]. intros _. by apply Hall.
      * split; [by intros [? ?] | done].
    + intros k x Hx.
      assert (Hk : k ∈ dom conf) by (apply elem_of_dom; eauto).
      destruct (Hall k Hk) as [val Hval].
      rewrite Hr, decide_True by done. rewrite Hval.
      unfold finalized_value in Hval. rewrite Hx in Hval.
      destruct x; try discriminate.
      destruct (component_of sv v k) as [c|]; [|discriminate]. simpl in Hval.
      destruct (config_finalize sv c d) as [e|m] eqn:Hm; [discriminate|].
      exists c, d, m. by simplify_eq.
  - split.
    + intros Hall. apply finalize_loop_total.
      intros k Hk%range_keys_elem. by apply Hall.
    + intros (r & w' & Hrun). by destruct (HOk r w' Hrun) as (_ & Hall & _).
  - intros (k & Hk & Hnone).
    destruct (finalize_loop_returns sv v conf (range_keys sv (dom conf)) ∅ w)
      as (r & oe & w' & Hrun).
    destruct oe as [e|]; [eauto|].
    destruct (finalize_loop_Ok_Some _ _ _ _ _ _ _ _ Hrun) as [d ->].
    destruct (HOk d w' Hrun) as (_ & Hall & _).
    destruct (Hall k Hk) as [val Hval]. congruence.
Qed.

Lemma finalize_namespaces_witness :
  ∃ r w', finalize demo vf_fresh (Some box_tree) w_empty
          = (Ok (Some r, None), w').
Proof.
  apply (proj1 (proj1 (proj2 (finalize_namespaces demo vf_fresh box_tree
                                w_empty)))).
  intros k Hk. apply elem_of_dom in Hk as [x Hx].
  destruct (decide (k = "vm")) as [->|Hne].
  - vm_compute. eauto.
  - unfold box_tree in Hx. rewrite lookup_singleton_ne in Hx by done.
    discriminate.
Defined.

(** ** Reads, once the root is set *)

(** X15: on an instance with a root, [GetConfig] and [getNamespace]
    agree on the namespaces that hold a tree; where [getNamespace] returns
    nothing, [GetConfig] returns an error that tells an absent namespace from
    one that holds something else than a tree. *)
Theorem GetConfig_getNamespace (v : Vagrantfile) (d : cfg) (n : string) :
  root v = Some d →
  (∀ c, GetConfig v n = Ok c ↔ getNamespace v n = Ok (Some c)) ∧
  (getNamespace v n = Ok None ↔ ∃ e, GetConfig v n = Err e) ∧
  (GetConfig v n = Err (ErrNoConfig n) ↔ d !! n = None) ∧
  (GetConfig v n = Err (ErrInvalidNamespace n)
   ↔ ∃ x, d !! n = Some x ∧ as_config_data x = None).
Proof.
  intros Hr. unfold GetConfig, getNamespace, root_Data. rewrite Hr.
  destruct (d !! n) as [x|] eqn:Hx.
  - destruct x; simpl; split_and!; try intros c; split;
      first [ by intros H; discriminate H
            | by intros H; injection H as ->
            | by intros [e H]; discriminate H
            | by intros (y & Hy & Hn); injection Hy as <-; discriminate Hn
            | by intros _; eexists
            | by intros _; eexists; split; [reflexivity|reflexivity]
            | done ].
  - split_and!; try intros c; split;
      first [ by intros H; discriminate H
            | by intros (y & Hy & Hn); discriminate Hy
            | by intros _; eexists
            | done ].
Qed.

Lemma GetConfig_getNamespace_witness :
  (∀ c, GetConfig (vf_rooted vm_tree) "ssh" = Ok c
        ↔ getNamespace (vf_rooted vm_tree) "ssh" = Ok (Some c)) ∧
  (getNamespace (vf_rooted vm_tree) "ssh" = Ok None
   ↔ ∃ e, GetConfig (vf_rooted vm_tree) "ssh" = Err e) ∧
  (GetConfig (vf_rooted vm_tree) "ssh" = Err (ErrNoConfig "ssh")
   ↔ vm_tree !! "ssh" = None) ∧
  (GetConfig (vf_rooted vm_tree) "ssh" = Err (ErrInvalidNamespace "ssh")
   ↔ ∃ x, vm_tree !! "ssh" = Some x ∧ as_config_data x = None).
Proof. apply (GetConfig_getNamespace (vf_rooted vm_tree) vm_tree). reflexivity. Defined.

(** X16: for a namespace that is absent from the root or does not hold a
    tree, [GetValue] on the path of that one segment returns no error: it
    returns the empty mapping (the nil map boxed in the interface is not the
    nil interface, so the test after [getNamespace] never fires).  Only a
    longer path fails, with the lookup error of the whole path. *)
Theorem GetValue_absent_namespace (v : Vagrantfile) (d : cfg) (n : string) :
  root v = Some d →
  namespace_of d n = None →
  GetValue v [n] = Ok (VMap ∅) ∧
  ∀ p rest, GetValue v (n :: p :: rest) = Err (ErrLookup (n :: p :: rest)).
Proof.
  intros Hr Hn. unfold GetValue.
  rewrite (getNamespace_rooted _ _ _ Hr), Hn. simpl. split; [done|].
  intros p rest. by rewrite lookup_empty.
Qed.

Lemma GetValue_absent_namespace_witness :
  GetValue (vf_rooted vm_tree) ["ssh"] = Ok (VMap ∅) ∧
  ∀ p rest, GetValue (vf_rooted vm_tree) ("ssh" :: p :: rest)
            = Err (ErrLookup ("ssh" :: p :: rest)).
Proof.
  apply (GetValue_absent_namespace (vf_rooted vm_tree) vm_tree);
    reflexivity.
Defined.

Lemma GetValue_loop_app (path path' r1 r2 : list string) (x : value) :
  GetValue_loop path (r1 ++ r2) x
  = match GetValue_loop path' r1 x with
    | Ok y => GetValue_loop path r2 y
    | Err _ => Err (ErrLookup path)
    | Panic p => Panic p
    end.
Proof.
  revert x. induction r1 as [|seg r1 IH]; intros x; simpl; [done|].
  destruct (as_string_map x) as [sm|].
  { destruct (sm !! seg); [apply IH | done]. }
  destruct (as_config_data x) as [cd|].
  { destruct (cd !! seg); [apply IH | done]. }
  destruct (as_iface_map x) as [im|]; [|done].
  destruct (imap_find seg im); [apply IH | done].
Qed.

Lemma getNamespace_no_error (v : Vagrantfile) (n : string) (e : error) :
  getNamespace v n ≠ Err e.
Proof.
  unfold getNamespace, root_Data. destruct (root v) as [d|]; [|done].
  by destruct (d !! n) as [[]|].
Qed.

(** The loop over an interface map returns the first entry, in the order
    of the iteration, whose key passes the test. *)
Lemma imap_find_filter (p : string) (im : list (value * value)) :
  imap_find p im = snd <$> head (filter (λ kv, matches p kv.1) im).
Proof.
  induction im as [|[key val] im IH]; [done|].
  rewrite filter_cons. simpl.
  destruct key; simpl; try exact IH.
  - case_bool_decide; [by rewrite decide_True | by rewrite decide_False].
  - case_bool_decide; [by rewrite decide_True | by rewrite decide_False].
Qed.

Lemma imap_find_fair (p : string) (im im' : list (value * value)) :
  im' ≡ₚ im → one_match p im → imap_find p im' = imap_find p im.
Proof.
  intros Hperm Hone. rewrite !imap_find_filter. unfold one_match in Hone.
  assert (Hf : filter (λ kv, matches p kv.1) im
               ≡ₚ filter (λ kv, matches p kv.1) im') by (by rewrite Hperm).
  destruct (filter (λ kv, matches p kv.1) im) as [|kv [|kv' l]];
    simpl in Hone; [| |lia].
  - by rewrite (Permutation_nil_l _ ) in Hf; rewrite Hf.
  - by rewrite (Permutation_singleton_l _ _) in Hf; rewrite Hf.
Qed.

(** With at most one key per segment, the order of the iterations does not
    show. *)
Lemma GetValue_loop_in_fair (o : order) (i : nat) (path rest : list string)
    (x : value) :
  fair o → unambiguous rest x →
  GetValue_loop_in o i path rest x = GetValue_loop path rest x.
Proof.
  intros Ho. revert i x. induction rest as [|seg rest IH]; intros i x Hx;
    simpl in *; [done|].
  destruct (as_string_map x) as [sm|].
  { destruct (sm !! seg); [by apply IH | done]. }
  destruct (as_config_data x) as [cd|].
  { destruct (cd !! seg); [by apply IH | done]. }
  destruct (as_iface_map x) as [im|]; [|done].
  destruct Hx as [Hone Hx].
  rewrite (imap_find_fair seg im (o i im) (Ho i im) Hone).
  destruct (imap_find seg im); [by apply IH | done].
Qed.

Lemma unambiguous_app (r1 r2 : list string) (path : list string) (x y : value) :
  unambiguous (r1 ++ r2) x →
  GetValue_loop path r1 x = Ok y →
  unambiguous r1 x ∧ unambiguous r2 y.
Proof.
  revert x. induction r1 as [|seg r1 IH]; intros x Hx Hy; simpl in *.
  { by simplify_eq. }
  destruct (as_string_map x) as [sm|].
  { destruct (sm !! seg); [by apply IH | done]. }
  destruct (as_config_data x) as [cd|].
  { destruct (cd !! seg); [by apply IH | done]. }
  destruct (as_iface_map x) as [im|]; [|done].
  destruct Hx as [Hone Hx].
  destruct (imap_find seg im); [|done].
  destruct (IH _ Hx Hy). by repeat split.
Qed.

Lemma unambiguous_prefix (r1 r2 : list string) (x : value) :
  unambiguous (r1 ++ r2) x → unambiguous r1 x.
Proof.
  revert x. induction r1 as [|seg r1 IH]; intros x Hx; simpl in *; [done|].
  destruct (as_string_map x) as [sm|].
  { destruct (sm !! seg); [by apply IH | done]. }
  destruct (as_config_data x) as [cd|].
  { destruct (cd !! seg); [by apply IH | done]. }
  destruct (as_iface_map x) as [im|]; [|done].
  destruct Hx as [Hone Hx]. split; [done|].
  destruct (imap_find seg im); [by apply IH | done].
Qed.

Lemma GetValue_in_fair (o : order) (v : Vagrantfile) (path : list string) :
  fair o → unambiguous_path v path → GetValue_in o v path = GetValue v path.
Proof.
  intros Ho Hpath. destruct path as [|p0 rest]; [done|].
  unfold GetValue_in, GetValue, unambiguous_path in *.
  destruct (getNamespace v p0) as [ns|e|p]; [|done|done].
  simpl. by apply GetValue_loop_in_fair.
Qed.

(** X17: lookups compose along the path, whatever order Go picks for its
    iterations, as long as no interface map on the way holds two keys for
    the segment looked up in it (the string and the symbol of the same
    text).  Two lookups of the same path then agree; the lookup of a path
    extended by more segments is the walk of those segments from the value
    found at the path; and when the lookup of the path fails, the lookup of
    every extension fails too, with the error of the extended path. *)
Theorem GetValue_extend (o o' o'' : order) (v : Vagrantfile) (p0 : string)
    (rest more : list string) :
  fair o → fair o' → fair o'' →
  unambiguous_path v ((p0 :: rest) ++ more) →
  GetValue_in o v ((p0 :: rest) ++ more)
  = GetValue_in o' v ((p0 :: rest) ++ more) ∧
  GetValue_in o v ((p0 :: rest) ++ more)
  = match GetValue_in o' v (p0 :: rest) with
    | Ok x =>
        GetValue_loop_in o'' (S (length rest)) ((p0 :: rest) ++ more) more x
    | Err _ => Err (ErrLookup ((p0 :: rest) ++ more))
    | Panic p => Panic p
    end.
Proof.
  intros Ho Ho' Ho'' Hpath. split.
  { by rewrite !GetValue_in_fair. }
  rewrite (GetValue_in_fair o) by done.
  assert (Hpre : unambiguous_path v (p0 :: rest)).
  { simpl in *. destruct (getNamespace v p0); [|done|done].
    by eapply unambiguous_prefix. }
  rewrite (GetValue_in_fair o') by done.
  unfold GetValue. simpl in *.
  destruct (getNamespace v p0) as [ns|e|p] eqn:Hns;
    [|by apply getNamespace_no_error in Hns|done].
  simpl. rewrite (GetValue_loop_app _ (p0 :: rest)).
  destruct (GetValue_loop (p0 :: rest) rest (iface_of_map ns)) as [y|e|p]
    eqn:Hy; [|done|done].
  destruct (unambiguous_app _ _ _ _ _ Hpath Hy) as [_ Hmore].
  symmetry. by apply GetValue_loop_in_fair.
Qed.

Lemma GetValue_extend_witness :
  GetValue_in reversed (vf_rooted twin_tree) ["vm"; "box"; "version"; "major"]
  = Ok (VString "2").
Proof.
  assert (Hrev : fair reversed) by (intros i im; apply reverse_Permutation).
  assert (Hst : fair stored) by (intros i im; reflexivity).
  destruct (GetValue_extend reversed stored stored (vf_rooted twin_tree)
              "vm" ["box"] ["version"; "major"] Hrev Hst Hst) as [_ H].
  { vm_compute. split; [lia|exact I]. }
  exact H.
Defined.

(** Without that condition the order shows: with "name" held under the
    string and under the symbol, two iteration orders give two answers. *)
Remark GetValue_order_matters :
  fair stored ∧ fair reversed ∧
  GetValue_in stored (vf_rooted twin_tree) ["vm"; "box"; "name"]
  = Ok (VString "plain") ∧
  GetValue_in reversed (vf_rooted twin_tree) ["vm"; "box"; "name"]
  = Ok (VString "symbol").
Proof.
  split; [intros i im; reflexivity|].
  split; [intros i im; apply reverse_Permutation|].
  split; reflexivity.
Qed.

(** The order in which the entries are held is one of the orders Go may
    pick. *)
Remark GetValue_in_stored (v : Vagrantfile) (path : list string) :
  GetValue_in stored v path = GetValue v path.
Proof.
  destruct path as [|p0 rest]; [done|]. unfold GetValue_in, GetValue.
  destruct (getNamespace v p0) as [ns|e|p]; [|done|done]. simpl.
  generalize (p0 :: rest) (iface_of_map ns) 1.
  induction rest as [|seg rest IH]; intros path x i; simpl; [done|].
  destruct (as_string_map x) as [sm|].
  { destruct (sm !! seg); [apply IH | done]. }
  destruct (as_config_data x) as [cd|].
  { destruct (cd !! seg); [apply IH | done]. }
  destruct (as_iface_map x) as [im|]; [|done].
  unfold stored at 1. destruct (imap_find seg im); [apply IH | done].
Qed.

Lemma symbols_omap (l : list value) :
  symbols l = omap (λ x, match x with VSymbol s => Some s | _ => None end) l.
Proof.
  induction l as [|x l IH]; [done|]. destruct x; simpl; by rewrite ?IH.
Qed.

(** X18: when the "vm" namespace holds a list under "__defined_vm_keys",
    the target names are the symbols of that list, in its order; elements
    that are not symbols, plain strings included, are left out.  With no
    symbol in the list the single name is "default", and the primary target
    name is always there: the first symbol, or "default". *)
Theorem TargetNames_of_list (v : Vagrantfile) (d vm : cfg) (l : list value) :
  root v = Some d →
  d !! "vm" = Some (VConfigData vm) →
  vm !! "__defined_vm_keys" = Some (VList l) →
  let names :=
    omap (λ x, match x with VSymbol s => Some s | _ => None end) l in
  TargetNames v = Ok (if decide (names = []) then ["default"] else names) ∧
  PrimaryTargetName v = Ok (hd "default" names).
Proof.
  intros Hr Hvm Hl names.
  pose proof (TargetNames_listed v d vm l Hr Hvm Hl) as Ht.
  rewrite symbols_omap in Ht. fold names in Ht. split; [exact Ht|].
  unfold PrimaryTargetName. rewrite Ht.
  destruct names; reflexivity.
Qed.

Lemma TargetNames_of_list_witness :
  TargetNames (vf_rooted targets_tree) = Ok ["web"; "db"] ∧
  PrimaryTargetName (vf_rooted targets_tree) = Ok "web".
Proof.
  apply (TargetNames_of_list (vf_rooted targets_tree) targets_tree
           {[ "__defined_vm_keys" :=
                VList [VSymbol "web"; VString "cache"; VSymbol "db"] ]}
           [VSymbol "web"; VString "cache"; VSymbol "db"]); reflexivity.
Defined.

(** ** Computations that leave the Ruby parser alone *)

Section NoParse.

Context {A B : Type}.

Lemma no_parse_silent (m : M A) :
  (∀ w r w', m w = (r, w') → trace w' = trace w) → no_parse m.
Proof.
  intros Hm w r w' H. exists []. rewrite app_nil_r.
  split; [exact (Hm _ _ _ H) | constructor].
Qed.

Lemma no_parse_bind (m : M A) (k : A → M B) :
  no_parse m → (∀ a, no_parse (k a)) → no_parse (bind m k).
Proof.
  intros Hm Hk w r w' H. unfold bind in H.
  destruct (m w) as [[a|e|p] w1] eqn:Hmw;
    destruct (Hm _ _ _ Hmw) as (evs & Ht & Hev).
  - destruct (Hk a _ _ _ H) as (evs' & Ht' & Hev').
    exists (evs ++ evs'). split; [by rewrite Ht', Ht, app_assoc|].
    by apply Forall_app.
  - simplify_eq. eauto.
  - simplify_eq. eauto.
Qed.

Lemma no_parse_catch (m : M A) : no_parse m → no_parse (catch m).
Proof.
  intros Hm w r w' H. unfold catch in H.
  destruct (m w) as [[a|e|p] w1] eqn:Hmw; simplify_eq; exact (Hm _ _ _ Hmw).
Qed.

Lemma no_parse_call (ev : event) (x : error + A) :
  ¬ is_parse ev → no_parse (call ev x).
Proof.
  intros Hev w r w' H. rewrite call_run in H. simplify_eq. simpl.
  exists [ev]. split; [done|]. by repeat constructor.
Qed.

End NoParse.

Lemma no_parse_ret {A} (a : A) : no_parse (ret a).
Proof. apply no_parse_silent. intros w r w' H. unfold ret in H. by simplify_eq. Qed.

Lemma no_parse_fail {A} (e : error) : no_parse (@fail A e).
Proof. apply no_parse_silent. intros w r w' H. unfold fail in H. by simplify_eq. Qed.

Lemma no_parse_crash {A} (p : panic) : no_parse (@crash A p).
Proof. apply no_parse_silent. intros w r w' H. unfold crash in H. by simplify_eq. Qed.

Lemma no_parse_get_vf (a : addr) : no_parse (get_vf a).
Proof.
  apply no_parse_silent. intros w r w' H. unfold get_vf in H.
  destruct (vfiles w !! a); by simplify_eq.
Qed.

Lemma no_parse_get_src (a : addr) : no_parse (get_src a).
Proof.
  apply no_parse_silent. intros w r w' H. unfold get_src in H.
  destruct (srcs w !! a); by simplify_eq.
Qed.

Lemma no_parse_modify_vf (a : addr) (f : Vagrantfile → Vagrantfile) :
  no_parse (modify_vf a f).
Proof.
  apply no_parse_silent. intros w r w' H.
  destruct (vfiles w !! a) as [v|] eqn:Hv.
  - rewrite (modify_vf_run _ _ _ _ Hv) in H. by simplify_eq.
  - rewrite (modify_vf_miss _ _ _ Hv) in H. by simplify_eq.
Qed.

Lemma no_parse_modify_src (a : addr) (f : source → source) :
  no_parse (modify_src a f).
Proof.
  apply no_parse_silent. intros w r w' H.
  destruct (srcs w !! a) as [s|] eqn:Hs.
  - rewrite (modify_src_run _ _ _ _ Hs) in H. by simplify_eq.
  - rewrite (modify_src_miss _ _ _ Hs) in H. by simplify_eq.
Qed.

Create HintDb quiet.

#[local] Hint Resolve no_parse_ret no_parse_fail no_parse_crash
  no_parse_get_vf no_parse_get_src no_parse_modify_vf no_parse_modify_src
  no_parse_catch : quiet.

#[local] Hint Extern 1 (no_parse (call _ _)) =>
  apply no_parse_call; simpl; tauto : quiet.

Lemma no_parse_componentForKey (sv : Services) (v : Vagrantfile) (k : string) :
  no_parse (componentForKey sv v k).
Proof.
  unfold componentForKey.
  destruct (registrations v !! k) as [reg|]; [|auto with quiet].
  destruct (reg_plugin reg); auto with quiet.
Qed.

#[local] Hint Resolve no_parse_componentForKey : quiet.

Lemma no_parse_merge (sv : Services) (v : Vagrantfile) (b t : option cfg) :
  no_parse (merge sv v b t).
Proof.
  unfold merge. destruct b as [b|]; [|auto with quiet].
  destruct t as [t|]; [|auto with quiet].
  generalize (∅ : cfg). induction (range_keys sv (dom b ∪ dom t)) as [|k ks IH];
    intros acc; simpl; [auto with quiet|].
  apply no_parse_bind; [auto with quiet|]. intros c.
  destruct (b !! k) as [x|]; destruct (t !! k) as [y|]; simpl;
    auto with quiet.
  destruct x; auto with quiet. destruct y; auto with quiet.
  apply no_parse_bind; auto with quiet.
Qed.

Lemma no_parse_finalize (sv : Services) (v : Vagrantfile) (conf : option cfg) :
  no_parse (finalize sv v conf).
Proof.
  unfold finalize. destruct conf as [d|]; [|auto with quiet].
  generalize (∅ : cfg). induction (range_keys sv (dom d)) as [|k ks IH];
    intros acc; simpl; [auto with quiet|].
  apply no_parse_bind; [auto with quiet|]. intros [e|c]; [auto with quiet|].
  destruct (default VNil (d !! k)); auto with quiet.
  apply no_parse_bind; [auto with quiet|].
  intros [e|r]; auto with quiet.
Qed.

#[local] Hint Resolve no_parse_merge no_parse_finalize : quiet.

Lemma no_parse_generate (sv : Services) (v : Vagrantfile)
    (locs : list LoadLocation) : no_parse (generate sv v locs).
Proof.
  unfold generate. destruct locs as [|l0 locs]; [auto with quiet|].
  apply no_parse_bind.
  { unfold source_at. destruct (sources v !! l0); auto with quiet. }
  intros s. generalize (unfinalized s). clear s.
  induction locs as [|i locs IH]; intros c; simpl; [auto with quiet|].
  destruct (sources v !! i) as [sa|]; [|apply IH].
  destruct c.
  - apply no_parse_bind; [auto with quiet|]. intros s.
    apply no_parse_bind; [auto with quiet|]. intros r. apply IH.
  - apply no_parse_bind; [auto with quiet|]. intros s. apply IH.
Qed.

Lemma no_parse_setFinalized (sv : Services) (s : addr) (f : option cfg) :
  no_parse (setFinalized sv s f).
Proof.
  unfold setFinalized. apply no_parse_bind; [auto with quiet|]. intros _.
  destruct f; [|auto with quiet].
  apply no_parse_bind; auto with quiet.
Qed.

#[local] Hint Resolve no_parse_generate no_parse_setFinalized : quiet.

Lemma no_parse_Init_generate (sv : Services) (self : addr) (v : Vagrantfile)
    (locs : list LoadLocation) (s : option addr) :
  no_parse (Init_generate sv self v locs s).
Proof.
  unfold Init_generate. apply no_parse_bind; [auto with quiet|]. intros c.
  apply no_parse_bind; [auto with quiet|]. intros r.
  apply no_parse_bind; [auto with quiet|]. intros _.
  destruct r.2; [auto with quiet|]. destruct s; auto with quiet.
Qed.

Lemma no_parse_Init (sv : Services) (self : addr) : no_parse (Init sv self).
Proof.
  unfold Init. apply no_parse_bind; [auto with quiet|]. intros v.
  destruct (last (locations_of v)) as [final|];
    [|apply no_parse_Init_generate].
  destruct (decide _); [|apply no_parse_Init_generate].
  destruct (sources v !! final); [|auto with quiet].
  apply no_parse_bind; [auto with quiet|]. intros s.
  destruct (finalized s); [auto with quiet|].
  apply no_parse_Init_generate.
Qed.

Lemma filter_parse_nil (evs : list event) :
  Forall (λ ev, ¬ is_parse ev) evs → filter is_parse evs = [].
Proof.
  induction 1 as [|ev evs Hev _ IH]; [done|].
  rewrite filter_cons, decide_False by done. exact IH.
Qed.

(** ** Target configurations *)

Lemma wrap_Ok_inv {A} (msg : string) (m : M A) (w : world) (a : A)
    (w' : world) :
  wrap msg m w = (Ok a, w') → m w = (Ok a, w').
Proof.
  unfold wrap. destruct (m w) as [[x|e|p] w1]; intros H; by simplify_eq.
Qed.

Lemma valid_root_cases (l : LoadLocation) :
  l ∈ ValidRootLocations
  ↔ l = VAGRANTFILE_BASIS ∨ l = VAGRANTFILE_PROJECT ∨ l = VAGRANTFILE_TARGET.
Proof.
  unfold ValidRootLocations.
  rewrite !elem_of_union, !elem_of_singleton. tauto.
Qed.

Lemma fresh_src_ne (w : world) (x : addr) :
  x ∈ dom (srcs w) → x ≠ fresh (dom (srcs w)).
Proof. intros Hx ->. by apply is_fresh in Hx. Qed.

(** What the steps of [TargetConfig] between the parser and [Init] leave
    behind when they all return nil: the clone [n], with the new target
    source and, for a provider, the new provider source. *)
Lemma TargetConfig_sources (sv : Services) (n : addr) (nv0 : Vagrantfile)
    (provider : string) (raw : raw_ruby) (resp : wire_hash)
    (w4 w6 : world) (u1 u2 : unit) (w5 : world) :
  vfiles w4 !! n = Some nv0 →
  wrap "failed to add target config source"
    (Source sv n (Some (VagrantfileProto (Some resp) None))
       VAGRANTFILE_TARGET) w4 = (Ok u1, w5) →
  (if decide (provider = EmptyString) then ret ()
   else
     resp <- call (EvParseProvider provider raw)
               (parse_provider sv provider raw) ;;
     wrap "failed to add provider config source"
       (Source sv n (Some (VagrantfileProto (Some resp) None))
          VAGRANTFILE_PROVIDER)) w5 = (Ok u2, w6) →
  ∃ v6,
    vfiles w6 !! n = Some v6 ∧
    (∀ b, b ≠ n → vfiles w6 !! b = vfiles w4 !! b) ∧
    sources v6 !! VAGRANTFILE_TARGET = Some (fresh (dom (srcs w4))) ∧
    (∀ l, l ≠ VAGRANTFILE_TARGET → l ≠ VAGRANTFILE_PROVIDER →
          sources v6 !! l = sources nv0 !! l) ∧
    (provider ≠ EmptyString → is_Some (sources v6 !! VAGRANTFILE_PROVIDER)) ∧
    (provider = EmptyString →
     sources v6 !! VAGRANTFILE_PROVIDER = sources nv0 !! VAGRANTFILE_PROVIDER) ∧
    registrations v6 = registrations nv0 ∧ origin v6 = origin nv0 ∧
    cache v6 = cache nv0 ∧ root v6 = root nv0 ∧
    (∀ x, x ∈ dom (srcs w4) → srcs w6 !! x = srcs w4 !! x) ∧
    ∃ evs, trace w6 = trace w4 ++ evs ∧
           filter is_parse evs
           = if decide (provider = EmptyString) then []
             else [EvParseProvider provider raw].
Proof.
  intros Hn H1 H2. apply wrap_Ok_inv in H1. destruct u1.
  destruct (Source_Ok_inv _ _ _ _ _ _ _ Hn H1) as (s1 & evs1 & _ & Hd1 & _ & ->).
  assert (Hq1 : filter is_parse evs1 = []).
  { apply filter_parse_nil, Forall_forall. intros ev Hev.
    destruct (Hd1 ev Hev) as [h ->]. by intros []. }
  set (fr1 := fresh (dom (srcs w4))) in *.
  set (v5 := set_sources (<[VAGRANTFILE_TARGET := fr1]> (sources nv0)) nv0).
  destruct (decide (provider = EmptyString)) as [Hp|Hp].
  - unfold ret in H2. simplify_eq. exists v5. simpl.
    split; [apply lookup_insert_eq|].
    split; [intros b Hb; by rewrite lookup_insert_ne|].
    split; [apply lookup_insert_eq|].
    split; [intros l Hl _; by rewrite lookup_insert_ne|].
    split; [done|].
    split; [intros _; by rewrite lookup_insert_ne|].
    split; [done|]. split; [done|]. split; [done|]. split; [done|].
    split.
    + intros x Hx. rewrite lookup_insert_ne; [done|].
      by apply not_eq_sym, fresh_src_ne.
    + exists evs1. split; [done|]. exact Hq1.
  - apply bind_Ok_inv in H2 as (resp2 & w5' & Hcall & H2).
    rewrite call_run in Hcall.
    destruct (parse_provider sv provider raw); [discriminate|].
    simplify_eq. apply wrap_Ok_inv in H2. destruct u2.
    assert (Hn5 : vfiles (World (<[n:=v5]> (vfiles w4)) (<[fr1:=s1]> (srcs w4))
                            ((trace w4 ++ evs1) ++ [EvParseProvider provider raw]))
                  !! n = Some v5) by (simpl; apply lookup_insert_eq).
    destruct (Source_Ok_inv _ _ _ _ _ _ _ Hn5 H2) as (s2 & evs2 & _ & Hd2 & _ & ->).
    assert (Hq2 : filter is_parse evs2 = []).
    { apply filter_parse_nil, Forall_forall. intros ev Hev.
      destruct (Hd2 ev Hev) as [h ->]. by intros []. }
    simpl. eexists. split; [apply lookup_insert_eq|]. simpl.
    split; [intros b Hb; by rewrite !lookup_insert_ne|].
    split; [rewrite lookup_insert_ne by done; apply lookup_insert_eq|].
    split; [intros l Hl1 Hl2; by rewrite !lookup_insert_ne|].
    split; [intros _; rewrite lookup_insert_eq; eauto|].
    split; [done|].
    split; [done|]. split; [done|]. split; [done|]. split; [done|].
    split.
    + intros x Hx.
      assert (Hx5 : x ∈ dom (<[fr1:=s1]> (srcs w4))).
      { rewrite dom_insert_L. apply elem_of_union. by right. }
      rewrite lookup_insert_ne.
      * rewrite lookup_insert_ne; [done|]. by apply not_eq_sym, fresh_src_ne.
      * intros Heq. pose proof (is_fresh (dom (<[fr1:=s1]> (srcs w4)))) as Hfr.
        by rewrite Heq in Hfr.
    + exists (evs1 ++ [EvParseProvider provider raw] ++ evs2).
      split; [by rewrite !app_assoc|].
      rewrite !filter_app, Hq1, Hq2. reflexivity.
Qed.

(** What a call of [TargetConfig] that derives an instance has done. *)
Lemma TargetConfig_Ok_inv (sv : Services) (self : addr) (v : Vagrantfile)
    (name provider : string) (vp : bool) (w : world) (a : addr) (w' : world) :
  vfiles w !! self = Some v →
  cache v !! cache_key name provider = None →
  TargetConfig sv self name provider vp w = (Ok a, w') →
  (a ∉ dom (vfiles w)) ∧
  vfiles w' !! self
  = Some (set_cache (<[cache_key name provider := a]> (cache v)) v) ∧
  (∃ nv d,
     vfiles w' !! a = Some nv ∧ root nv = Some d ∧
     registrations nv = registrations v ∧ origin nv = origin v ∧
     cache nv = ∅ ∧
     is_Some (sources nv !! VAGRANTFILE_TARGET) ∧
     (provider ≠ EmptyString → is_Some (sources nv !! VAGRANTFILE_PROVIDER)) ∧
     (∀ l, l ≠ VAGRANTFILE_TARGET → l ≠ VAGRANTFILE_PROVIDER →
           sources nv !! l = sources v !! l)) ∧
  untouched (dom (vfiles w) ∖ {[self]}) (dom (srcs w)) w w' ∧
  ∃ raw evs,
    GetValue v ["vm"; "__defined_vms"; name] = Ok (VRaw raw) ∧
    trace w' = trace w ++ evs ∧
    filter is_parse evs = parser_calls provider raw.
Proof.
  intros Hv Hc H. unfold TargetConfig in H.
  unfold bind in H at 1. unfold get_vf in H. rewrite Hv, Hc in H.
  apply bind_Ok_inv in H as (subvm & w1 & Hget & H).
  unfold lift in Hget. injection Hget as Hget <-.
  destruct (is_nil subvm); [unfold fail in H; discriminate|].
  apply bind_Ok_inv in H as (raw & w2 & Hraw & H).
  assert (Hw2 : w2 = w ∧ subvm = VRaw raw).
  { destruct subvm; unfold ret, crash in Hraw; try discriminate.
    by injection Hraw as -> ->. }
  destruct Hw2 as [-> ->].
  apply bind_Ok_inv in H as (resp & w3 & Hparse & H).
  rewrite call_run in Hparse.
  destruct (parse_subvm sv raw) as [e|resp']; [discriminate|].
  injection Hparse as -> <-.
  apply bind_Ok_inv in H as (n & w4 & Hclone & H).
  destruct (origin v) as [o|] eqn:Ho.
  2:{ pose proof (clone_None self name
        (World (vfiles w) (srcs w) (trace w ++ [EvParseSubvm raw]))) as Hcl.
      rewrite Hclone in Hcl. discriminate. }
  rewrite (clone_run self name o v) in Hclone by done.
  injection Hclone as <- <-.
  set (n := fresh (dom (vfiles w))) in *.
  set (nv0 := Vagrantfile_ ∅ (Some o) (registrations v) None (sources v)
                (Some o)) in *.
  assert (Hfresh : n ∉ dom (vfiles w)) by apply is_fresh.
  assert (Hne : n ≠ self).
  { intros Heq. rewrite Heq in Hfresh. apply Hfresh, elem_of_dom. eauto. }
  apply bind_Ok_inv in H as (u1 & w5 & Hsrc1 & H).
  apply bind_Ok_inv in H as (u2 & w6 & Hsrc2 & H).
  assert (Hn4 : vfiles (World (<[n := nv0]> (vfiles w)) (srcs w)
                          ((trace w ++ [EvParseSubvm raw])
                           ++ [EvNewInternal o; EvCloser o n])) !! n
                = Some nv0) by (simpl; apply lookup_insert_eq).
  destruct (TargetConfig_sources sv n nv0 provider raw resp _ w6 u1 u2 w5
              Hn4 Hsrc1 Hsrc2)
    as (v6 & Hn6 & Hframe6 & Htarget & Hother & Hprov & Hnoprov & Hreg & Horig
        & Hcache & Hroot & Hsrcs6 & evs6 & Htr6 & Hq6).
  simpl in Htr6.
  simpl in Hframe6, Htarget, Hsrcs6, Hother, Hnoprov, Hreg, Horig, Hcache.
  apply bind_Ok_inv in H as (u3 & w7 & Hinit & H).
  apply wrap_Ok_inv in Hinit. destruct u3.
  destruct (Init_Ok_inv _ _ _ _ _ Hn6 Hinit) as (d & Hvf7 & _ & Hsrcs7).
  destruct (no_parse_Init _ _ _ _ _ Hinit) as (evs7 & Htr7 & Hq7).
  apply filter_parse_nil in Hq7.
  apply bind_Ok_inv in H as (u4 & w8 & Hmod & H).
  unfold ret in H. injection H as Ha Hw'. subst a w'.
  assert (Hself7 : vfiles w7 !! self = Some v).
  { rewrite Hvf7, lookup_insert_ne by done. rewrite Hframe6 by done.
    by rewrite lookup_insert_ne. }
  rewrite (modify_vf_run _ _ _ _ Hself7) in Hmod.
  injection Hmod as _ Hw8. subst w8. simpl.
  split; [done|].
  split; [apply lookup_insert_eq|].
  split.
  { exists (set_root (Some d) v6), d.
    rewrite lookup_insert_ne by done. rewrite Hvf7, lookup_insert_eq.
    simpl. split; [done|]. split; [done|]. split; [done|]. split; [done|].
    split; [done|]. split; [rewrite Htarget; eauto|].
    split; [done|]. intros l Hl1 Hl2. by rewrite Hother. }
  split; [split|].
  - intros b [Hb Hbs]%elem_of_difference.
    assert (b ≠ self) by (intros ->; apply Hbs; by apply elem_of_singleton).
    assert (b ≠ n) by (intros ->; done).
    simpl. rewrite lookup_insert_ne by done. rewrite Hvf7, lookup_insert_ne by done.
    rewrite Hframe6 by done. by rewrite lookup_insert_ne.
  - intros x Hx. simpl. rewrite Hsrcs7; [by apply Hsrcs6|].
    intros final Hlast Hvalid Hfinal.
    apply last_locations_highest in Hlast as [_ Hmax].
    assert (Hge : 3 ≤ LoadLocation_to_nat final).
    { apply (Hmax VAGRANTFILE_TARGET). rewrite Htarget. eauto. }
    apply valid_root_cases in Hvalid as [-> | [-> | ->]]; simpl in Hge; try lia.
    rewrite Htarget in Hfinal. simplify_eq.
    by apply (fresh_src_ne w) in Hx.
  - exists raw, ([EvParseSubvm raw] ++ [EvNewInternal o; EvCloser o n]
                 ++ evs6 ++ evs7).
    split; [done|]. split.
    + rewrite Htr7, Htr6. by rewrite <- !app_assoc.
    + rewrite !filter_app, Hq6, Hq7. unfold parser_calls.
      by destruct (decide (provider = EmptyString)).
Qed.



(** X20: a call of [TargetConfig] that derives an instance asks the Ruby
    parser once for the target, with the raw value found under "vm",
    "__defined_vms" and the name, and once more for the provider exactly when
    a provider is named; nothing else of what it does reaches the parser. *)
Theorem TargetConfig_parser_calls (sv : Services) (self : addr)
    (v : Vagrantfile) (name provider : string) (vp : bool) (w : world)
    (a : addr) (w' : world) :
  vfiles w !! self = Some v →
  cache v !! cache_key name provider = None →
  TargetConfig sv self name provider vp w = (Ok a, w') →
  ∃ raw evs,
    GetValue v ["vm"; "__defined_vms"; name] = Ok (VRaw raw) ∧
    trace w' = trace w ++ evs ∧
    filter is_parse evs
    = EvParseSubvm raw ::
      (if decide (provider = EmptyString) then []
       else [EvParseProvider provider raw]).
Proof.
  intros Hv Hc H.
  destruct (TargetConfig_Ok_inv _ _ _ _ _ _ _ _ _ Hv Hc H)
    as (_ & _ & _ & _ & raw & evs & H1 & H2 & H3).
  exists raw, evs. done.
Qed.

Lemma TargetConfig_parser_calls_witness :
  ∃ raw evs,
    GetValue (vf_rooted vm_tree) ["vm"; "__defined_vms"; "web"] = Ok (VRaw raw) ∧
    trace (TargetConfig demo 1 "web" "vbox" false w_target).2
    = trace w_target ++ evs ∧
    filter is_parse evs
    = EvParseSubvm raw ::
      (if decide ("vbox" = EmptyString) then []
       else [EvParseProvider "vbox" raw]).
Proof.
  apply (TargetConfig_parser_calls demo 1 (vf_rooted vm_tree) "web" "vbox" false
           w_target 2 (TargetConfig demo 1 "web" "vbox" false w_target).2);
    [reflexivity | reflexivity | computed_run].
Defined.

Lemma cache_same_trans (w1 w2 w3 : world) :
  cache_same w1 w2 → cache_same w2 w3 → cache_same w1 w3.
Proof. intros H1 H2 a cid. by rewrite H2, H1. Qed.

Lemma cache_same_bind_not_Ok {A B} (m : M A) (k : A → M B) :
  keeps_cache m →
  (∀ a w r w', k a w = (r, w') → (∀ x, r ≠ Ok x) → cache_same w w') →
  ∀ w r w', bind m k w = (r, w') → (∀ x, r ≠ Ok x) → cache_same w w'.
Proof.
  intros Hm Hk w r w' H Hr. unfold bind in H.
  destruct (m w) as [[a|e|p] w1] eqn:Hmw.
  - apply (cache_same_trans _ w1); [exact (Hm _ _ _ Hmw)|].
    by apply (Hk a _ r).
  - simplify_eq. exact (Hm _ _ _ Hmw).
  - simplify_eq. exact (Hm _ _ _ Hmw).
Qed.

(** X21: a call of [TargetConfig] that does not return an instance (it
    returns an error or panics) caches nothing: every cache of every instance
    reads as before the call, so the next call for the pair starts over. *)
Theorem TargetConfig_failure_caches_nothing (sv : Services) (self : addr)
    (name provider : string) (vp : bool) (w : world) (r : go addr)
    (w' : world) :
  TargetConfig sv self name provider vp w = (r, w') →
  (∀ a, r ≠ Ok a) →
  cache_same w w'.
Proof.
  intros H Hr. unfold TargetConfig in H. unfold bind in H at 1.
  unfold get_vf in H. destruct (vfiles w !! self) as [v|] eqn:Hself.
  2:{ injection H as _ <-. apply cache_same_refl. }
  destruct (cache v !! cache_key name provider) as [cv|] eqn:Hc.
  { unfold ret in H. injection H as <- _. by destruct (Hr cv). }
  assert (Hleaf : ∀ (m : M addr) w0 r0 w1,
            keeps_cache m → m w0 = (r0, w1) → cache_same w0 w1).
  { intros m w0 r0 w1 Hm Hrun. exact (Hm _ _ _ Hrun). }
  clear Hself.
  refine (cache_same_bind_not_Ok _ _ _ _ w r w' H Hr); clear w r w' H Hr;
    [auto with frame|].
  intros subvm w r w' H Hr. cbv beta in H.
  destruct (is_nil subvm); [eapply Hleaf; [|exact H]; auto with frame|].
  refine (cache_same_bind_not_Ok _ _ _ _ w r w' H Hr); clear w r w' H Hr.
  { destruct subvm; auto with frame. }
  intros raw w r w' H Hr. cbv beta in H.
  refine (cache_same_bind_not_Ok _ _ _ _ w r w' H Hr); clear w r w' H Hr;
    [auto with frame|].
  intros resp w r w' H Hr. cbv beta in H.
  refine (cache_same_bind_not_Ok _ _ _ _ w r w' H Hr); clear w r w' H Hr;
    [apply keeps_cache_clone|].
  intros newV w r w' H Hr. cbv beta in H.
  refine (cache_same_bind_not_Ok _ _ _ _ w r w' H Hr); clear w r w' H Hr.
  { apply keeps_cache_wrap, keeps_cache_Source. }
  intros _ w r w' H Hr. cbv beta in H.
  refine (cache_same_bind_not_Ok _ _ _ _ w r w' H Hr); clear w r w' H Hr.
  { destruct (decide (provider = EmptyString)); [auto with frame|].
    apply keeps_cache_bind; [auto with frame|]. intros resp'.
    apply keeps_cache_wrap, keeps_cache_Source. }
  intros _ w r w' H Hr. cbv beta in H.
  refine (cache_same_bind_not_Ok _ _ _ _ w r w' H Hr); clear w r w' H Hr.
  { apply keeps_cache_wrap, keeps_cache_Init. }
  intros _ w r w' H Hr. cbv beta in H.
  unfold bind in H.
  destruct (vfiles w !! self) as [v'|] eqn:Hv'.
  - rewrite (modify_vf_run _ _ _ _ Hv') in H. unfold ret in H.
    injection H as <- _. by destruct (Hr newV).
  - rewrite (modify_vf_miss _ _ _ Hv') in H. injection H as _ <-.
    apply cache_same_refl.
Qed.

Lemma TargetConfig_failure_caches_nothing_witness :
  cache_same w_target (TargetConfig demo 1 "db" "vbox" false w_target).2.
Proof.
  apply (TargetConfig_failure_caches_nothing demo 1 "db" "vbox" false w_target
           (TargetConfig demo 1 "db" "vbox" false w_target).1).
  - by destruct (TargetConfig demo 1 "db" "vbox" false w_target).
  - intros a. vm_compute. discriminate.
Defined.

(** X22: what [TargetConfig] does before it clones, for a key that is
    not cached.  When the lookup of the target under "vm", "__defined_vms"
    fails, the lookup error is returned; when the value found is nil, the
    empty-target error; when it is anything else than a raw Ruby value, the
    type assertion panics: in these cases nothing changes, no call leaves the
    process.  When the Ruby parser refuses the raw value, its error is
    returned as it is, and the call to the parser is all that happened. *)
Theorem TargetConfig_gives_up (sv : Services) (self : addr) (v : Vagrantfile)
    (name provider : string) (vp : bool) (w : world) :
  vfiles w !! self = Some v →
  cache v !! cache_key name provider = None →
  (∀ e, GetValue v ["vm"; "__defined_vms"; name] = Err e →
        TargetConfig sv self name provider vp w = (Err e, w)) ∧
  (GetValue v ["vm"; "__defined_vms"; name] = Ok VNil →
   TargetConfig sv self name provider vp w = (Err ErrEmptyTarget, w)) ∧
  (∀ x, GetValue v ["vm"; "__defined_vms"; name] = Ok x →
        is_nil x = false → (∀ raw, x ≠ VRaw raw) →
        TargetConfig sv self name provider vp w
        = (Panic (TypeAssertion (type_name x)), w)) ∧
  (∀ raw e, GetValue v ["vm"; "__defined_vms"; name] = Ok (VRaw raw) →
            parse_subvm sv raw = inl e →
            TargetConfig sv self name provider vp w
            = (Err e, World (vfiles w) (srcs w)
                        (trace w ++ [EvParseSubvm raw]))).
Proof.
  intros Hv Hc.
  assert (Hstart : TargetConfig sv self name provider vp w
    = (subvm <- lift (GetValue v ["vm"; "__defined_vms"; name]) ;;
       if is_nil subvm then fail ErrEmptyTarget
       else
         raw <- match subvm with
                | VRaw r => ret r
                | _ => crash (TypeAssertion (type_name subvm))
                end ;;
         resp <- call (EvParseSubvm raw) (parse_subvm sv raw) ;;
         newV <- clone self name (origin v) ;;
         wrap "failed to add target config source"
           (Source sv newV (Some (VagrantfileProto (Some resp) None))
              VAGRANTFILE_TARGET) ;;;
         (if decide (provider = EmptyString) then ret ()
          else
            resp <- call (EvParseProvider provider raw)
                      (parse_provider sv provider raw) ;;
            wrap "failed to add provider config source"
              (Source sv newV (Some (VagrantfileProto (Some resp) None))
                 VAGRANTFILE_PROVIDER)) ;;;
         wrap "failed to init target config vagrantfile" (Init sv newV) ;;;
         modify_vf self
           (λ v, set_cache (<[cache_key name provider := newV]> (cache v)) v) ;;;
         ret newV) w).
  { unfold TargetConfig. unfold bind at 1, get_vf. by rewrite Hv, Hc. }
  rewrite Hstart. clear Hstart. repeat split.
  - intros e He. unfold bind, lift. by rewrite He.
  - intros He. unfold bind, lift. by rewrite He.
  - intros x Hx Hnil Hraw. unfold bind at 1, lift. rewrite Hx, Hnil.
    unfold bind at 1. destruct x; try done. by destruct (Hraw r).
  - intros raw e Hx Hp. unfold bind at 1, lift. rewrite Hx. simpl.
    unfold bind at 1, ret. unfold bind at 1. by rewrite call_run, Hp.
Qed.

Lemma TargetConfig_gives_up_witness :
  TargetConfig demo 1 "db" "vbox" false w_target
  = (Err (ErrLookup ["vm"; "__defined_vms"; "db"]), w_target).
Proof.
  apply (proj1 (TargetConfig_gives_up demo 1 (vf_rooted vm_tree) "db" "vbox"
                  false w_target eq_refl eq_refl)).
  reflexivity.
Defined.

(** ** The mappers of [NewVagrantfile] *)

Section Mappers.

Context {F Fn : Type}.
Variable new_func : F → error + Fn.

Lemma mappers_loop (all : list F) (N : nat) :
  length all ≤ N →
  let mappers :=
    foldl (λ acc ifn,
             match new_func ifn.2 with
             | inl _ => acc
             | inr pfn => <[ifn.1 := Some pfn]> acc
             end)
          (replicate N None) (imap (λ i fn, (i, fn)) all) in
  length mappers = N ∧
  ∀ i, i < N →
       mappers !! i = Some (all !! i ≫= converted new_func).
Proof.
  induction all as [|x all IH] using rev_ind; intros Hlen; simpl.
  - split; [apply length_replicate|].
    intros i Hi. by rewrite lookup_replicate_2.
  - rewrite length_app in Hlen. simpl in Hlen.
    destruct IH as [IHlen IHget]; [lia|].
    rewrite imap_app, foldl_app. simpl. rewrite Nat.add_0_r.
    set (acc := foldl _ _ (imap _ all)) in *.
    split.
    + destruct (new_func x); [done|]. by rewrite length_insert.
    + intros i Hi.
      destruct (decide (i = length all)) as [->|Hne].
      * rewrite lookup_app_r, Nat.sub_diag by lia. simpl.
        unfold converted. destruct (new_func x) as [e|pfn].
        -- rewrite IHget by lia. by rewrite lookup_ge_None_2.
        -- by rewrite list_lookup_insert_eq by lia.
      * assert (Hall : (all ++ [x]) !! i = all !! i).
        { destruct (decide (i < length all)).
          - by rewrite lookup_app_l.
          - rewrite !lookup_ge_None_2; [done|lia|].
            rewrite length_app. simpl. lia. }
        rewrite Hall. destruct (new_func x) as [e|pfn]; [by apply IHget|].
        rewrite list_lookup_insert_ne by done. by apply IHget.
Qed.

(** X23: the mapper slice of [NewVagrantfile] has one slot per built-in
    mapper and per mapper of the caller.  The copy of the caller's mappers
    starts one slot too early: with at least one mapper of the caller, the
    last built-in mapper is overwritten by the caller's first one and the
    last slot of the slice stays nil; the built-in mappers before the last
    are in place (nil where [NewFunc] failed) and so are all mappers of the
    caller, one slot early. *)
Theorem NewVagrantfile_mappers_slots (all : list F) (m : list Fn) :
  all ≠ [] →
  ∃ mappers,
    NewVagrantfile_mappers new_func all m = Returned mappers ∧
    length mappers = length all + length m ∧
    (∀ i fn, i < length all - 1 → all !! i = Some fn →
             mappers !! i = Some (converted new_func fn)) ∧
    (∀ j f, m !! j = Some f →
            mappers !! (length all - 1 + j) = Some (Some f)) ∧
    (m ≠ [] → mappers !! (length all + length m - 1) = Some None) ∧
    (m = [] → mappers !! (length all - 1)
              = converted new_func <$> last all).
Proof.
  intros Hall. unfold NewVagrantfile_mappers.
  destruct (mappers_loop all (length all + length m)) as [Hlen Hget]; [lia|].
  set (conv := foldl _ _ _) in *.
  destruct (length all) as [|low] eqn:Hn.
  { by destruct all. }
  eexists. split; [reflexivity|].
  rewrite firstn_all2 by lia.
  replace (S low - 1) with low by lia.
  split; [by rewrite length_inserts|].
  split; [|split; [|split]].
  - intros i fn Hi Hfn. rewrite list_lookup_inserts_lt by lia.
    rewrite Hget by lia. by rewrite Hfn.
  - intros j f Hj.
    pose proof (lookup_lt_Some _ _ _ Hj) as Hjlt.
    rewrite list_lookup_inserts;
      [|rewrite length_fmap; lia|rewrite Hlen; lia].
    replace (low + j - low) with j by lia.
    by rewrite list_lookup_fmap, Hj.
  - intros Hm. assert (0 < length m) by (destruct m; [done|simpl; lia]).
    rewrite list_lookup_inserts_ge by (rewrite length_fmap; lia).
    rewrite Hget by lia. by rewrite lookup_ge_None_2 by lia.
  - intros ->. simpl. rewrite Hget by lia.
    rewrite last_lookup, Hn. simpl.
    destruct (lookup_lt_is_Some_2 all low) as [fn Hfn]; [lia|].
    by rewrite Hfn.
Qed.

(** Without built-in mappers the slice expression panics. *)
Remark NewVagrantfile_mappers_empty (m : list Fn) :
  NewVagrantfile_mappers new_func [] m
  = Panicked "slice bounds out of range [-1:]".
Proof. reflexivity. Qed.

End Mappers.

Lemma NewVagrantfile_mappers_slots_witness :
  ∃ mappers,
    NewVagrantfile_mappers (λ n : nat, inr (n + 100) : error + nat)
      [1; 2; 3] [7; 8] = Returned mappers ∧
    mappers = [Some 101; Some 102; Some 7; Some 8; None].
Proof.
  destruct (NewVagrantfile_mappers_slots (λ n : nat, inr (n + 100) : error + nat)
              [1; 2; 3] [7; 8]) as (mappers & H & _); [discriminate|].
  exists mappers. split; [exact H|].
  vm_compute in H. by injection H as <-.
Defined.

(** ** Init over one and over two sources *)

Lemma Init_generate_run (sv : Services) (self : addr) (v : Vagrantfile)
    (locs : list LoadLocation) (s : option addr) (w w1 w2 : world)
    (c : option cfg) (d : cfg) :
  vfiles w !! self = Some v →
  generate sv v locs w = (Ok c, w1) →
  finalize sv v c w1 = (Ok (Some d, None), w2) →
  match s with
  | None => True
  | Some sa => is_Some (srcs w !! sa) ∧ ∃ raw, map_encode sv d = inr raw
  end →
  ∃ w', Init_generate sv self v locs s w = (Ok (), w') ∧
        vfiles w' = <[self := set_root (Some d) v]> (vfiles w).
Proof.
  intros Hv Hgen Hfin Hs.
  destruct (only_trace_generate _ _ _ _ _ _ Hgen) as (Hv1 & Hs1 & _).
  destruct (only_trace_finalize _ _ _ _ _ _ Hfin) as (Hv2 & Hs2 & _).
  assert (Hself : vfiles w2 !! self = Some v) by (rewrite Hv2, Hv1; done).
  unfold Init_generate. unfold bind at 1. rewrite Hgen.
  unfold bind at 1. rewrite Hfin.
  unfold bind at 1. rewrite (modify_vf_run _ _ _ _ Hself). simpl.
  destruct s as [sa|].
  - destruct Hs as [[s0 Hs0] [raw Hraw]].
    unfold setFinalized. unfold bind at 1.
    erewrite modify_src_run by (simpl; rewrite Hs2, Hs1; exact Hs0).
    unfold bind at 1. rewrite call_run, Hraw.
    erewrite modify_src_run by (simpl; apply lookup_insert_eq).
    eexists. split; [reflexivity|]. simpl. congruence.
  - unfold ret. eexists. split; [reflexivity|]. simpl. congruence.
Qed.

Lemma locations_of_one (v : Vagrantfile) (l : LoadLocation) (sa : addr) :
  sources v = {[ l := sa ]} → locations_of v = [l].
Proof.
  intros Hs. unfold locations_of. rewrite Hs. by destruct l.
Qed.

(** X24: one source, not finalized yet, whose tree has a component that
    finalizes it under every namespace (and, at a valid root location, a
    mapping service that encodes the trees over these namespaces): [Init] returns nil,
    and from then on [GetConfig] on a namespace of the source returns what
    the component of that namespace made of the tree the source holds there,
    and the missing-namespace error on every other name. *)
Theorem Init_single_source (sv : Services) (self : addr) (v : Vagrantfile)
    (l : LoadLocation) (sa : addr) (s : source) (u : cfg) (w : world) :
  vfiles w !! self = Some v →
  sources v = {[ l := sa ]} →
  srcs w !! sa = Some s →
  finalized s = None →
  unfinalized s = Some u →
  (∀ k, k ∈ dom u → is_Some (finalized_value sv v u k)) →
  (l ∈ ValidRootLocations →
   ∀ d, dom d = dom u → ∃ raw, map_encode sv d = inr raw) →
  ∃ w' v',
    Init sv self w = (Ok (), w') ∧ vfiles w' !! self = Some v' ∧
    (∀ k a, u !! k = Some (VConfigData a) →
       ∃ c m, component_of sv v k = Some c ∧
              config_finalize sv c a = inr m ∧
              GetConfig v' k = Ok m) ∧
    (∀ k, u !! k = None → GetConfig v' k = Err (ErrNoConfig k)).
Proof.
  intros Hv Hsrc Hs Hfin Hu Hall Henc.
  pose proof (locations_of_one _ _ _ Hsrc) as Hlocs.
  assert (Hl : sources v !! l = Some sa) by (rewrite Hsrc; apply lookup_singleton_eq).
  assert (Hgen : generate sv v [l] w = (Ok (Some u), w)).
  { unfold generate, source_at. rewrite Hl. unfold bind, get_src.
    rewrite Hs. simpl. unfold ret. by rewrite Hu. }
  destruct (finalize_loop_total sv v u (range_keys sv (dom u))) with (acc := (∅ : cfg)) (w := w)
    as (d & w2 & Hfinrun).
  { intros k Hk%range_keys_elem. by apply Hall. }
  assert (Hfinalize : finalize sv v (Some u) w = (Ok (Some d, None), w2)) by done.
  destruct (finalize_loop_Ok sv v u _ (range_keys_NoDup sv _) _ _ _ _ Hfinrun)
    as (Hd & _ & _).
  assert (Hlook : ∀ k, d !! k = if decide (k ∈ dom u)
                                then finalized_value sv v u k else None).
  { intros k. rewrite Hd, lookup_empty.
    destruct (decide (k ∈ range_keys sv (dom u))) as [Hin|Hin];
      rewrite range_keys_elem in Hin.
    - by rewrite decide_True.
    - by rewrite decide_False. }
  assert (Hdom : dom d = dom u).
  { apply set_eq. intros k. rewrite (elem_of_dom d), Hlook.
    destruct (decide (k ∈ dom u)) as [Hk|Hk].
    - split; [done|]. intros _. by apply Hall.
    - split; [by intros [? ?] | done]. }
  assert (Hrun : ∃ w', Init sv self w = (Ok (), w') ∧
                       vfiles w' = <[self := set_root (Some d) v]> (vfiles w)).
  { unfold Init. unfold bind at 1, get_vf. rewrite Hv, Hlocs. simpl.
    destruct (decide (l ∈ ValidRootLocations)) as [Hvalid|Hinvalid].
    - rewrite Hl. unfold bind at 1, get_src. rewrite Hs, Hfin.
      eapply Init_generate_run; try done.
      split; [by eexists|]. by apply Henc.
    - eapply Init_generate_run; done. }
  destruct Hrun as (w' & Hinit & Hvf).
  exists w', (set_root (Some d) v). split; [done|].
  split; [by rewrite Hvf, lookup_insert_eq|].
  split.
  - intros k a Hk.
    assert (Hin : k ∈ dom u) by (apply elem_of_dom; eauto).
    destruct (Hall k Hin) as [val Hval].
    unfold GetConfig, root_Data. simpl. rewrite Hlook, decide_True by done.
    rewrite Hval. unfold finalized_value in Hval. rewrite Hk in Hval.
    destruct (component_of sv v k) as [c|]; [|discriminate]. simpl in Hval.
    destruct (config_finalize sv c a) as [e|m] eqn:Hm; [discriminate|].
    injection Hval as <-. by exists c, m.
  - intros k Hk. unfold GetConfig, root_Data. simpl.
    rewrite Hlook, decide_False; [done|].
    intros [x Hx]%elem_of_dom. congruence.
Qed.

Lemma Init_single_source_witness :
  ∃ w' v',
    Init demo 1 w_project = (Ok (), w') ∧ vfiles w' !! 1 = Some v' ∧
    (∀ k a, box_tree !! k = Some (VConfigData a) →
       ∃ c m, component_of demo vf_project k = Some c ∧
              config_finalize demo c a = inr m ∧
              GetConfig v' k = Ok m) ∧
    (∀ k, box_tree !! k = None → GetConfig v' k = Err (ErrNoConfig k)).
Proof.
  apply (Init_single_source demo 1 vf_project VAGRANTFILE_PROJECT 6
           (src_of box_tree) box_tree w_project); try reflexivity.
  - intros k Hk. apply elem_of_dom in Hk as [x Hx].
    destruct (decide (k = "vm")) as [->|Hne]; [vm_compute; eauto|].
    unfold box_tree in Hx. rewrite lookup_singleton_ne in Hx by done.
    discriminate.
  - intros _ d Hd. simpl.
    destruct (decide (is_Some (d !! "ssh"))) as [Hssh|Hssh]; [|eauto].
    exfalso. apply elem_of_dom in Hssh. rewrite Hd in Hssh.
    apply elem_of_dom in Hssh as [x Hx]. vm_compute in Hx. discriminate.
Defined.

Lemma locations_of_two (v : Vagrantfile) (l1 l2 : LoadLocation)
    (sa1 sa2 : addr) :
  LoadLocation_to_nat l1 < LoadLocation_to_nat l2 →
  sources v = {[ l1 := sa1; l2 := sa2 ]} →
  locations_of v = [l1; l2].
Proof.
  intros Hlt Hs. unfold locations_of. rewrite Hs.
  destruct l1, l2; simpl in Hlt; try lia; reflexivity.
Qed.

(** X25: with sources at two locations, the one merge that [generate]
    runs takes the tree of the lower location as its base and the tree of the
    higher location as what is merged into it, whatever the order in which
    the sources were added: a namespace that both trees define ends up as
    its component's merge of the lower tree's value with the higher tree's
    value, in this order. *)
Theorem generate_precedence (sv : Services) (v : Vagrantfile)
    (l1 l2 : LoadLocation) (sa1 sa2 : addr) (s1 s2 : source) (u1 u2 : cfg)
    (w : world) :
  LoadLocation_to_nat l1 < LoadLocation_to_nat l2 →
  sources v = {[ l1 := sa1; l2 := sa2 ]} →
  srcs w !! sa1 = Some s1 →
  srcs w !! sa2 = Some s2 →
  unfinalized s1 = Some u1 →
  unfinalized s2 = Some u2 →
  generate sv v (locations_of v) w
  = (r <- merge sv v (Some u1) (Some u2) ;; ret (Some r)) w ∧
  ∀ c w', generate sv v (locations_of v) w = (Ok c, w') →
    ∃ r, c = Some r ∧
      ∀ k a1 a2, u1 !! k = Some (VConfigData a1) →
                 u2 !! k = Some (VConfigData a2) →
                 ∃ p m, component_of sv v k = Some p ∧
                        config_merge sv p a1 a2 = inr m ∧
                        r !! k = Some (VConfigData m).
Proof.
  intros Hlt Hs H1 H2 Hu1 Hu2.
  assert (Heq : generate sv v (locations_of v) w
                = (r <- merge sv v (Some u1) (Some u2) ;; ret (Some r)) w).
  { rewrite (locations_of_two _ _ _ _ _ Hlt Hs).
    assert (Hne : l1 ≠ l2) by (intros ->; lia).
    assert (Hl1 : sources v !! l1 = Some sa1).
    { rewrite Hs. apply lookup_insert_eq. }
    assert (Hl2 : sources v !! l2 = Some sa2).
    { rewrite Hs, lookup_insert_ne by done. apply lookup_singleton_eq. }
    unfold generate, source_at. rewrite Hl1. unfold bind at 1, get_src.
    rewrite H1. simpl. rewrite Hl2, Hu1. unfold bind at 1, get_src.
    rewrite H2, Hu2. reflexivity. }
  split; [exact Heq|].
  intros c w' Hrun. rewrite Heq in Hrun.
  apply bind_Ok_inv in Hrun as (r & w1 & Hmerge & Hret).
  unfold ret in Hret. injection Hret as <- <-.
  exists r. split; [done|]. intros k a1 a2 Hk1 Hk2.
  unfold merge in Hmerge.
  destruct (merge_loop_Ok sv v u1 u2 _ (range_keys_NoDup sv _) _ _ _ _ Hmerge)
    as (_ & _ & Hr & Hall & _).
  assert (Hin : k ∈ range_keys sv (dom u1 ∪ dom u2)).
  { apply range_keys_elem, elem_of_union. left. apply elem_of_dom. eauto. }
  destruct (Hall k Hin) as [val Hval].
  rewrite Hr, decide_True by done. rewrite Hval.
  unfold merged_value in Hval. rewrite Hk1, Hk2 in Hval.
  destruct (component_of sv v k) as [p|]; [|discriminate]. simpl in Hval.
  destruct (config_merge sv p a1 a2) as [e|m] eqn:Hm; [discriminate|].
  injection Hval as <-. by exists p, m.
Qed.

Lemma generate_precedence_witness :
  ∃ r w', generate demo vf_two (locations_of vf_two) w_two = (Ok (Some r), w') ∧
          r !! "vm"
          = Some (VConfigData {[ "box" := VString "web"; "memory" := VString "2G" ]}).
Proof.
  destruct (generate_precedence demo vf_two VAGRANTFILE_BOX VAGRANTFILE_PROJECT
              5 6 (src_of box_tree)
              (src_of {[ "vm" := VConfigData {[ "memory" := VString "2G" ]} ]})
              box_tree {[ "vm" := VConfigData {[ "memory" := VString "2G" ]} ]}
              w_two) as [Heq Hprec]; try reflexivity; [simpl; lia|].
  destruct (generate demo vf_two (locations_of vf_two) w_two) as [c w'] eqn:Hrun.
  assert (Hc : ∃ r, c = Ok (Some r)).
  { apply (f_equal fst) in Heq. vm_compute in Heq. rewrite Heq. eauto. }
  destruct Hc as [r ->]. exists r, w'. split; [done|].
  destruct (Hprec (Some r) w' eq_refl) as (r' & [= <-] & Hk).
  destruct (Hk "vm" {[ "box" := VString "web" ]} {[ "memory" := VString "2G" ]}
              eq_refl eq_refl) as (p & m & _ & Hm & Hr).
  rewrite Hr. vm_compute in Hm. injection Hm as <-.
  vm_compute. reflexivity.
Defined.

(** ** New instances *)

(** X26: [NewVagrantfile] for an origin scope makes a new instance and
    leaves every other instance and every source struct alone; a first
    [Init] on it, before any source is added, returns nil and makes the empty
    tree its root.  With a nil origin scope [NewVagrantfile] panics. *)
Theorem NewVagrantfile_then_Init (sv : Services) (o : originScope) (w : world) :
  (∃ a w1 w2,
     NewVagrantfile (Some o) w = (Ok a, w1) ∧
     (a ∉ dom (vfiles w)) ∧
     Init sv a w1 = (Ok (), w2) ∧
     vfiles w2 !! a
     = Some (Vagrantfile_ ∅ (Some o) ∅ (Some ∅) ∅ (Some o)) ∧
     trace w2 = trace w ++ [EvNewInternal o] ∧
     untouched (dom (vfiles w)) (dom (srcs w)) w w2) ∧
  (NewVagrantfile None w).1 = Panic NilDereference.
Proof.
  split; [|reflexivity].
  unfold NewVagrantfile. unfold bind at 1, alloc_vf.
  unfold bind at 1, emit. unfold bind at 1.
  erewrite modify_vf_run by (simpl; apply lookup_insert_eq).
  unfold ret. simpl. rewrite insert_insert_eq.
  set (a := fresh (dom (vfiles w))).
  assert (Hfresh : a ∉ dom (vfiles w)) by apply is_fresh.
  eexists _, _, _. split; [reflexivity|]. split; [done|].
  split.
  { apply (Init_no_sources_run sv a
             (Vagrantfile_ ∅ (Some o) ∅ None ∅ (Some o))).
    - simpl. apply lookup_insert_eq.
    - reflexivity. }
  simpl. rewrite insert_insert_eq.
  split; [apply lookup_insert_eq|]. split; [done|]. split; [|done].
  intros b Hb. simpl. rewrite lookup_insert_ne; [done|]. intros ->. done.
Qed.
